(** * kitty-conf.nvim: the documentation compiler of [generate.py]

    A shallow embedding of the text pipeline of [generate.py]
    ([strip_rst], [extract_values], [none_is_special_value],
    [is_stub_doc], [parse_options_spec], [format_flags_doc],
    [enrich_stub_actions]) and the proofs of its specified properties.

    Text is a list of characters.  A character is a code point below 256
    (the Latin-1 range of Python's [str]); the character classes below
    are the ones Python's [str] methods and [re] module use on that
    range. *)

From Stdlib Require Import Ascii String.
From stdpp Require Import gmap strings list.

Local Open Scope char_scope.

(** ** Text *)

Abbreviation text := (list ascii).

(** A text literal: [str "abc"]. *)
Definition str (s : string) : text := list_ascii_of_string s.

Definition code (c : ascii) : N := N_of_ascii c.

Definition chr_eqb (a b : ascii) : bool := Ascii.eqb a b.

Definition in_range (lo hi : N) (c : ascii) : bool :=
  (lo <=? code c)%N && (code c <=? hi)%N.

(** [str.isspace] / [\s] on code points below 256. *)
Definition is_space (c : ascii) : bool :=
  in_range 9 13 c || in_range 28 32 c
  || (code c =? 133)%N || (code c =? 160)%N.

(** [\w] on code points below 256: alphanumeric or underscore. *)
Definition is_word (c : ascii) : bool :=
  in_range 48 57 c || in_range 65 90 c || in_range 97 122 c
  || (code c =? 95)%N
  || (code c =? 170)%N || (code c =? 178)%N || (code c =? 179)%N
  || (code c =? 181)%N || (code c =? 185)%N || (code c =? 186)%N
  || in_range 188 190 c || in_range 192 214 c || in_range 216 246 c
  || in_range 248 255 c.

Definition newline : ascii := "010".

(** ** Regular expressions

    The constructs that the patterns of [generate.py] use.  Every
    repetition in those patterns ranges over a single character set, so
    [Star] takes a set; [x+] is [x] followed by [x*], and [x?] is the
    alternative of [x] and the empty pattern, tried in that order. *)

Inductive regex : Type :=
  | Eps
  | Cls (p : ascii → bool)                (* one character of a set *)
  | Seq (r1 r2 : regex)
  | Alt (r1 r2 : regex)
  | Star (greedy : bool) (p : ascii → bool) (* [p*] or [p*?] *)
  | Group (n : nat) (r : regex)           (* capturing group number n *)
  | Bol                                   (* [^] *)
  | Eol                                   (* [$] *)
  | WordB                                 (* [\b] *)
  | NotAhead (r : regex)                  (* [(?!r)] *)
  | Behind (p : ascii → bool).            (* [(?<=[set])] *)

(** A position in the subject: the characters before it, nearest first,
    and the characters after it. *)
Definition pos : Type := text * text.

Definition caps : Type := list (nat * text).

Definition mres : Type := pos * caps.

Definition get_group (n : nat) (cs : caps) : text :=
  match List.find (λ e, Nat.eqb (fst e) n) cs with
  | Some e => snd e
  | None => []
  end.

(** The text between position [x] and a later position [y]. *)
Definition consumed (x y : pos) : text :=
  rev (take (length (fst y) - length (fst x)) (fst y)).

Definition at_word_boundary (x : pos) : bool :=
  xorb (match fst x with c :: _ => is_word c | [] => false end)
       (match snd x with c :: _ => is_word c | [] => false end).

Definition at_eol (x : pos) : bool :=
  match snd x with
  | [] => true
  | [c] => chr_eqb c newline
  | _ => false
  end.

Section Matcher.
Context {R : Type}.

Fixpoint star_greedy (p : ascii → bool) (k : pos → option R)
    (b a : text) : option R :=
  match a with
  | c :: a' =>
      if p c then
        match star_greedy p k (c :: b) a' with
        | Some r => Some r
        | None => k (b, a)
        end
      else k (b, a)
  | [] => k (b, [])
  end.

Fixpoint star_lazy (p : ascii → bool) (k : pos → option R)
    (b a : text) : option R :=
  match k (b, a) with
  | Some r => Some r
  | None =>
      match a with
      | c :: a' => if p c then star_lazy p k (c :: b) a' else None
      | [] => None
      end
  end.
End Matcher.

(** The backtracking matcher, in continuation-passing style: [exec r x cs k]
    matches [r] at position [x] and hands every way of matching, in
    Python's order of preference, to [k] until [k] accepts one. *)
Fixpoint exec (r : regex) (x : pos) (cs : caps)
    (k : pos → caps → option mres) : option mres :=
  match r with
  | Eps => k x cs
  | Cls p =>
      match snd x with
      | c :: a => if p c then k (c :: fst x, a) cs else None
      | [] => None
      end
  | Seq r1 r2 => exec r1 x cs (λ y cs', exec r2 y cs' k)
  | Alt r1 r2 =>
      match exec r1 x cs k with
      | Some res => Some res
      | None => exec r2 x cs k
      end
  | Star true p => star_greedy p (λ y, k y cs) (fst x) (snd x)
  | Star false p => star_lazy p (λ y, k y cs) (fst x) (snd x)
  | Group n r1 => exec r1 x cs (λ y cs', k y ((n, consumed x y) :: cs'))
  | Bol => match fst x with [] => k x cs | _ => None end
  | Eol => if at_eol x then k x cs else None
  | WordB => if at_word_boundary x then k x cs else None
  | NotAhead r1 =>
      match exec r1 x cs (λ y cs', Some (y, cs')) with
      | Some _ => None
      | None => k x cs
      end
  | Behind p =>
      match fst x with
      | c :: _ => if p c then k x cs else None
      | [] => None
      end
  end.

Definition accept : pos → caps → option mres := λ y cs, Some (y, cs).

(** One match attempt at position [x]: the end position and the groups. *)
Definition match_at (r : regex) (x : pos) : option mres :=
  exec r x [] accept.

(** [re.match(r, s)]. *)
Definition re_match (r : regex) (s : text) : option mres :=
  match_at r ([], s).

(** The scan of [re.search]: the first position from [(b, a)] on where
    [r] matches, with the end position and the groups. *)
Fixpoint scan (r : regex) (b a : text) : option (pos * mres) :=
  match match_at r (b, a) with
  | Some m => Some ((b, a), m)
  | None =>
      match a with
      | c :: a' => scan r (c :: b) a'
      | [] => None
      end
  end.

(** [re.search(r, s)] with [.group()]: the matched text. *)
Definition re_search (r : regex) (s : text) : option text :=
  match scan r [] s with
  | Some (x, (y, _)) => Some (consumed x y)
  | None => None
  end.

(** Replacement templates: literal text and group references [\n]. *)
Inductive tpl_item : Type :=
  | TLit (s : text)
  | TGroup (n : nat).

Definition expand (tpl : list tpl_item) (cs : caps) : text :=
  concat (map (λ i, match i with TLit s => s | TGroup n => get_group n cs end) tpl).

Definition may_replace (count n : nat) : bool :=
  Nat.eqb count 0 || Nat.ltb n count.

(** [re.sub(r, tpl, s, count)] for patterns that consume at least one
    character, as all patterns of this program do.  The subject is walked
    left to right; [skip] counts the characters of the current match that
    are still to be passed over, [n] the replacements made so far. *)
Fixpoint sub_loop (r : regex) (tpl : list tpl_item) (count n skip : nat)
    (b a : text) : text :=
  match a with
  | [] => []
  | c :: a' =>
      match skip with
      | S skip' => sub_loop r tpl count n skip' (c :: b) a'
      | O =>
          if may_replace count n then
            match match_at r (b, a) with
            | Some (y, cs) =>
                match length a - length (snd y) with
                | S m => expand tpl cs ++ sub_loop r tpl count (S n) m (c :: b) a'
                | O => expand tpl cs ++ c :: sub_loop r tpl count (S n) 0 (c :: b) a'
                end
            | None => c :: sub_loop r tpl count n 0 (c :: b) a'
            end
          else c :: sub_loop r tpl count n 0 (c :: b) a'
      end
  end.

Definition re_sub_count (r : regex) (tpl : list tpl_item) (s : text)
    (count : nat) : text :=
  sub_loop r tpl count 0 0 [] s.

Definition re_sub (r : regex) (tpl : list tpl_item) (s : text) : text :=
  re_sub_count r tpl s 0.

(** [re.findall(r, s)] for a pattern with one group: the texts of group 1
    of the successive matches. *)
Fixpoint findall_loop (r : regex) (skip : nat) (b a : text) : list text :=
  match a with
  | [] => []
  | c :: a' =>
      match skip with
      | S skip' => findall_loop r skip' (c :: b) a'
      | O =>
          match match_at r (b, a) with
          | Some (y, cs) =>
              get_group 1 cs :: findall_loop r (length a - length (snd y) - 1) (c :: b) a'
          | None => findall_loop r 0 (c :: b) a'
          end
      end
  end.

Definition re_findall (r : regex) (s : text) : list text :=
  findall_loop r 0 [] s.

(** [re.split(r, s)] for a pattern without groups: the pieces between the
    successive matches; [cur] is the piece being read, last character
    first. *)
Fixpoint split_loop (r : regex) (skip : nat) (cur b a : text) : list text :=
  match a with
  | [] => [rev cur]
  | c :: a' =>
      match skip with
      | S skip' => split_loop r skip' cur (c :: b) a'
      | O =>
          match match_at r (b, a) with
          | Some (y, _) =>
              match length a - length (snd y) with
              | S m => rev cur :: split_loop r m [] (c :: b) a'
              | O => split_loop r 0 (c :: cur) (c :: b) a'
              end
          | None => split_loop r 0 (c :: cur) (c :: b) a'
          end
      end
  end.

Definition re_split (r : regex) (s : text) : list text :=
  split_loop r 0 [] [] s.

(** ** Pattern building blocks *)

Definition is_chr (c : ascii) : ascii → bool := λ x, chr_eqb x c.
Definition not_chr (c : ascii) : ascii → bool := λ x, negb (chr_eqb x c).
Definition any_of (s : string) : ascii → bool :=
  λ x, existsb (chr_eqb x) (str s).

(** [.] matches any character except a newline. *)
Definition dot : ascii → bool := not_chr newline.

Definition to_lower (c : ascii) : ascii :=
  if in_range 65 90 c then ascii_of_N (code c + 32) else c.

(** A literal character under [re.IGNORECASE]. *)
Definition is_chr_ci (c : ascii) : ascii → bool :=
  λ x, chr_eqb (to_lower x) (to_lower c).

Definition Lit (c : ascii) : regex := Cls (is_chr c).
Definition cat (rs : list regex) : regex := foldr Seq Eps rs.
Definition Lits (s : string) : regex := cat (map Lit (str s)).
Definition LitsCI (s : string) : regex := cat (map (λ c, Cls (is_chr_ci c)) (str s)).
Definition Plus (greedy : bool) (p : ascii → bool) : regex :=
  Seq (Cls p) (Star greedy p).
Definition Opt (r : regex) : regex := Alt r Eps.
Fixpoint alts (rs : list regex) : regex :=
  match rs with
  | [] => Eps
  | [r] => r
  | r :: rs' => Alt r (alts rs')
  end.

(** ** Python's [str] methods *)

Definition truthy (s : option text) : bool :=
  match s with
  | Some (_ :: _) => true
  | _ => false
  end.

Fixpoint lstrip (s : text) : text :=
  match s with
  | c :: s' => if is_space c then lstrip s' else s
  | [] => []
  end.
Definition rstrip (s : text) : text := rev (lstrip (rev s)).
Definition strip (s : text) : text := lstrip (rstrip s).

Fixpoint startswith (p s : text) : bool :=
  match p, s with
  | [], _ => true
  | c :: p', d :: s' => chr_eqb c d && startswith p' s'
  | _ :: _, [] => false
  end.

(** [p in s]. *)
Fixpoint contains (p s : text) : bool :=
  startswith p s ||
  match s with
  | [] => false
  | _ :: s' => contains p s'
  end.

(** [sep.join(parts)]. *)
Fixpoint join (sep : text) (parts : list text) : text :=
  match parts with
  | [] => []
  | [p] => p
  | p :: rest => p ++ sep ++ join sep rest
  end.

(** [s.split(sep)] for a non-empty separator; [cur] is the piece being
    read, last character first, [skip] the characters of the separator
    still to be passed over. *)
Fixpoint split_go (sep : text) (skip : nat) (cur a : text) : list text :=
  match a with
  | [] => [rev cur]
  | c :: a' =>
      match skip with
      | S skip' => split_go sep skip' cur a'
      | O =>
          if startswith sep a
          then rev cur :: split_go sep (length sep - 1) [] a'
          else split_go sep 0 (c :: cur) a'
      end
  end.

Definition split_str (sep s : text) : list text := split_go sep 0 [] s.

(** [s.split()]: the maximal runs of non-whitespace characters. *)
Fixpoint words_go (cur a : text) : list text :=
  match a with
  | [] => match cur with [] => [] | _ => [rev cur] end
  | c :: a' =>
      if is_space c
      then match cur with [] => words_go [] a' | _ => rev cur :: words_go [] a' end
      else words_go (c :: cur) a'
  end.

Definition split_ws (s : text) : list text := words_go [] s.

(** [s.partition(sep)] for a one-character separator. *)
Fixpoint partition_chr (sep : ascii) (s : text) : text * text * text :=
  match s with
  | [] => ([], [], [])
  | c :: s' =>
      if chr_eqb c sep then ([], [sep], s')
      else let '(h, m, t) := partition_chr sep s' in (c :: h, m, t)
  end.

(** [parts[0]] of a split, which is never empty. *)
Definition first_piece (parts : list text) : text := hd [] parts.

(** ** [strip_rst] *)

Definition backtick : ascii := "`".

(** Rule 1: [:(?:code|literal):`(G)`] where the group [G] is [[^`]*]. *)
Definition re_code_role : regex :=
  cat [Lit ":"; Alt (Lits "code") (Lits "literal"); Lit ":"; Lit backtick;
       Group 1 (Star true (not_chr backtick)); Lit backtick].

(** Rule 2: [:[a-z]+:`([^`]*?)\s*<[^>]+>`]. *)
Definition re_xref_role : regex :=
  cat [Lit ":"; Plus true (in_range 97 122); Lit ":"; Lit backtick;
       Group 1 (Star false (not_chr backtick)); Star true is_space;
       Lit "<"; Plus true (not_chr ">"); Lit ">"; Lit backtick].

(** Rule 3: [:[a-z]+:`~?(G)`] where the group [G] is [[^`]*]. *)
Definition re_inline_role : regex :=
  cat [Lit ":"; Plus true (in_range 97 122); Lit ":"; Lit backtick;
       Opt (Lit "~"); Group 1 (Star true (not_chr backtick)); Lit backtick].

(** [[a-z@/]] and [[\w. @+=/:-]] *)
Definition target_head (c : ascii) : bool := in_range 97 122 c || any_of "@/" c.
Definition target_char (c : ascii) : bool := is_word c || any_of ". @+=/:-" c.

(** Rule 4: [\s*<(?!https?://)HT>] where [H] is the set [[a-z@/]] and
    [T] is [[\w. @+=/:-]*]. *)
Definition re_target : regex :=
  cat [Star true is_space; Lit "<";
       NotAhead (cat [Lits "http"; Opt (Lit "s"); Lits "://"]);
       Cls target_head; Star true target_char; Lit ">"].

(** Rule 5: [``(G)``] where the group [G] is [[^`]*]. *)
Definition re_double_backtick : regex :=
  cat [Lit backtick; Lit backtick; Group 1 (Star true (not_chr backtick));
       Lit backtick; Lit backtick].

(** Rule 6: [`(G)`_] where the group [G] is [[^`]*]. *)
Definition re_ref : regex :=
  cat [Lit backtick; Group 1 (Star true (not_chr backtick)); Lit backtick; Lit "_"].

(** Rule 7: [\.\. note::]. *)
Definition re_note : regex := Lits ".. note::".

(** Rule 8: [\.\. versionadded:: (\S+)]. *)
Definition re_versionadded : regex :=
  cat [Lits ".. versionadded:: "; Group 1 (Plus true (λ c, negb (is_space c)))].

(** Rule 9: [\.\. code-block::.*]. *)
Definition re_code_block : regex :=
  cat [Lits ".. code-block::"; Star true dot].

(** Rule 10: [\|(\w+)\|]. *)
Definition re_subst : regex :=
  cat [Lit "|"; Group 1 (Plus true is_word); Lit "|"].

(** Rule 11: [(\w)::]. *)
Definition re_literal_block : regex :=
  cat [Group 1 (Cls is_word); Lit ":"; Lit ":"].

(** The eleven rewrites of [strip_rst], in the order of the source. *)
Definition rst_rules : list (regex * list tpl_item) :=
  [ (re_code_role, [TGroup 1]);
    (re_xref_role, [TGroup 1]);
    (re_inline_role, [TGroup 1]);
    (re_target, []);
    (re_double_backtick, [TGroup 1]);
    (re_ref, [TGroup 1]);
    (re_note, [TLit (str "Note:")]);
    (re_versionadded, [TLit (str "(added in "); TGroup 1; TLit (str ")")]);
    (re_code_block, []);
    (re_subst, [TGroup 1]);
    (re_literal_block, [TGroup 1; TLit (str ":")]) ].

Definition apply_rules (rules : list (regex * list tpl_item)) (s : text) : text :=
  foldl (λ acc rule, re_sub (fst rule) (snd rule) acc) s rules.

Definition strip_rst (t : option text) : text :=
  if negb (truthy t) then []
  else strip (apply_rules rst_rules (default [] t)).


(** ** [extract_values] *)

(** Pattern
    [[^.]*(?:can be|one of|valid values|set to one|allowed values)[^.]*\.]
    under [re.IGNORECASE]. *)
Definition re_trigger : regex :=
  cat [Star true (not_chr ".");
       alts [LitsCI "can be"; LitsCI "one of"; LitsCI "valid values";
             LitsCI "set to one"; LitsCI "allowed values"];
       Star true (not_chr "."); Lit "."].

(** Pattern [:opt:`(\w+)`]. *)
Definition re_opt_ref : regex :=
  cat [Lits ":opt:`"; Group 1 (Plus true is_word); Lit backtick].

(** Pattern [:code:`([^`]+)`]. *)
Definition re_code_token : regex :=
  cat [Lits ":code:`"; Group 1 (Plus true (not_chr backtick)); Lit backtick].

(** [list(dict.fromkeys(l))]: the keys of an insertion-ordered dictionary
    filled from [l]; a key that is already present keeps its place. *)
Definition fromkeys (l : list text) : list text :=
  foldl (λ d k, if bool_decide (k ∈ d) then d else d ++ [k]) [] l.

Definition two_newlines : text := [newline; newline].

Definition extract_values (opt_name : text) (t : option text) : list text :=
  if negb (truthy t) then []
  else
    let first_para := first_piece (split_str two_newlines (default [] t)) in
    match re_search re_trigger first_para with
    | None => []
    | Some sentence =>
        let other_opts := re_findall re_opt_ref sentence in
        if existsb (λ o, negb (bool_decide (o = opt_name))) other_opts then []
        else
          let values := fromkeys (re_findall re_code_token sentence) in
          if (2 <=? length values)%nat && forallb (λ v, (length v <? 30)%nat) values
          then values
          else []
    end.

(** ** [none_is_special_value] *)

(** Pattern [(?<=[.!?])\s+]. *)
Definition re_sentence_break : regex :=
  cat [Behind (any_of ".!?"); Plus true is_space].

Definition code_none : text := str ":code:`none`".

Fixpoint none_loop (opt_name : text) (sentences : list text) : bool :=
  match sentences with
  | [] => false
  | sentence :: rest =>
      if negb (contains code_none sentence) then none_loop opt_name rest
      else
        let other_opts := re_findall re_opt_ref sentence in
        if forallb (λ o, bool_decide (o = opt_name)) other_opts then true
        else none_loop opt_name rest
  end.

Definition none_is_special_value (opt_name : text) (raw_doc : option text) : bool :=
  if negb (truthy raw_doc) then false
  else none_loop opt_name (re_split re_sentence_break (default [] raw_doc)).

(** ** [is_stub_doc] *)

(** Pattern [^See\b.*?\bfor details\.?\s*]. *)
Definition re_see_details : regex :=
  cat [Bol; Lits "See"; WordB; Star false dot; WordB; Lits "for details";
       Opt (Lit "."); Star true is_space].

Definition is_stub_doc (t : option text) : bool :=
  if negb (truthy t) then false
  else
    let stripped := re_sub_count re_see_details [] (default [] t) 1 in
    (length (strip stripped) <? 20)%nat.

(** ** [parse_options_spec] *)

(** Pattern [([^.]+\.)\s]. *)
Definition re_first_sentence : regex :=
  cat [Group 1 (cat [Plus true (not_chr "."); Lit "."]); Cls is_space].

(** Pattern [^(type|default|choices|completion)=]. *)
Definition re_meta : regex :=
  cat [Bol;
       Group 1 (alts [Lits "type"; Lits "default"; Lits "choices"; Lits "completion"]);
       Lit "="].

Definition placeholder : text := str "#placeholder_for_formatting#".

Record pstate : Type := PState {
  entries : list (text * text);
  current_flags : option text;
  current_meta : gmap text text;
  current_desc_lines : list text
}.

(** [current_meta.get(key)] taken as a condition: present and non-empty. *)
Definition meta_truthy (m : gmap text text) (key : string) : bool :=
  truthy (m !! str key).

(** The description lines joined, stripped of markup, cut to the first
    paragraph and collapsed to one line. *)
Definition desc_one_line (desc_lines : list text) : text :=
  let desc := strip_rst (Some (strip (join [newline] desc_lines))) in
  let first_para :=
    if truthy (Some desc) then strip (first_piece (split_str two_newlines desc)) else [] in
  join (str " ") (split_ws first_para).

(** "Trim to first sentence if it's long". *)
Definition trim_to_first_sentence (first_para : text) : text :=
  if (120 <? length first_para)%nat then
    match re_match re_first_sentence first_para with
    | Some (_, cs) => get_group 1 cs
    | None => first_para
    end
  else first_para.

Definition flush_desc (st : pstate) : text :=
  let first_para := trim_to_first_sentence (desc_one_line (current_desc_lines st)) in
  if meta_truthy (current_meta st) "default"
  then first_para ++ str " (default: " ++ default [] (current_meta st !! str "default") ++ str ")"
  else first_para.

Definition flush_flags (st : pstate) (flags : text) : text :=
  if meta_truthy (current_meta st) "choices"
  then flags ++ str "=" ++
       join (str "|") (split_str (str ",") (default [] (current_meta st !! str "choices")))
  else if bool_decide (current_meta st !! str "type" = Some (str "list"))
  then flags ++ str " (repeatable)"
  else flags.

(** The inner function [flush]: called with no flag pending it does
    nothing, else it appends the rendered entry to [entries]. *)
Definition flush (st : pstate) : pstate :=
  match current_flags st with
  | None => st
  | Some flags =>
      PState (entries st ++ [(flush_flags st flags, flush_desc st)])
             (current_flags st) (current_meta st) (current_desc_lines st)
  end.

Definition is_flag_line (line : text) : bool := startswith (str "--") line.

Definition is_meta_line (line : text) : bool :=
  match re_match re_meta (strip line) with Some _ => true | None => false end.

(** One iteration of the loop over the lines. *)
Definition step (st : pstate) (line : text) : pstate :=
  if bool_decide (strip line = placeholder) then st
  else if is_flag_line line then
    let st' := flush st in
    PState (entries st') (Some (join (str ", ") (split_ws line))) ∅ []
  else if bool_decide (current_flags st ≠ None) && is_meta_line line then
    let '(key, _, val) := partition_chr "=" (strip line) in
    PState (entries st) (current_flags st) (<[key := val]> (current_meta st))
           (current_desc_lines st)
  else if bool_decide (current_flags st ≠ None) then
    PState (entries st) (current_flags st) (current_meta st)
           (current_desc_lines st ++ [line])
  else st.

Definition init_state : pstate := PState [] None ∅ [].

Definition parse_lines (lines : list text) : list (text * text) :=
  entries (flush (foldl step init_state lines)).

Definition parse_options_spec (spec : option text) : list (text * text) :=
  if negb (truthy spec) then []
  else parse_lines (split_str [newline] (default [] spec)).

(** ** [format_flags_doc] *)

Definition format_flags_doc (es : list (text * text)) : text :=
  join [newline]
    (concat (map (λ e : text * text,
                    (str "  " ++ fst e) ::
                    (if truthy (Some (snd e)) then [str "    " ++ snd e] else []))
                 es)).

(** ** [enrich_stub_actions] *)

Inductive exn : Type := ImportError | KeyError | IndexError | OtherException.

Inductive result (A : Type) : Type :=
  | Ok (a : A)
  | Raise (e : exn).
Arguments Ok {A} a.
Arguments Raise {A} e.

(** A record of [action_map]. *)
Record action : Type := Action {
  name : text;
  short : text;
  doc : text
}.

Definition set_doc (a : action) (d : text) : action := Action (name a) (short a) d.
Definition set_short (a : action) (s : text) : action := Action (name a) s (doc a).

(** The collaborators that [enrich_stub_actions] reaches for:
    - [launch_options_spec]: what importing [kitty.launch.options_spec]
      and calling it gives, a spec or an exception;
    - [shortcut_map]: the items of [definition.shortcut_map], each name
      with the [long_text] of its mappings;
    - [rc_import]: what importing [command_for_name] from
      [kitty.rc.base] gives, the lookup function or an exception; the
      lookup gives the [desc] of the command or raises. *)
Record sources : Type := Sources {
  launch_options_spec : result (option text);
  shortcut_map : list (text * list (option text));
  rc_import : result (text → result (option text))
}.

(** The block on [launch]; every exception of its body is caught. *)
Definition enrich_launch (src : sources) (am : gmap text action) : gmap text action :=
  match am !! str "launch" with
  | Some a =>
      if is_stub_doc (Some (doc a)) then
        match launch_options_spec src with
        | Ok spec =>
            let es := parse_options_spec spec in
            match es with
            | [] => am
            | _ => <[str "launch" := set_doc a (str "Flags:" ++ [newline] ++ format_flags_doc es)]> am
            end
        | Raise _ => am
        end
      else am
  | None => am
  end.

(** One iteration of the loop over [shortcut_map]; [mappings[0]] raises
    [IndexError] on an empty list. *)
Definition shortcut_step (am : gmap text action) (item : text * list (option text))
    : result (gmap text action) :=
  let '(nm, mappings) := item in
  match am !! nm with
  | Some a =>
      if is_stub_doc (Some (doc a)) then
        match mappings with
        | [] => Raise IndexError
        | long_text :: _ =>
            if truthy long_text && negb (is_stub_doc long_text)
            then Ok (<[nm := set_doc a (strip_rst long_text)]> am)
            else Ok am
        end
      else Ok am
  | None => Ok am
  end.

Fixpoint enrich_shortcuts (items : list (text * list (option text)))
    (am : gmap text action) : result (gmap text action) :=
  match items with
  | [] => Ok am
  | item :: rest =>
      match shortcut_step am item with
      | Ok am' => enrich_shortcuts rest am'
      | Raise e => Raise e
      end
  end.

(** [rc_name_map.get(name, name)]. *)
Definition rc_name_map : gmap text text :=
  <[str "disable_ligatures_in" := str "disable_ligatures"]>
  (<[str "start_resizing_window" := str "resize_window"]> ∅).

Definition rc_name (nm : text) : text := default nm (rc_name_map !! nm).

(** The body of the loop over the records; an exception of the lookup is
    caught and leaves the record as it is. *)
Definition rc_entry (command_for_name : text → result (option text))
    (nm : text) (a : action) : action :=
  if negb (is_stub_doc (Some (doc a))) then a
  else
    match command_for_name (rc_name nm) with
    | Ok desc => set_doc a (strip_rst desc)
    | Raise _ => a
    end.

(** The import of [command_for_name] catches [ImportError] only. *)
Definition enrich_rc (src : sources) (am : gmap text action) : result (gmap text action) :=
  match rc_import src with
  | Raise ImportError => Ok am
  | Raise e => Raise e
  | Ok command_for_name => Ok (map_imap (λ nm a, Some (rc_entry command_for_name nm a)) am)
  end.

(** Pattern [\.?\s*See\s+.+$]. *)
Definition see_re : regex :=
  cat [Opt (Lit "."); Star true is_space; Lits "See"; Plus true is_space;
       Plus true dot; Eol].

(** Pattern [^See\b]. *)
Definition re_see_start : regex := cat [Bol; Lits "See"; WordB].

Definition strip_see_short (s : text) : text := strip (re_sub see_re [] s).

Definition strip_see_doc (d : text) : text :=
  if truthy (Some d) &&
     match re_match re_see_start d with Some _ => true | None => false end
  then strip (re_sub_count re_see_details [] d 1)
  else d.

(** The body of the last loop. *)
Definition strip_see (a : action) : action :=
  Action (name a) (strip_see_short (short a)) (strip_see_doc (doc a)).

Definition enrich_stub_actions (src : sources) (action_map : gmap text action)
    : result (gmap text action) :=
  let am1 := enrich_launch src action_map in
  match enrich_shortcuts (shortcut_map src) am1 with
  | Raise e => Raise e
  | Ok am2 =>
      match enrich_rc src am2 with
      | Raise e => Raise e
      | Ok am3 => Ok (strip_see <$> am3)
      end
  end.


(** * Notions used in the statements *)

(** All 256 characters. *)
Definition all_chars : list ascii := map ascii_of_nat (seq 0 256).

(** [needs c r]: every text that [r] matches contains the character [c]
    (a sufficient syntactic check). *)
Fixpoint needs (c : ascii) (r : regex) : bool :=
  match r with
  | Cls p => forallb (λ x, implb (p x) (chr_eqb x c)) all_chars
  | Seq r1 r2 => needs c r1 || needs c r2
  | Alt r1 r2 => needs c r1 && needs c r2
  | Group _ r1 => needs c r1
  | _ => false
  end.

(** Text that holds none of the marks of the markup dialect: no backtick,
    no [<], no [|] and no [::]. *)
Definition is_plain (t : text) : bool :=
  negb (existsb (any_of "`<|") t) && negb (contains (str "::") t).

(** Text without whitespace at either end. *)
Definition is_trimmed (t : text) : bool := bool_decide (strip t = t).

(** A target that starts with [http://] or [https://]. *)
Definition is_url (t : text) : bool :=
  startswith (str "http://") t || startswith (str "https://") t.

(** Deduplication that keeps the first occurrence of every element, in
    the order of those first occurrences. *)
Fixpoint first_seen (l : list text) : list text :=
  match l with
  | [] => []
  | x :: l' => x :: filter (λ y, y ≠ x) (first_seen l')
  end.

(** The first paragraph of a text. *)
Definition first_paragraph (t : text) : text :=
  first_piece (split_str two_newlines t).

(** The verbatim-code tokens and the option cross-references of a text. *)
Definition code_tokens (s : text) : list text := re_findall re_code_token s.
Definition opt_refs (s : text) : list text := re_findall re_opt_ref s.

(** The sentence holds the verbatim-code token [none]. *)
Definition mentions_none (s : text) : Prop :=
  ∃ u v, s = u ++ str ":code:`none`" ++ v.

(** [after w x y]: position [y] is position [x] moved forward over [w]. *)
Definition after (w : text) (x y : pos) : Prop :=
  snd x = w ++ snd y ∧ fst y = rev w ++ fst x.

(** The head of a text is outside the set [p]. *)
Definition stops (p : ascii → bool) (a : text) : Prop :=
  match a with
  | c :: _ => p c = false
  | [] => True
  end.

(** The head of a text is not whitespace. *)
Definition head_ok (s : text) : Prop :=
  match s with
  | [] => True
  | c :: _ => is_space c = false
  end.

(** The lines of a spec as [parse_options_spec] reads them. *)
Definition spec_lines (spec : option text) : list text :=
  match spec with
  | Some s => split_str [newline] s
  | None => []
  end.

(** A line that is skipped or read as metadata once a flag is pending:
    it adds nothing to the description. *)
Definition no_desc_line (line : text) : Prop :=
  strip line = placeholder ∨ (is_flag_line line = false ∧ is_meta_line line = true).


(** One if a flag is pending, zero if not. *)
Definition pending (st : pstate) : nat :=
  match current_flags st with Some _ => 1 | None => 0 end.

(** The state [st] with the entries [es] put before its own. *)
Definition with_entries (es : list (text * text)) (st : pstate) : pstate :=
  PState (es ++ entries st) (current_flags st) (current_meta st)
         (current_desc_lines st).

(** The synonym list of a flag line: its words joined by [", "]. *)
Definition flag_names (line : text) : text := join (str ", ") (split_ws line).

(** The pending flag of a state, as a list. *)
Definition pending_names (st : pstate) : list text :=
  match current_flags st with Some c => [c] | None => [] end.

(** The signature of an entry starts with the given synonym list. *)
Definition renders (e : text * text) (names : text) : Prop :=
  ∃ suffix, fst e = names ++ suffix.



(** Text without any whitespace character. *)
Definition no_space (s : text) : Prop := ∀ c, c ∈ s → is_space c = false.

(** The text that [is_stub_doc] measures: the argument with one leading
    [See ... for details] clause removed. *)
Definition remove_see_details (t : text) : text :=
  re_sub_count re_see_details [] t 1.

(** Two action maps have the same records up to their [doc] fields. *)
Definition same_but_doc (am am' : gmap text action) : Prop :=
  ∀ nm, option_Forall2 (λ a a', name a' = name a ∧ short a' = short a)
          (am !! nm) (am' !! nm).

(** The clause that the last loop of [enrich_stub_actions] removes from
    [short]: an optional period and whitespace, [See], whitespace, and
    text without a line break. *)
Definition see_clause (c : text) : Prop :=
  ∃ d w ws X,
    c = d ++ w ++ str "See" ++ ws ++ X
    ∧ (d = [] ∨ d = ["."]) ∧ forallb is_space w = true
    ∧ ws ≠ [] ∧ forallb is_space ws = true
    ∧ X ≠ [] ∧ forallb dot X = true.

(** The records with a real [doc] stay as they are. *)
Definition keeps_real_docs (am am' : gmap text action) : Prop :=
  ∀ nm a, am !! nm = Some a → is_stub_doc (Some (doc a)) = false →
          am' !! nm = Some a.

(** Text without a line break. *)
Definition one_line (s : text) : Prop := newline ∉ s.

(** The lines that [format_flags_doc] writes for an entry: the signature
    after two spaces and, when the description is not empty, the
    description after four. *)
Definition entry_lines (e : text * text) : list text :=
  (str "  " ++ fst e) :: (if truthy (Some (snd e)) then [str "    " ++ snd e] else []).

(** The invariant of the loop of [parse_options_spec]: the entries, the
    pending synonym list and the values of the metadata are single
    lines. *)
Definition lines_inv (st : pstate) : Prop :=
  Forall (λ e : text * text, one_line (fst e) ∧ one_line (snd e)) (entries st)
  ∧ (∀ f, current_flags st = Some f → one_line f)
  ∧ (∀ k v, current_meta st !! k = Some v → one_line v).

(** [[a-z]]. *)
Definition is_lower (c : ascii) : bool := in_range 97 122 c.

(** A text without its leading [~], if it has one. *)
Definition without_tilde (s : text) : text :=
  match s with
  | "~" :: s' => s'
  | _ => s
  end.

(** What is left of [:role:`body`]: the body, for the roles other than
    [code] and [literal] without a leading [~]. *)
Definition role_display (role body : text) : text :=
  if bool_decide (role = str "code" ∨ role = str "literal") then body
  else without_tilde body.

(** ** Paragraphs, trigger sentences and marked pieces *)

(** [x] is the character [c], or the upper-case form of the lower-case
    letter [c]. *)
Definition same_letter (x c : ascii) : Prop :=
  x = c ∨ (is_lower c = true ∧ (code x + 32)%N = code c).

Definition same_letterb (x c : ascii) : bool :=
  chr_eqb x c || (is_lower c && (code x + 32 =? code c)%N).

(** [w] reads as [phrase] when the case of the letters is ignored. *)
Definition reads (w : text) (phrase : string) : Prop :=
  Forall2 same_letter w (str phrase).

(** The phrases that announce an enumeration of values. *)
Definition trigger_phrases : list string :=
  ["can be"; "one of"; "valid values"; "set to one"; "allowed values"]%string.

(** The text holds one of the trigger phrases. *)
Definition has_trigger (s : text) : Prop :=
  ∃ p u w v, p ∈ trigger_phrases ∧ s = u ++ w ++ v ∧ reads w p.

(** A text that ends a sentence, or the empty text: a sentence can start
    after it. *)
Definition sentence_start (A : text) : Prop := A = [] ∨ ∃ A', A = A' ++ ["."].

(** Two line breaks in a row stand in the text. *)
Definition has_blank_line (t : text) : Prop :=
  ∃ u v, t = u ++ [newline; newline] ++ v.

(** [P] is the first paragraph of [s]: all of [s] when it holds no blank
    line, else what stands before the first blank line. *)
Definition is_first_paragraph (s P : text) : Prop :=
  (s = P ∧ ¬ has_blank_line P)
  ∨ (∃ rest, s = P ++ [newline; newline] ++ rest
             ∧ ¬ has_blank_line (P ++ [newline])).

(** [S] and the period after it are the first sentence of [P] that holds
    a trigger phrase: [S] has no period, it starts [P] or follows a
    period, and no trigger phrase stands before it. *)
Definition trigger_sentence (P A S B : text) : Prop :=
  P = A ++ S ++ "." :: B ∧ sentence_start A ∧ ("." ∉ S) ∧ has_trigger S
  ∧ ¬ has_trigger A.

(** No text of [P] that a period ends holds a trigger phrase. *)
Definition no_trigger_sentence (P : text) : Prop :=
  ∀ A S B, P = A ++ S ++ "." :: B → "." ∉ S → ¬ has_trigger S.

(** The shape of the patterns [:code:`([^`]+)`] and [:opt:`(\w+)`]. *)
Definition piece_re (open : string) (p : ascii → bool) : regex :=
  cat [Lits open; Group 1 (Plus true p); Lit backtick].

(** [x] starts with a piece: [open], a non-empty run of [p] and a
    backtick. *)
Definition piece_at (open : text) (p : ascii → bool) (x : text) : Prop :=
  ∃ g rest, x = open ++ g ++ backtick :: rest ∧ g ≠ [] ∧ forallb p g = true.

(** [marked open p s l]: [l] lists the bodies of the pieces of [s] from
    left to right, each piece being the first one that starts after the
    end of the piece before it. *)
Inductive marked (open : text) (p : ascii → bool) : text → list text → Prop :=
  | marked_nil s :
      (∀ u v, s = u ++ v → ¬ piece_at open p v) → marked open p s []
  | marked_cons u g v l :
      g ≠ [] → forallb p g = true →
      (∀ u1 u2, u = u1 ++ u2 → u2 ≠ [] →
         ¬ piece_at open p (u2 ++ open ++ g ++ backtick :: v)) →
      marked open p v l →
      marked open p (u ++ open ++ g ++ backtick :: v) (g :: l).

(** [open] starts at no place of [u], read before [rest]. *)
Fixpoint starts_nowhere (open u rest : text) : bool :=
  match u with
  | [] => true
  | _ :: u' => negb (startswith open (u ++ rest)) && starts_nowhere open u' rest
  end.

(** ** Sentences *)

(** Terminal punctuation. *)
Definition terminal (c : ascii) : Prop := c = "." ∨ c = "!" ∨ c = "?".

Definition terminalb (c : ascii) : bool :=
  chr_eqb c "." || chr_eqb c "!" || chr_eqb c "?".

(** No whitespace stands directly after terminal punctuation in [s]. *)
Definition no_break (s : text) : Prop :=
  ∀ u c d v, s = u ++ c :: d :: v → terminal c → is_space d = false.

Fixpoint no_breakb (s : text) : bool :=
  match s with
  | c :: s' =>
      match s' with
      | d :: _ => negb (terminalb c && is_space d) && no_breakb s'
      | [] => true
      end
  | [] => true
  end.

(** [split_sentences s l]: [l] lists the sentences of [s]; a sentence ends
    with a terminal punctuation mark that whitespace follows, and the whole
    run of whitespace after it belongs to no sentence. *)
Inductive split_sentences : text → list text → Prop :=
  | sentences_last s : no_break s → split_sentences s [s]
  | sentences_cons u c ws v l :
      no_break (u ++ [c]) → terminal c →
      ws ≠ [] → forallb is_space ws = true → stops is_space v →
      split_sentences v l →
      split_sentences (u ++ c :: ws ++ v) ((u ++ [c]) :: l).

(** ** The [See ... for details] clause *)

Definition for_details : text := str "for details".

(** What stands between [See] and [for details]: text on one line that
    starts and ends with a character that is not a word character. *)
Definition details_gap (mid : text) : Prop :=
  (newline ∉ mid)
  ∧ (∃ c m, mid = c :: m ∧ is_word c = false)
  ∧ (∃ m c, mid = m ++ [c] ∧ is_word c = false).

(** [for details] does not start earlier, after a character of [mid]
    that is not a word character. *)
Definition first_details (mid : text) : Prop :=
  ∀ m1 c m2 x, mid = m1 ++ c :: m2 → m2 ≠ [] → is_word c = false →
               m2 ++ for_details ≠ for_details ++ x.

(** The end of the clause: a period, if one follows, and the whitespace
    after it. *)
Definition clause_end (d w rest : text) : Prop :=
  (d = ["."] ∨ (d = [] ∧ stops (is_chr ".") (w ++ rest)))
  ∧ forallb is_space w = true ∧ stops is_space rest.

(** ** The trailing [See X] clause of a summary *)

(** A text without its last character, if that is a period. *)
Definition cut_period (s : text) : text :=
  match rev s with
  | "." :: r => rev r
  | _ => s
  end.

(** The end of the field: nothing, or one line break. *)
Definition field_end (tail : text) : Prop := tail = [] ∨ tail = [newline].

(** A reference that closes the field: [See], whitespace, and text
    without a line break that runs to the end of the field. *)
Definition see_tail (t : text) : Prop :=
  ∃ ws X tail,
    t = str "See" ++ ws ++ X ++ tail
    ∧ ws ≠ [] ∧ forallb is_space ws = true
    ∧ X ≠ [] ∧ forallb dot X = true ∧ field_end tail.

(** * Properties of the matcher *)

Section MatcherFacts.


Lemma after_nil x : after [] x x.
Proof. by split. Qed.

Lemma after_trans w1 w2 x y z :
  after w1 x y → after w2 y z → after (w1 ++ w2) x z.
Proof.
  intros [H1 H2] [H3 H4]. split.
  - rewrite H1, H3. by rewrite <- app_assoc.
  - rewrite H4, H2, rev_app_distr. by rewrite <- app_assoc.
Qed.

Lemma star_greedy_inv {R} p (k : pos → option R) b a r :
  star_greedy p k b a = Some r →
  ∃ w a', a = w ++ a' ∧ forallb p w = true ∧ k (rev w ++ b, a') = Some r.
Proof.
  revert b. induction a as [|c a IH]; intros b H; simpl in H.
  - exists [], []. by repeat split.
  - destruct (p c) eqn:Hp.
    + destruct (star_greedy p k (c :: b) a) eqn:Hs.
      * inversion H; subst. destruct (IH _ Hs) as (w & a' & -> & Hw & Hk).
        exists (c :: w), a'. simpl. rewrite Hp, Hw. repeat split.
        by rewrite <- app_assoc.
      * exists [], (c :: a). by repeat split.
    + exists [], (c :: a). by repeat split.
Qed.

Lemma star_lazy_inv {R} p (k : pos → option R) b a r :
  star_lazy p k b a = Some r →
  ∃ w a', a = w ++ a' ∧ forallb p w = true ∧ k (rev w ++ b, a') = Some r.
Proof.
  revert b. induction a as [|c a IH]; intros b H; simpl in H.
  - destruct (k (b, [])) eqn:Hk; [|done]. simplify_eq.
    exists [], []. by repeat split.
  - destruct (k (b, c :: a)) eqn:Hk.
    + simplify_eq. exists [], (c :: a). by repeat split.
    + destruct (p c) eqn:Hp; [|done].
      destruct (IH _ H) as (w & a' & -> & Hw & Hk').
      exists (c :: w), a'. simpl. rewrite Hp, Hw. repeat split.
      by rewrite <- app_assoc.
Qed.

Lemma exec_Star_inv g p b a cs k res :
  exec (Star g p) (b, a) cs k = Some res →
  ∃ w a', a = w ++ a' ∧ forallb p w = true ∧ k (rev w ++ b, a') cs = Some res.
Proof.
  destruct g; simpl; intros H.
  - by apply star_greedy_inv in H.
  - by apply star_lazy_inv in H.
Qed.

Lemma exec_Cls_inv p b a cs k res :
  exec (Cls p) (b, a) cs k = Some res →
  ∃ c a', a = c :: a' ∧ p c = true ∧ k (c :: b, a') cs = Some res.
Proof.
  simpl. destruct a as [|c a']; [done|]. destruct (p c) eqn:Hp; [|done].
  intros H. by exists c, a'.
Qed.

Lemma exec_Alt_inv r1 r2 x cs k res :
  exec (Alt r1 r2) x cs k = Some res →
  exec r1 x cs k = Some res ∨ exec r2 x cs k = Some res.
Proof.
  simpl. destruct (exec r1 x cs k); intros H; [left|right]; done.
Qed.

(** Whatever a pattern matches, the continuation is entered at a
    position further on in the same subject. *)
Lemma exec_sound r : ∀ x cs k res,
  exec r x cs k = Some res →
  ∃ w y cs', after w x y ∧ k y cs' = Some res.
Proof.
  induction r as [|p|r1 IH1 r2 IH2|r1 IH1 r2 IH2|g p|n r IH| | | |r IH|p];
    intros [b a] cs k res H.
  - exists [], (b, a), cs. split; [apply after_nil|done].
  - apply exec_Cls_inv in H as (c & a' & -> & _ & Hk).
    exists [c], (c :: b, a'), cs. by repeat split.
  - simpl in H. apply IH1 in H as (w1 & y & cs1 & Ha1 & H).
    simpl in H. apply IH2 in H as (w2 & z & cs2 & Ha2 & H).
    exists (w1 ++ w2), z, cs2. split; [by eapply after_trans|done].
  - apply exec_Alt_inv in H as [H|H]; [by eapply IH1|by eapply IH2].
  - apply exec_Star_inv in H as (w & a' & -> & _ & Hk).
    exists w, (rev w ++ b, a'), cs. by repeat split.
  - simpl in H. apply IH in H as (w & y & cs1 & Ha & H). by eexists w, y, _.
  - simpl in H. destruct b; [|done]. exists [], ([], a), cs. by repeat split.
  - simpl in H. destruct (at_eol (b, a)); [|done].
    exists [], (b, a), cs. by repeat split.
  - simpl in H. destruct (at_word_boundary (b, a)); [|done].
    exists [], (b, a), cs. by repeat split.
  - simpl in H. destruct (exec r (b, a) cs _); [done|].
    exists [], (b, a), cs. by repeat split.
  - simpl in H. destruct b as [|c b]; [done|]. destruct (p c); [|done].
    exists [], (c :: b, a), cs. by repeat split.
Qed.

Lemma match_at_sound r x y cs :
  match_at r x = Some (y, cs) → ∃ w, after w x y.
Proof.
  intros H. apply exec_sound in H as (w & y' & cs' & Ha & Hk).
  inversion Hk; subst. by exists w.
Qed.

(** A match never moves backwards: what is left is a suffix. *)
Lemma match_at_length r b a y cs :
  match_at r (b, a) = Some (y, cs) → length (snd y) ≤ length a.
Proof.
  intros H. apply match_at_sound in H as (w & Ha & _). simpl in Ha.
  rewrite Ha, length_app. lia.
Qed.

(** If the continuation refuses every position further on, the match fails. *)
Lemma exec_fail r x cs k :
  (∀ w y cs', after w x y → k y cs' = None) → exec r x cs k = None.
Proof.
  intros Hk. destruct (exec r x cs k) as [res|] eqn:H; [|done].
  apply exec_sound in H as (w & y & cs' & Ha & H'). by rewrite (Hk _ _ _ Ha) in H'.
Qed.

End MatcherFacts.

(** * The substitution loop *)

Section SubLoop.
Variables (r : regex) (tpl : list tpl_item) (count : nat).

Lemma sub_loop_skip n w : ∀ b a,
  sub_loop r tpl count n (length w) b (w ++ a)
  = sub_loop r tpl count n 0 (rev w ++ b) a.
Proof.
  induction w as [|c w IH]; intros b a; simpl.
  - by destruct a.
  - rewrite IH. by rewrite <- app_assoc.
Qed.

Lemma sub_loop_done n b a :
  may_replace count n = false → sub_loop r tpl count n 0 b a = a.
Proof.
  intros Hn. revert b. induction a as [|c a IH]; intros b; simpl; [done|].
  by rewrite Hn, IH.
Qed.

Lemma sub_loop_nomatch n u : ∀ b a,
  (∀ u1 u2, u = u1 ++ u2 → u2 ≠ [] →
     match_at r (rev u1 ++ b, u2 ++ a) = None) →
  sub_loop r tpl count n 0 b (u ++ a)
  = u ++ sub_loop r tpl count n 0 (rev u ++ b) a.
Proof.
  induction u as [|c u IH]; intros b a H; [done|].
  change ((c :: u) ++ a) with (c :: (u ++ a)).
  cbn [sub_loop].
  pose proof (H [] (c :: u) eq_refl ltac:(done)) as H0. simpl in H0.
  rewrite H0.
  assert (Hrec : sub_loop r tpl count n 0 (c :: b) (u ++ a)
                 = u ++ sub_loop r tpl count n 0 (rev (c :: u) ++ b) a).
  { rewrite IH.
    - simpl. by rewrite <- app_assoc.
    - intros u1 u2 -> Hne.
      specialize (H (c :: u1) u2 eq_refl Hne). simpl in H.
      by rewrite <- app_assoc in H. }
  rewrite Hrec. by destruct (may_replace count n).
Qed.

Lemma sub_loop_match n b m a y cs :
  may_replace count n = true → m ≠ [] →
  match_at r (b, m ++ a) = Some (y, cs) → snd y = a →
  sub_loop r tpl count n 0 b (m ++ a)
  = expand tpl cs ++ sub_loop r tpl count (S n) 0 (rev m ++ b) a.
Proof.
  intros Hn Hm H Hy. destruct m as [|c m]; [done|].
  change ((c :: m) ++ a) with (c :: (m ++ a)) in *.
  cbn [sub_loop]. rewrite Hn, H, Hy.
  replace (length (c :: m ++ a) - length a) with (S (length m))
    by (simpl; rewrite length_app; lia).
  rewrite sub_loop_skip. simpl. by rewrite <- app_assoc.
Qed.
End SubLoop.

(** Where a pattern matches nowhere, [re.sub] returns its subject. *)
Lemma re_sub_nomatch r tpl a :
  (∀ u v, a = u ++ v → match_at r (rev u, v) = None) →
  re_sub r tpl a = a.
Proof.
  intros H. unfold re_sub, re_sub_count.
  rewrite <- (app_nil_r a) at 1. rewrite sub_loop_nomatch.
  - simpl. by rewrite app_nil_r.
  - intros u1 u2 -> _. rewrite !app_nil_r. by apply H.
Qed.

(** * Literals and character sets *)

Lemma chr_eqb_eq a b : chr_eqb a b = true ↔ a = b.
Proof. apply Ascii.eqb_eq. Qed.

Lemma chr_eqb_refl a : chr_eqb a a = true.
Proof. by apply chr_eqb_eq. Qed.

Lemma chr_eqb_neq a b : chr_eqb a b = false ↔ a ≠ b.
Proof. apply Ascii.eqb_neq. Qed.

Lemma is_chr_eq c x : is_chr c x = true ↔ x = c.
Proof. apply chr_eqb_eq. Qed.

Lemma not_chr_neq c x : not_chr c x = true ↔ x ≠ c.
Proof. unfold not_chr. rewrite negb_true_iff. apply chr_eqb_neq. Qed.

Lemma startswith_app w a : startswith w (w ++ a) = true.
Proof. induction w as [|c w IH]; simpl; [done|]. by rewrite chr_eqb_refl. Qed.

Lemma startswith_inv w a : startswith w a = true → ∃ a', a = w ++ a'.
Proof.
  revert a. induction w as [|c w IH]; intros a H; simpl in H.
  - by exists a.
  - destruct a as [|d a]; [done|]. apply andb_true_iff in H as [Hc Hw].
    apply chr_eqb_eq in Hc as ->. destruct (IH _ Hw) as [a' ->]. by exists a'.
Qed.

Lemma exec_lits_inv w : ∀ b a cs k res,
  exec (cat (map Lit w)) (b, a) cs k = Some res →
  ∃ a', a = w ++ a' ∧ k (rev w ++ b, a') cs = Some res.
Proof.
  induction w as [|c w IH]; intros b a cs k res H; simpl in H.
  - by exists a.
  - destruct a as [|d a]; [done|]. destruct (is_chr c d) eqn:Hd; [|done].
    apply is_chr_eq in Hd as ->. apply IH in H as (a' & -> & Hk).
    exists a'. split; [done|]. simpl. by rewrite <- app_assoc.
Qed.

Lemma exec_lits_app w : ∀ b a cs k,
  exec (cat (map Lit w)) (b, w ++ a) cs k = k (rev w ++ b, a) cs.
Proof.
  induction w as [|c w IH]; intros b a cs k; simpl; [done|].
  unfold is_chr at 1. rewrite chr_eqb_refl, IH. simpl. by rewrite <- app_assoc.
Qed.

Lemma all_chars_complete x : x ∈ all_chars.
Proof.
  unfold all_chars. rewrite <- (ascii_nat_embedding x).
  apply list_elem_of_fmap_2. apply elem_of_seq.
  pose proof (nat_ascii_bounded x). lia.
Qed.

Lemma needs_sound c r : ∀ b a cs k,
  needs c r = true → c ∉ a → exec r (b, a) cs k = None.
Proof.
  induction r as [|p|r1 IH1 r2 IH2|r1 IH1 r2 IH2|g p|n r IH| | | |r IH|p];
    intros b a cs k Hn Hc; try done.
  - cbn [needs] in Hn. cbn [exec snd fst].
    destruct a as [|x a]; [done|]. destruct (p x) eqn:Hp; [|done].
    rewrite forallb_forall in Hn.
    assert (Hx : chr_eqb x c = true).
    { specialize (Hn x ltac:(apply list_elem_of_In, all_chars_complete)).
      by rewrite Hp in Hn. }
    apply chr_eqb_eq in Hx as ->. exfalso. apply Hc. left.
  - cbn [needs] in Hn. apply orb_true_iff in Hn as [Hn|Hn].
    + by apply IH1.
    + cbn [exec]. apply exec_fail. intros w [b' a'] cs' [Ha _]. simpl in Ha.
      apply IH2; [done|]. intros Hin. apply Hc. rewrite Ha.
      apply elem_of_app. by right.
  - cbn [needs] in Hn. apply andb_true_iff in Hn as [Hn1 Hn2].
    cbn [exec]. by rewrite IH1, IH2.
  - cbn [exec]. by apply IH.
Qed.

(** * Greedy repetition *)


Lemma star_greedy_max {R} p (k : pos → option R) w : ∀ b a r,
  forallb p w = true → stops p a → k (rev w ++ b, a) = Some r →
  star_greedy p k b (w ++ a) = Some r.
Proof.
  induction w as [|c w IH]; intros b a r Hw Ha Hk.
  - destruct a as [|c a]; simpl in *; [done|]. by rewrite Ha.
  - simpl in Hw. apply andb_true_iff in Hw as [Hc Hw].
    simpl. rewrite Hc. rewrite (IH (c :: b) a r); [done|done|done|].
    simpl in Hk. by rewrite <- app_assoc in Hk.
Qed.

Lemma lstrip_spaces w a : forallb is_space w = true → lstrip (w ++ a) = lstrip a.
Proof.
  induction w as [|c w IH]; simpl; [done|].
  intros H. apply andb_true_iff in H as [-> H]. by apply IH.
Qed.

Lemma lstrip_split_aux s : ∃ u, s = u ++ lstrip s ∧ forallb is_space u = true.
Proof.
  induction s as [|c s (u & Hu & Hs)]; simpl.
  - by exists [].
  - destruct (is_space c) eqn:Hc.
    + exists (c :: u). simpl. rewrite Hc, Hs. split; [by f_equal|done].
    + by exists [].
Qed.

Lemma lstrip_nil s : lstrip s = [] → forallb is_space s = true.
Proof.
  intros H. destruct (lstrip_split_aux s) as (u & Hu & Hs).
  rewrite H, app_nil_r in Hu. by subst.
Qed.

(** * Python's string methods *)

Lemma contains_spec w s :
  contains w s = true ↔ ∃ u v, s = u ++ w ++ v.
Proof.
  split.
  - induction s as [|c s IH]; simpl; intros H.
    + rewrite orb_false_r in H. apply startswith_inv in H as [v Hv].
      by exists [], v.
    + apply orb_true_iff in H as [H|H].
      * apply startswith_inv in H as [v Hv]. by exists [], v.
      * destruct (IH H) as (u & v & ->). by exists (c :: u), v.
  - intros (u & v & ->). induction u as [|c u IH]; simpl.
    + pose proof (startswith_app w v) as Hs.
      destruct (w ++ v); simpl; by rewrite Hs.
    + by rewrite IH, orb_true_r.
Qed.

Lemma contains_false_app w u v :
  contains w (u ++ v) = false → contains w u = false ∧ contains w v = false.
Proof.
  intros H. split.
  - destruct (contains w u) eqn:Hu; [|done].
    apply contains_spec in Hu as (u1 & u2 & ->).
    rewrite <- H. symmetry. apply contains_spec. exists u1, (u2 ++ v).
    by rewrite <- !app_assoc.
  - destruct (contains w v) eqn:Hv; [|done].
    apply contains_spec in Hv as (v1 & v2 & ->).
    rewrite <- H. symmetry. apply contains_spec. exists (u ++ v1), v2.
    by rewrite <- !app_assoc.
Qed.


Lemma lstrip_fix s : head_ok s → lstrip s = s.
Proof. destruct s as [|c s]; simpl; [done|]. by intros ->. Qed.

Lemma lstrip_head_ok s : head_ok (lstrip s).
Proof.
  induction s as [|c s IH]; simpl; [done|].
  destruct (is_space c) eqn:Hc; [done|]. by simpl.
Qed.

Lemma lstrip_split s : ∃ u, s = u ++ lstrip s ∧ forallb is_space u = true.
Proof. apply lstrip_split_aux. Qed.

Lemma rstrip_split s : ∃ v, s = rstrip s ++ v ∧ forallb is_space v = true.
Proof.
  unfold rstrip. destruct (lstrip_split (rev s)) as (u & Hu & Hs).
  exists (rev u). split.
  - rewrite <- rev_app_distr, <- Hu. by rewrite rev_involutive.
  - rewrite forallb_forall in *. intros x Hx. apply Hs. by apply in_rev.
Qed.

Lemma lstrip_idem s : lstrip (lstrip s) = lstrip s.
Proof. apply lstrip_fix, lstrip_head_ok. Qed.

Lemma rstrip_idem s : rstrip (rstrip s) = rstrip s.
Proof. unfold rstrip. by rewrite rev_involutive, lstrip_idem. Qed.

Lemma head_ok_app_l u v : u ≠ [] → head_ok (u ++ v) → head_ok u.
Proof. by destruct u. Qed.

(** Trimming the left end keeps the right end trimmed. *)
Lemma rstrip_lstrip_fix y : rstrip y = y → rstrip (lstrip y) = lstrip y.
Proof.
  intros Hy. destruct (lstrip_split y) as (u & Hu & _).
  destruct (lstrip y) as [|c z] eqn:Hz; [done|].
  unfold rstrip. rewrite (lstrip_fix (rev (c :: z))); [by rewrite rev_involutive|].
  assert (Hrev : head_ok (rev y)).
  { unfold rstrip in Hy. rewrite <- Hy at 1. rewrite rev_involutive.
    apply lstrip_head_ok. }
  rewrite Hu, rev_app_distr in Hrev.
  apply head_ok_app_l in Hrev; [done|].
  intros Hnil. apply (f_equal (@length _)) in Hnil.
  rewrite length_rev in Hnil. done.
Qed.

Lemma strip_idem s : strip (strip s) = strip s.
Proof.
  unfold strip. rewrite (rstrip_lstrip_fix (rstrip s)) by apply rstrip_idem.
  apply lstrip_idem.
Qed.

Lemma strip_rstrip s : strip (rstrip s) = strip s.
Proof. unfold strip. by rewrite rstrip_idem. Qed.

(** What [strip] returns lies inside its argument. *)
Lemma strip_split s : ∃ u v, s = u ++ strip s ++ v.
Proof.
  destruct (rstrip_split s) as (v & Hv & _).
  destruct (lstrip_split (rstrip s)) as (u & Hu & _).
  exists u, v. unfold strip. rewrite app_assoc, <- Hu. done.
Qed.

(** * Plain text *)

Lemma any_of_marks c :
  any_of "`<|" c = false ↔ c ≠ backtick ∧ c ≠ "<" ∧ c ≠ "|".
Proof.
  unfold any_of. simpl. rewrite !orb_false_iff, !chr_eqb_neq. tauto.
Qed.

Lemma is_plain_spec t :
  is_plain t = true ↔
  (backtick ∉ t) ∧ ("<" ∉ t) ∧ ("|" ∉ t) ∧ contains (str "::") t = false.
Proof.
  unfold is_plain. rewrite andb_true_iff, !negb_true_iff.
  assert (Hex : existsb (any_of "`<|") t = false ↔
                (backtick ∉ t) ∧ ("<" ∉ t) ∧ ("|" ∉ t)).
  { induction t as [|c t IH]; simpl.
    - split; [|done]. intros _. repeat split; apply not_elem_of_nil.
    - rewrite orb_false_iff, IH, any_of_marks, !not_elem_of_cons. 
      split; intros; destruct_and?; repeat split; congruence. }
  rewrite Hex. tauto.
Qed.

Lemma is_plain_app u v :
  is_plain (u ++ v) = true → is_plain u = true ∧ is_plain v = true.
Proof.
  rewrite !is_plain_spec, !not_elem_of_app.
  intros ((?&?) & (?&?) & (?&?) & Hc).
  apply contains_false_app in Hc as [? ?]. done.
Qed.

Lemma is_plain_strip t : is_plain t = true → is_plain (strip t) = true.
Proof.
  intros H. destruct (strip_split t) as (u & v & Ht). rewrite Ht in H.
  apply is_plain_app in H as [_ H]. by apply is_plain_app in H as [H _].
Qed.

(** * [strip_rst] on plain text *)

Lemma double_colon_after w u v :
  contains (str "::") w = true → contains (str "::") (u ++ w ++ v) = true.
Proof.
  intros H. apply contains_spec in H as (w1 & w2 & ->).
  apply contains_spec. exists (u ++ w1), (w2 ++ v). by rewrite <- !app_assoc.
Qed.

(** The rules before and after rule 4. *)
Lemma rst_rules_split :
  rst_rules = take 3 rst_rules ++ [(re_target, [])] ++ drop 4 rst_rules.
Proof. done. Qed.

(** Every rule but rule 4 needs a backtick, a [|] or a [::]. *)
Lemma rst_rule_nomatch_other r tpl b v :
  (r, tpl) ∈ take 3 rst_rules ++ drop 4 rst_rules →
  backtick ∉ v → "|" ∉ v → contains (str "::") v = false →
  match_at r (b, v) = None.
Proof.
  intros Hin Hb Hp Hc. simpl in Hin.
  repeat (apply elem_of_cons in Hin as [Hin|Hin]; [injection Hin as -> _|]);
    [..|by apply elem_of_nil in Hin].
  - apply (needs_sound backtick); [by vm_compute|done].
  - apply (needs_sound backtick); [by vm_compute|done].
  - apply (needs_sound backtick); [by vm_compute|done].
  - apply (needs_sound backtick); [by vm_compute|done].
  - apply (needs_sound backtick); [by vm_compute|done].
  - destruct (match_at re_note (b, v)) as [res|] eqn:H; [|done].
    apply (exec_lits_inv (str ".. note::")) in H as (a' & -> & _).
    pose proof (double_colon_after (str ".. note::") [] a' ltac:(by vm_compute)) as Hd.
    simpl app in Hd, Hc. congruence.
  - destruct (match_at re_versionadded (b, v)) as [res|] eqn:H; [|done].
    unfold match_at, re_versionadded in H. cbn [cat foldr exec] in H.
    apply (exec_lits_inv (str ".. versionadded:: ")) in H as (a' & -> & _).
    pose proof (double_colon_after (str ".. versionadded:: ") [] a' ltac:(by vm_compute)) as Hd.
    simpl app in Hd, Hc. congruence.
  - destruct (match_at re_code_block (b, v)) as [res|] eqn:H; [|done].
    unfold match_at, re_code_block in H. cbn [cat foldr exec] in H.
    apply (exec_lits_inv (str ".. code-block::")) in H as (a' & -> & _).
    pose proof (double_colon_after (str ".. code-block::") [] a' ltac:(by vm_compute)) as Hd.
    simpl app in Hd, Hc. congruence.
  - apply (needs_sound "|"); [by vm_compute|done].
  - destruct (match_at re_literal_block (b, v)) as [res|] eqn:H; [|done].
    unfold match_at, re_literal_block in H. cbn [cat foldr exec snd fst] in H.
    destruct v as [|c a1]; [done|]. destruct (is_word c); [|done].
    apply (exec_lits_inv (str "::")) in H as (a' & -> & _).
    pose proof (double_colon_after (str "::") [c] a' ltac:(by vm_compute)) as Hd.
    simpl app in Hd, Hc. congruence.
Qed.

Lemma re_target_needs b v : "<" ∉ v → match_at re_target (b, v) = None.
Proof. intros H. apply (needs_sound "<"); [by vm_compute|done]. Qed.

(** On plain text none of the eleven patterns matches anywhere. *)
Lemma rst_rule_nomatch r tpl b v :
  (r, tpl) ∈ rst_rules → is_plain v = true → match_at r (b, v) = None.
Proof.
  intros Hin Hv. apply is_plain_spec in Hv as (Hb & Hl & Hp & Hc).
  rewrite rst_rules_split in Hin.
  apply elem_of_app in Hin as [Hin|Hin];
    [|apply elem_of_app in Hin as [Hin|Hin]].
  - eapply rst_rule_nomatch_other; [|done..]. apply elem_of_app. by left.
  - apply list_elem_of_singleton in Hin. injection Hin as -> _.
    by apply re_target_needs.
  - eapply rst_rule_nomatch_other; [|done..]. apply elem_of_app. by right.
Qed.

Lemma apply_rules_nomatch rules a :
  (∀ r tpl u v, (r, tpl) ∈ rules → a = u ++ v → match_at r (rev u, v) = None) →
  apply_rules rules a = a.
Proof.
  unfold apply_rules. induction rules as [|[r tpl] rules IH]; intros H; simpl; [done|].
  rewrite re_sub_nomatch.
  - apply IH. intros r' tpl' u v Hin. apply (H r' tpl'). by right.
  - intros u v. apply (H r tpl). by left.
Qed.

Lemma apply_rules_plain a : is_plain a = true → apply_rules rst_rules a = a.
Proof.
  intros Ha. apply apply_rules_nomatch. intros r tpl u v Hin ->.
  apply is_plain_app in Ha as [_ Hv]. by eapply rst_rule_nomatch.
Qed.

Lemma strip_rst_of_plain t : is_plain t = true → strip_rst (Some t) = strip t.
Proof.
  intros Ht. unfold strip_rst. destruct t as [|c t]; [done|].
  cbn [truthy negb default]. by rewrite apply_rules_plain.
Qed.

Lemma apply_rules_app l1 l2 a :
  apply_rules (l1 ++ l2) a = apply_rules l2 (apply_rules l1 a).
Proof. unfold apply_rules. apply foldl_app. Qed.

(** * Rule 4 of [strip_rst]: dangling targets *)

Local Abbreviation url_ahead := (cat [Lits "http"; Opt (Lit "s"); Lits "://"]).

Lemma exec_Lit_inv c b a cs k res :
  exec (Lit c) (b, a) cs k = Some res →
  ∃ a', a = c :: a' ∧ k (c :: b, a') cs = Some res.
Proof.
  intros H. apply exec_Cls_inv in H as (x & a' & -> & Hx & H).
  apply is_chr_eq in Hx as ->. by exists a'.
Qed.

Lemma url_ahead_none b X cs :
  is_url X = false → exec url_ahead (b, X) cs accept = None.
Proof.
  intros HX.
  destruct (exec _ _ _ _) as [res|] eqn:H; [|done]. exfalso.
  cbn [cat foldr exec] in H.
  apply (exec_lits_inv (str "http")) in H as (a1 & -> & H).
  unfold Opt in H. apply exec_Alt_inv in H as [H|H].
  - apply exec_Lit_inv in H as (a2 & -> & H).
    apply (exec_lits_inv (str "://")) in H as (a3 & -> & _).
    by vm_compute in HX.
  - cbn [exec] in H.
    apply (exec_lits_inv (str "://")) in H as (a3 & -> & _).
    by vm_compute in HX.
Qed.

Lemma url_ahead_some b X cs :
  is_url X = true → ∃ res, exec url_ahead (b, X) cs accept = Some res.
Proof.
  intros HX. unfold is_url in HX. apply orb_true_iff in HX as [HX|HX];
    apply startswith_inv in HX as [a ->]; eexists; vm_compute; reflexivity.
Qed.

Lemma startswith_app_l w s r : startswith w s = true → startswith w (s ++ r) = true.
Proof. intros H. apply startswith_inv in H as [a ->]. rewrite <- app_assoc. apply startswith_app. Qed.

Lemma startswith_stop w : ∀ s c r,
  c ∉ w → startswith w (s ++ c :: r) = startswith w s.
Proof.
  induction w as [|x w IH]; intros s c r Hc; [by destruct s|].
  apply not_elem_of_cons in Hc as [Hx Hc].
  destruct s as [|y s]; simpl.
  - apply andb_false_iff. left. by apply chr_eqb_neq.
  - by rewrite IH.
Qed.

Lemma is_url_stop s r : is_url (s ++ ">" :: r) = is_url s.
Proof.
  unfold is_url. rewrite !startswith_stop; [done|..];
    vm_compute; intros H; repeat (apply elem_of_cons in H as [H|H]; [done|]); by apply elem_of_nil in H.
Qed.


Lemma exec_cat_cons r rs x cs k :
  exec (cat (r :: rs)) x cs k = exec r x cs (λ y cs', exec (cat rs) y cs' k).
Proof. done. Qed.

Lemma exec_cat_nil x cs k : exec (cat []) x cs k = k x cs.
Proof. done. Qed.

Lemma exec_Cls_eq p c b a cs k :
  p c = true → exec (Cls p) (b, c :: a) cs k = k (c :: b, a) cs.
Proof. simpl. by intros ->. Qed.

Lemma exec_Lit_eq c b a cs k : exec (Lit c) (b, c :: a) cs k = k (c :: b, a) cs.
Proof. apply exec_Cls_eq, chr_eqb_refl. Qed.

Lemma exec_Lits_eq s b a cs k :
  exec (Lits s) (b, str s ++ a) cs k = k (rev (str s) ++ b, a) cs.
Proof. apply exec_lits_app. Qed.

Lemma exec_Star_max p w b a cs k res :
  forallb p w = true → stops p a → k (rev w ++ b, a) cs = Some res →
  exec (Star true p) (b, w ++ a) cs k = Some res.
Proof. intros. by apply (star_greedy_max p (λ y, k y cs)). Qed.

Lemma exec_NotAhead_eq r x cs k :
  exec r x cs accept = None → exec (NotAhead r) x cs k = k x cs.
Proof. simpl. unfold accept. by intros ->. Qed.

Lemma exec_Group_eq n r x cs k :
  exec (Group n r) x cs k = exec r x cs (λ y cs', k y ((n, consumed x y) :: cs')).
Proof. done. Qed.

Lemma re_target_match b W h t a :
  forallb is_space W = true → target_head h = true →
  forallb target_char t = true → is_url (h :: t) = false →
  ∃ y cs, match_at re_target (b, W ++ "<" :: h :: t ++ ">" :: a) = Some (y, cs)
          ∧ snd y = a.
Proof.
  intros HW Hh Ht Hu. unfold match_at, re_target.
  eexists _, _. split.
  - rewrite exec_cat_cons. apply exec_Star_max; [done|done|].
    rewrite exec_cat_cons, exec_Lit_eq, exec_cat_cons.
    rewrite exec_NotAhead_eq
      by (apply url_ahead_none; etrans; [apply (is_url_stop (h :: t) a)|exact Hu]).
    rewrite exec_cat_cons, exec_Cls_eq by done.
    rewrite exec_cat_cons. apply exec_Star_max; [done|done|].
    rewrite exec_cat_cons, exec_Lit_eq, exec_cat_nil. reflexivity.
  - done.
Qed.

Lemma exec_NotAhead_inv r x cs k res :
  exec (NotAhead r) x cs k = Some res →
  exec r x cs accept = None ∧ k x cs = Some res.
Proof.
  simpl. fold accept. by destruct (exec r x cs accept).
Qed.

Lemma re_target_inv b a res :
  match_at re_target (b, a) = Some res →
  ∃ w X, a = w ++ "<" :: X ∧ forallb is_space w = true ∧ is_url X = false.
Proof.
  unfold match_at, re_target. rewrite exec_cat_cons. intros H.
  apply exec_Star_inv in H as (w & a' & -> & Hw & H).
  rewrite exec_cat_cons in H. apply exec_Lit_inv in H as (X & -> & H).
  rewrite exec_cat_cons in H. apply exec_NotAhead_inv in H as [H _].
  exists w, X. repeat split; [done|].
  destruct (is_url X) eqn:HX; [|done].
  apply (url_ahead_some ("<" :: rev w ++ b) X []) in HX as [res' HX]. congruence.
Qed.

Lemma lstrip_app_nonnil u R : lstrip u ≠ [] → lstrip (u ++ R) = lstrip u ++ R.
Proof.
  induction u as [|c u IH]; simpl; [done|].
  destruct (is_space c); [done|done].
Qed.

Lemma ends_nonspace_suffix P u1 u2 :
  head_ok (rev P) → P = u1 ++ u2 → u2 ≠ [] → lstrip u2 ≠ [].
Proof.
  intros HP -> Hne Hnil. apply lstrip_nil in Hnil.
  rewrite rev_app_distr in HP.
  assert (Hr : rev u2 ≠ []).
  { intros E. apply (f_equal (@length _)) in E. rewrite length_rev in E.
    by destruct u2. }
  apply head_ok_app_l in HP; [|done].
  destruct (rev u2) as [|c z] eqn:E; [done|]. simpl in HP.
  rewrite forallb_forall in Hnil. specialize (Hnil c).
  rewrite Hnil in HP; [done|]. apply in_rev. rewrite E. by left.
Qed.

Lemma head_ok_rev_rstrip s : head_ok (rev (rstrip s)).
Proof. unfold rstrip. rewrite rev_involutive. apply lstrip_head_ok. Qed.

Lemma lstrip_incl s c : c ∈ lstrip s → c ∈ s.
Proof.
  destruct (lstrip_split s) as (u & Hu & _). intros H. rewrite Hu.
  apply elem_of_app. by right.
Qed.

Lemma re_target_nomatch_inside P u1 u2 b R :
  head_ok (rev P) → "<" ∉ P → P = u1 ++ u2 → u2 ≠ [] →
  match_at re_target (b, u2 ++ R) = None.
Proof.
  intros HP Hlt -> Hne.
  destruct (match_at re_target (b, u2 ++ R)) as [res|] eqn:H; [|done]. exfalso.
  apply re_target_inv in H as (w & X & E & Hw & _).
  apply (f_equal lstrip) in E. rewrite (lstrip_spaces w) in E by done.
  pose proof (ends_nonspace_suffix _ u1 u2 HP eq_refl Hne) as Hn.
  rewrite lstrip_app_nonnil in E by done.
  simpl in E. apply Hlt. apply elem_of_app. right. apply lstrip_incl.
  destruct (lstrip u2) as [|c z]; [done|]. injection E as -> _. left.
Qed.

Lemma sub_loop_match_end r tpl count n b m y cs :
  may_replace count n = true → m ≠ [] →
  match_at r (b, m) = Some (y, cs) → snd y = [] →
  sub_loop r tpl count n 0 b m = expand tpl cs.
Proof.
  intros Hn Hm H Hy. rewrite <- (app_nil_r m) at 1.
  erewrite sub_loop_match; [|done|done|by rewrite app_nil_r|done].
  simpl. by rewrite app_nil_r.
Qed.

(** Rule 4 on a trailing target. *)
Lemma re_sub_target_trailing pre ws h t :
  "<" ∉ pre → forallb is_space ws = true → target_head h = true →
  forallb target_char t = true → is_url (h :: t) = false →
  re_sub re_target [] (pre ++ ws ++ "<" :: h :: t ++ [">"]) = rstrip pre.
Proof.
  intros Hlt Hws Hh Ht Hu.
  destruct (rstrip_split pre) as (v & Hv & Hs).
  pose proof (head_ok_rev_rstrip pre) as Hok.
  remember (rstrip pre) as P eqn:HeqP. clear HeqP. subst pre.
  assert (HP : "<" ∉ P).
  { intros Hin. apply Hlt. apply elem_of_app. by left. }
  replace ((P ++ v) ++ ws ++ "<" :: h :: t ++ [">"])
    with (P ++ ((v ++ ws) ++ "<" :: h :: t ++ [">"]))
    by (by rewrite <- !app_assoc).
  unfold re_sub, re_sub_count. rewrite sub_loop_nomatch.
  - destruct (re_target_match (rev P ++ []) (v ++ ws) h t [])
      as (y & cs & Hm & Hy); [|done..|].
    { rewrite forallb_app. by rewrite Hs, Hws. }
    erewrite sub_loop_match_end; [|done| |exact Hm|exact Hy].
    + simpl. by rewrite app_nil_r.
    + by destruct (v ++ ws).
  - intros u1 u2 E Hne.
    eapply re_target_nomatch_inside; [exact Hok|exact HP|exact E|done].
Qed.

Lemma split_at_unique {A} (c : A) l1 : ∀ l2 k1 k2,
  l1 ++ c :: l2 = k1 ++ c :: k2 → c ∉ l1 → c ∉ l2 → l1 = k1 ∧ l2 = k2.
Proof.
  induction l1 as [|x l1 IH]; intros l2 k1 k2 E H1 H2.
  - destruct k1 as [|y k1]; simpl in E.
    + by injection E as ->.
    + injection E as -> ->. exfalso. apply H2. apply elem_of_app. right. left.
  - apply not_elem_of_cons in H1 as [Hx H1].
    destruct k1 as [|y k1]; simpl in E.
    + by injection E as -> _.
    + injection E as -> E. destruct (IH _ _ _ E H1 H2) as [-> ->]. done.
Qed.

Lemma re_target_url_nomatch A B u v :
  "<" ∉ A → "<" ∉ B → is_url B = true → A ++ "<" :: B = u ++ v →
  match_at re_target (rev u, v) = None.
Proof.
  intros HA HB HU E.
  destruct (match_at re_target (rev u, v)) as [res|] eqn:H; [|done]. exfalso.
  apply re_target_inv in H as (w & X & -> & _ & HX).
  rewrite app_assoc in E. apply split_at_unique in E as [_ ->]; [|done..].
  congruence.
Qed.

Lemma rst_rule_nomatch_roles r tpl b v :
  (r, tpl) ∈ take 3 rst_rules → backtick ∉ v → match_at r (b, v) = None.
Proof.
  intros Hin Hb. simpl in Hin.
  repeat (apply elem_of_cons in Hin as [Hin|Hin]; [injection Hin as -> _|]);
    [..|by apply elem_of_nil in Hin];
    (apply (needs_sound backtick); [by vm_compute|done]).
Qed.

Lemma truthy_app_cons (u v : text) c : truthy (Some (u ++ c :: v)) = true.
Proof. by destruct u. Qed.

Lemma space_not_mark c :
  is_space c = true → c ≠ backtick ∧ c ≠ "<" ∧ c ≠ "|" ∧ c ≠ ":".
Proof. intros H. repeat split; intros ->; by vm_compute in H. Qed.

Lemma spaces_not_elem ws c :
  is_space c = false → forallb is_space ws = true → c ∉ ws.
Proof.
  intros Hc H Hin. rewrite forallb_forall in H.
  apply list_elem_of_In in Hin. apply H in Hin. congruence.
Qed.

Lemma target_head_not_backtick h : target_head h = true → h ≠ backtick.
Proof. intros H ->. by vm_compute in H. Qed.

Lemma target_chars_no_backtick t : forallb target_char t = true → backtick ∉ t.
Proof.
  intros H Hin. rewrite forallb_forall in H.
  apply list_elem_of_In in Hin. apply H in Hin. by vm_compute in Hin.
Qed.

Lemma rstrip_ends_nonspace s c :
  is_space c = false → rstrip (s ++ [c]) = s ++ [c].
Proof.
  intros Hc. unfold rstrip. rewrite rev_app_distr. simpl. rewrite Hc.
  simpl. by rewrite rev_involutive.
Qed.

Lemma is_plain_rstrip t : is_plain t = true → is_plain (rstrip t) = true.
Proof.
  intros H. destruct (rstrip_split t) as (v & Hv & _). rewrite Hv in H.
  by apply is_plain_app in H as [H _].
Qed.

Lemma strip_rst_target pre ws h t :
  is_plain pre = true → forallb is_space ws = true →
  target_head h = true → forallb target_char t = true →
  is_url (h :: t) = false →
  strip_rst (Some (pre ++ ws ++ "<" :: h :: t ++ [">"])) = strip pre.
Proof.
  intros Hpre Hws Hh Ht Hu.
  pose proof Hpre as Hpl. apply is_plain_spec in Hpl as (Hb & Hl & Hp & Hc).
  unfold strip_rst. rewrite app_assoc, truthy_app_cons. cbn [negb default from_option id].
  rewrite <- app_assoc.
  rewrite rst_rules_split, !apply_rules_app.
  rewrite (apply_rules_nomatch (take 3 rst_rules)).
  2:{ intros r tpl u v Hin E. eapply rst_rule_nomatch_roles; [done|].
      assert (Hall : backtick ∉ pre ++ ws ++ "<" :: h :: t ++ [">"]).
      { rewrite !not_elem_of_app, !not_elem_of_cons, not_elem_of_app.
        repeat split; try done.
        - apply spaces_not_elem; [by vm_compute|done].
        - by apply not_eq_sym, target_head_not_backtick.
        - by apply target_chars_no_backtick.
        - apply not_elem_of_cons. split; [done|apply not_elem_of_nil]. }
      rewrite E in Hall. by apply not_elem_of_app in Hall as [_ ?]. }
  unfold apply_rules at 2. cbn [foldl fst snd].
  rewrite re_sub_target_trailing by done.
  rewrite apply_rules_nomatch.
  - apply strip_rstrip.
  - intros r tpl u v Hin E.
    apply is_plain_rstrip in Hpre. rewrite E in Hpre.
    apply is_plain_app in Hpre as [_ Hv].
    apply is_plain_spec in Hv as (? & ? & ? & ?).
    eapply rst_rule_nomatch_other; [|done..]. apply elem_of_app. by right.
Qed.

Lemma contains_cons w c s :
  contains w (c :: s) = startswith w (c :: s) || contains w s.
Proof. done. Qed.

Lemma startswith_dcolon c s :
  startswith (str "::") (c :: s)
  = chr_eqb ":" c && match s with d :: _ => chr_eqb ":" d | [] => false end.
Proof. destruct s; simpl; by rewrite ?andb_true_r. Qed.

Lemma no_dcolon_insert A c B :
  c ≠ ":" → contains (str "::") A = false → contains (str "::") B = false →
  contains (str "::") (A ++ c :: B) = false.
Proof.
  intros Hc HA HB.
  assert (Hcc : chr_eqb ":" c = false) by (apply chr_eqb_neq; by apply not_eq_sym).
  induction A as [|x A IH].
  - simpl app. rewrite contains_cons, startswith_dcolon, HB, Hcc. done.
  - rewrite contains_cons in HA. apply orb_false_iff in HA as [Hs HA].
    change ((x :: A) ++ c :: B) with (x :: (A ++ c :: B)).
    rewrite contains_cons, (IH HA), orb_false_r, startswith_dcolon.
    rewrite startswith_dcolon in Hs.
    destruct A as [|y A]; cbn [app].
    + by rewrite Hcc, andb_false_r.
    + done.
Qed.

Lemma no_dcolon_spaces A ws B :
  forallb is_space ws = true → ws ≠ [] →
  contains (str "::") A = false → contains (str "::") B = false →
  contains (str "::") (A ++ ws ++ B) = false.
Proof.
  intros Hws Hne HA. revert A HA. induction ws as [|c ws IH]; intros A HA HB; [done|].
  simpl in Hws. apply andb_true_iff in Hws as [Hc Hws].
  destruct ws as [|d ws].
  - simpl. apply no_dcolon_insert; [|done..]. by apply space_not_mark in Hc as (_&_&_&?).
  - change (A ++ (c :: d :: ws) ++ B) with (A ++ [c] ++ (d :: ws) ++ B).
    rewrite app_assoc. apply IH; [done|done| |done].
    apply no_dcolon_insert; [|done..]. by apply space_not_mark in Hc as (_&_&_&?).
Qed.

Lemma strip_rst_url pre ws url :
  is_plain pre = true → forallb is_space ws = true →
  is_plain url = true → is_url url = true →
  strip_rst (Some (pre ++ ws ++ "<" :: url ++ [">"]))
  = lstrip (pre ++ ws ++ "<" :: url ++ [">"]).
Proof.
  intros Hpre Hws Hurl Hu.
  apply is_plain_spec in Hpre as (Hb & Hl & Hp & Hc).
  apply is_plain_spec in Hurl as (Hb' & Hl' & Hp' & Hc').
  set (T := pre ++ ws ++ "<" :: url ++ [">"]).
  assert (HT : T = (pre ++ ws) ++ "<" :: (url ++ [">"])) by (unfold T; by rewrite <- app_assoc).
  assert (Hbt : backtick ∉ T).
  { unfold T. rewrite !not_elem_of_app, !not_elem_of_cons, not_elem_of_app, not_elem_of_cons.
    repeat split; try done; try apply not_elem_of_nil.
    apply spaces_not_elem; [by vm_compute|done]. }
  assert (Hpt : "|" ∉ T).
  { unfold T. rewrite !not_elem_of_app, !not_elem_of_cons, not_elem_of_app, not_elem_of_cons.
    repeat split; try done; try apply not_elem_of_nil.
    apply spaces_not_elem; [by vm_compute|done]. }
  assert (Hct : contains (str "::") T = false).
  { assert (Hr : contains (str "::") ("<" :: url ++ [">"]) = false).
    { apply (no_dcolon_insert [] "<"); [done|done|].
      apply no_dcolon_insert; done. }
    destruct ws as [|c ws].
    - unfold T. simpl. apply no_dcolon_insert; [done|done|].
      apply no_dcolon_insert; done.
    - unfold T. apply no_dcolon_spaces; done. }
  assert (Htr : truthy (Some T) = true).
  { rewrite HT. apply truthy_app_cons. }
  assert (Hrs : rstrip T = T).
  { replace T with ((pre ++ ws ++ "<" :: url) ++ [">"])
      by (unfold T; by rewrite <- !app_assoc).
    by apply rstrip_ends_nonspace. }
  unfold strip_rst. rewrite Htr. cbn [negb default from_option id].
  rewrite apply_rules_nomatch.
  - unfold strip. by rewrite Hrs.
  - intros r tpl u v Hin E. rewrite rst_rules_split in Hin.
    assert (Hv : (backtick ∉ v) ∧ ("|" ∉ v) ∧ contains (str "::") v = false).
    { rewrite E in Hbt, Hpt, Hct. apply not_elem_of_app in Hbt as [_ ?].
      apply not_elem_of_app in Hpt as [_ ?].
      by apply contains_false_app in Hct as [_ ?]. }
    destruct Hv as (? & ? & ?).
    apply elem_of_app in Hin as [Hin|Hin];
      [|apply elem_of_app in Hin as [Hin|Hin]].
    + eapply rst_rule_nomatch_other; [|done..]. apply elem_of_app. by left.
    + apply list_elem_of_singleton in Hin. injection Hin as -> _.
      apply (re_target_url_nomatch (pre ++ ws) (url ++ [">"])).
      * apply not_elem_of_app. split; [done|].
        apply spaces_not_elem; [by vm_compute|done].
      * apply not_elem_of_app. split; [done|].
        apply not_elem_of_cons. split; [done|apply not_elem_of_nil].
      * etrans; [apply (is_url_stop url [])|done].
      * by rewrite <- HT.
    + eapply rst_rule_nomatch_other; [|done..]. apply elem_of_app. by right.
Qed.

(** * [extract_values] and [none_is_special_value] *)

Lemma fromkeys_from d l :
  foldl (λ d k, if bool_decide (k ∈ d) then d else d ++ [k]) d l
  = d ++ filter (λ y, y ∉ d) (first_seen l).
Proof.
  revert d. induction l as [|x l IH]; intros d; simpl.
  - by rewrite app_nil_r.
  - rewrite IH. case_bool_decide as Hx.
    + rewrite filter_cons_False by (intros H; by apply H).
      f_equal. rewrite list_filter_filter. apply list_filter_iff.
      intros y. split; [|by intros [? _]]. intros Hy. split; [done|].
      intros ->. done.
    + rewrite filter_cons_True by done. rewrite <- app_assoc. simpl.
      do 2 f_equal. rewrite list_filter_filter. apply list_filter_iff.
      intros y. rewrite not_elem_of_app, not_elem_of_cons.
      split; [intros [? [? _]]; done|]. intros [? ?].
      repeat split; [done|done|apply not_elem_of_nil].
Qed.

(** [list(dict.fromkeys(l))] keeps first occurrences, in order. *)
Lemma fromkeys_first_seen l : fromkeys l = first_seen l.
Proof.
  unfold fromkeys. rewrite fromkeys_from. simpl.
  induction (first_seen l) as [|y k IHk]; [done|].
  rewrite filter_cons_True by apply not_elem_of_nil. by rewrite IHk.
Qed.

Lemma existsb_negb_Forall (opt : text) (l : list text) :
  existsb (λ o, negb (bool_decide (o = opt))) l = false ↔ Forall (λ o, o = opt) l.
Proof.
  induction l as [|x l IH]; simpl.
  - split; [by constructor|done].
  - rewrite orb_false_iff, IH, Forall_cons, negb_false_iff, bool_decide_eq_true. done.
Qed.

Lemma forallb_eq_Forall (opt : text) (l : list text) :
  forallb (λ o, bool_decide (o = opt)) l = true ↔ Forall (λ o, o = opt) l.
Proof.
  induction l as [|x l IH]; simpl.
  - split; [by constructor|done].
  - rewrite andb_true_iff, IH, Forall_cons, bool_decide_eq_true. done.
Qed.

Lemma forallb_short_Forall (l : list text) :
  forallb (λ v, (length v <? 30)%nat) l = true ↔ Forall (λ v, length v < 30) l.
Proof.
  induction l as [|x l IH]; simpl.
  - split; [by constructor|done].
  - rewrite andb_true_iff, IH, Forall_cons, Nat.ltb_lt. done.
Qed.

Lemma none_loop_spec opt l :
  none_loop opt l = true ↔
  ∃ sent, sent ∈ l ∧ contains code_none sent = true
          ∧ Forall (λ o, o = opt) (opt_refs sent).
Proof.
  induction l as [|s l IH]; simpl.
  - split; [done|]. intros (sent & Hin & _). by apply elem_of_nil in Hin.
  - destruct (contains code_none s) eqn:Hc; simpl.
    + destruct (forallb _ _) eqn:Hf.
      * split; [|done]. intros _. exists s. split; [left|].
        split; [done|]. by apply forallb_eq_Forall.
      * rewrite IH. split.
        -- intros (sent & Hin & H). exists sent. split; [by right|done].
        -- intros (sent & Hin & Hc' & Hf'). apply elem_of_cons in Hin as [->|Hin].
           ++ apply forallb_eq_Forall in Hf'. unfold opt_refs in Hf'. congruence.
           ++ by exists sent.
    + rewrite IH. split.
      * intros (sent & Hin & H). exists sent. split; [by right|done].
      * intros (sent & Hin & Hc' & Hf'). apply elem_of_cons in Hin as [->|Hin].
        -- congruence.
        -- by exists sent.
Qed.

(** * [parse_options_spec] *)

Lemma strip_head c s : is_space c = false → ∃ r, strip (c :: s) = c :: r.
Proof.
  intros Hc. destruct (rstrip_split (c :: s)) as (v & Hv & Hs).
  unfold strip. destruct (rstrip (c :: s)) as [|d r].
  - simpl in Hv. subst v. simpl in Hs. by rewrite Hc in Hs.
  - injection Hv as <- _. exists r. simpl. by rewrite Hc.
Qed.

Lemma flag_line_not_placeholder l :
  is_flag_line l = true → bool_decide (strip l = placeholder) = false.
Proof.
  intros H. apply startswith_inv in H as [a ->].
  apply bool_decide_eq_false. simpl.
  destruct (strip_head "-" ("-" :: a)) as [r ->]; done.
Qed.

(** Steps from a state with no pending flag. *)
Lemma step_init_skip l :
  is_flag_line l = false → step init_state l = init_state.
Proof.
  intros H. unfold step. rewrite H. simpl. by case_bool_decide.
Qed.

Lemma foldl_step_skip ls rest :
  Forall (λ l, is_flag_line l = false) ls →
  foldl step init_state (ls ++ rest) = foldl step init_state rest.
Proof.
  induction 1 as [|l ls Hl _ IH]; [done|]. simpl. by rewrite step_init_skip.
Qed.

Lemma flush_length st :
  length (entries (flush st)) = length (entries st) + pending st.
Proof.
  unfold flush, pending. destruct (current_flags st); simpl.
  - rewrite length_app. simpl. lia.
  - lia.
Qed.

Lemma step_count st l :
  length (entries (step st l)) + pending (step st l)
  = length (entries st) + pending st + (if is_flag_line l then 1 else 0).
Proof.
  unfold step. destruct (is_flag_line l) eqn:Hf.
  - rewrite flag_line_not_placeholder by done. 
    unfold pending at 1. simpl. rewrite flush_length. lia.
  - case_bool_decide; [lia|].
    destruct (bool_decide (current_flags st ≠ None) && is_meta_line l).
    + destruct (partition_chr "=" (strip l)) as [[key ?] val]. unfold pending. simpl. lia.
    + case_bool_decide; unfold pending; simpl; lia.
Qed.

Lemma foldl_step_count ls : ∀ st,
  length (entries (foldl step st ls)) + pending (foldl step st ls)
  = length (entries st) + pending st + length (List.filter is_flag_line ls).
Proof.
  induction ls as [|l ls IH]; intros st; simpl; [lia|].
  rewrite IH, step_count. destruct (is_flag_line l); simpl; lia.
Qed.

Lemma parse_lines_length ls :
  length (parse_lines ls) = length (List.filter is_flag_line ls).
Proof.
  unfold parse_lines. rewrite flush_length, foldl_step_count. simpl. done.
Qed.

Lemma split_newline_app u : ∀ cur v,
  split_go [newline] 0 cur (u ++ newline :: v)
  = split_go [newline] 0 cur u ++ split_go [newline] 0 [] v.
Proof.
  induction u as [|c u IH]; intros cur v.
  - done.
  - cbn [app split_go startswith length]. destruct (chr_eqb newline c); simpl.
    + by rewrite IH.
    + by rewrite IH.
Qed.

Lemma split_str_newline_app u v :
  split_str [newline] (u ++ newline :: v)
  = split_str [newline] u ++ split_str [newline] v.
Proof. apply split_newline_app. Qed.

Lemma flush_with_entries es st : flush (with_entries es st) = with_entries es (flush st).
Proof.
  destruct st as [e [f|] m d]; unfold flush, with_entries; simpl; [|done].
  by rewrite <- app_assoc.
Qed.

Lemma step_with_entries es st l : step (with_entries es st) l = with_entries es (step st l).
Proof.
  unfold step. case_bool_decide; [done|].
  destruct (is_flag_line l).
  - rewrite flush_with_entries. done.
  - simpl. destruct (bool_decide (current_flags st ≠ None) && is_meta_line l).
    + by destruct (partition_chr "=" (strip l)) as [[key ?] val].
    + by case_bool_decide.
Qed.

Lemma foldl_with_entries es ls : ∀ st,
  foldl step (with_entries es st) ls = with_entries es (foldl step st ls).
Proof.
  induction ls as [|l ls IH]; intros st; simpl; [done|].
  by rewrite step_with_entries, IH.
Qed.

(** Parsing is compositional at a flag line. *)
Lemma parse_lines_app A f B :
  is_flag_line f = true →
  parse_lines (A ++ f :: B) = parse_lines A ++ parse_lines (f :: B).
Proof.
  intros Hf. unfold parse_lines. rewrite foldl_app. simpl.
  set (sA := foldl step init_state A).
  assert (E : step sA f = with_entries (entries (flush sA)) (step init_state f)).
  { unfold step. rewrite flag_line_not_placeholder, Hf by done.
    unfold with_entries. simpl. by rewrite app_nil_r. }
  rewrite E, foldl_with_entries, flush_with_entries. done.
Qed.

Lemma partition_chr_spec sep s : ∀ key m val,
  partition_chr sep s = (key, m, val) →
  (s = key ++ sep :: val ∧ m = [sep]) ∨ (s = key ∧ m = [] ∧ val = []).
Proof.
  induction s as [|c s IH]; intros key m val H; simpl in H.
  - injection H as <- <- <-. by right.
  - destruct (chr_eqb c sep) eqn:Hc.
    + apply chr_eqb_eq in Hc as ->. injection H as <- <- <-. by left.
    + destruct (partition_chr sep s) as [[k1 m1] v1].
      injection H as <- <- <-.
      destruct (IH _ _ _ eq_refl) as [[-> ->]|(-> & -> & ->)]; [by left|by right].
Qed.

(** A metadata line sets the key [default] only if it reads [default=...]. *)
Lemma meta_key_default l key m val :
  is_meta_line l = true → partition_chr "=" (strip l) = (key, m, val) →
  key = str "default" → startswith (str "default=") (strip l) = true.
Proof.
  intros Hm Hp ->. apply partition_chr_spec in Hp as [[Hs _]|(Hs & _ & _)].
  - rewrite Hs. apply (startswith_app (str "default=") val).
  - unfold is_meta_line in Hm. rewrite Hs in Hm. by vm_compute in Hm.
Qed.

(** After a flag line and lines that add no description, the flag is
    pending with an empty description. *)
Lemma run_no_desc metas : ∀ st,
  current_flags st ≠ None → Forall no_desc_line metas →
  let st' := foldl step st metas in
  entries st' = entries st ∧ current_flags st' = current_flags st
  ∧ current_desc_lines st' = current_desc_lines st
  ∧ (current_meta st !! str "default" = None →
     Forall (λ l, startswith (str "default=") (strip l) = false) metas →
     current_meta st' !! str "default" = None).
Proof.
  induction metas as [|l metas IH]; intros st Hf Hall; simpl; [done|].
  apply Forall_cons in Hall as [Hl Hall].
  assert (Hstep : entries (step st l) = entries st
                  ∧ current_flags (step st l) = current_flags st
                  ∧ current_desc_lines (step st l) = current_desc_lines st
                  ∧ (current_meta st !! str "default" = None →
                     startswith (str "default=") (strip l) = false →
                     current_meta (step st l) !! str "default" = None)).
  { unfold step. case_bool_decide as Hp; [done|].
    destruct Hl as [Hl|[Hfl Hm]]; [done|]. rewrite Hfl, Hm.
    rewrite bool_decide_eq_true_2 by done. cbn [andb].
    destruct (partition_chr "=" (strip l)) as [[key m] val] eqn:Hpart.
    cbn [entries current_flags current_desc_lines current_meta].
    repeat split; try done. intros Hd Hs.
    rewrite lookup_insert_ne; [done|]. intros ->.
    pose proof (meta_key_default l _ m val Hm Hpart eq_refl) as Hk. congruence. }
  destruct Hstep as (He & Hc & Hd & Hm).
  destruct (IH (step st l)) as (He' & Hc' & Hd' & Hm'); [by rewrite Hc|done|].
  rewrite He', Hc', Hd', He, Hc, Hd. repeat split; try done.
  intros H0 Hall'. apply Forall_cons in Hall' as [? ?]. apply Hm'; [|done]. by apply Hm.
Qed.

Lemma parse_options_spec_lines spec :
  parse_options_spec spec = parse_lines (spec_lines spec).
Proof. by destruct spec as [[|c s]|]. Qed.

Lemma flush_flags_renders st flags : ∃ suffix, flush_flags st flags = flags ++ suffix.
Proof.
  unfold flush_flags. destruct (meta_truthy _ _); [by eexists|].
  case_bool_decide; [by eexists|]. exists []. by rewrite app_nil_r.
Qed.

Lemma flush_entries st :
  ∃ E, entries (flush st) = entries st ++ E ∧ Forall2 renders E (pending_names st).
Proof.
  destruct st as [e [f|] m d]; unfold flush, pending_names; simpl.
  - eexists. split; [done|]. constructor; [|constructor].
    apply flush_flags_renders.
  - exists []. split; [by rewrite app_nil_r|constructor].
Qed.

Lemma foldl_step_entries ls : ∀ st,
  ∃ E, entries (flush (foldl step st ls)) = entries st ++ E
       ∧ Forall2 renders E
           (pending_names st ++ map flag_names (List.filter is_flag_line ls)).
Proof.
  induction ls as [|l ls IH]; intros st; simpl.
  - rewrite app_nil_r. apply flush_entries.
  - destruct (IH (step st l)) as (E' & HE' & HF'). rewrite HE'.
    destruct (is_flag_line l) eqn:Hf.
    + destruct (flush_entries st) as (E0 & HE0 & HF0).
      assert (Hs : entries (step st l) = entries (flush st)
                   ∧ pending_names (step st l) = [flag_names l]).
      { unfold step. by rewrite flag_line_not_placeholder, Hf by done. }
      destruct Hs as [Hs1 Hs2]. rewrite Hs1, HE0, Hs2 in *.
      exists (E0 ++ E'). split; [by rewrite app_assoc|].
      simpl. by apply Forall2_app.
    + assert (Hs : entries (step st l) = entries st
                   ∧ pending_names (step st l) = pending_names st).
      { unfold step, pending_names. rewrite Hf. case_bool_decide; [done|].
        destruct (bool_decide (current_flags st ≠ None) && is_meta_line l).
        - by destruct (partition_chr "=" (strip l)) as [[key ?] val].
        - by case_bool_decide. }
      destruct Hs as [Hs1 Hs2]. rewrite Hs1, Hs2 in *. by exists E'.
Qed.

Lemma parse_lines_renders ls :
  Forall2 renders (parse_lines ls) (map flag_names (List.filter is_flag_line ls)).
Proof.
  unfold parse_lines. destruct (foldl_step_entries ls init_state) as (E & -> & HF).
  done.
Qed.

Lemma desc_one_line_nil : trim_to_first_sentence (desc_one_line []) = [].
Proof. by vm_compute. Qed.

Lemma flush_desc_no_lines st :
  current_desc_lines st = [] →
  flush_desc st = match current_meta st !! str "default" with
                  | Some (c :: v) => str " (default: " ++ (c :: v) ++ str ")"
                  | _ => []
                  end.
Proof.
  intros Hd. unfold flush_desc. rewrite Hd, desc_one_line_nil.
  unfold meta_truthy. by destruct (current_meta st !! str "default") as [[|c v]|].
Qed.

Lemma parse_flag_no_desc f metas :
  is_flag_line f = true → Forall no_desc_line metas →
  ∃ sig desc,
    parse_lines (f :: metas) = [(sig, desc)]
    ∧ renders (sig, desc) (flag_names f)
    ∧ (desc = [] ∨ ∃ v, v ≠ [] ∧ desc = str " (default: " ++ v ++ str ")")
    ∧ (Forall (λ l, startswith (str "default=") (strip l) = false) metas →
       desc = []).
Proof.
  intros Hf Hall. unfold parse_lines. simpl.
  assert (Hs : step init_state f = PState [] (Some (flag_names f)) ∅ []).
  { unfold step. by rewrite flag_line_not_placeholder, Hf by done. }
  rewrite Hs.
  pose proof (run_no_desc metas (PState [] (Some (flag_names f)) ∅ [])
                ltac:(by simpl) Hall) as H.
  cbv zeta in H. destruct H as (He & Hc & Hd & Hm).
  set (st := foldl step _ metas) in *. simpl in He, Hc, Hd.
  cbn [current_meta] in Hm.
  exists (flush_flags st (flag_names f)), (flush_desc st).
  split; [|split; [apply flush_flags_renders|]].
  - unfold flush. by rewrite Hc, He.
  - rewrite (flush_desc_no_lines st Hd).
    destruct (current_meta st !! str "default") as [[|c v]|] eqn:Hdef.
    + split; [by left|done].
    + split.
      * right. by exists (c :: v).
      * intros H. specialize (Hm (lookup_empty _) H). congruence.
    + split; [by left|done].
Qed.

Lemma exec_Plus_max p w b a cs k res :
  forallb p w = true → w ≠ [] → stops p a →
  k (rev w ++ b, a) cs = Some res →
  exec (Plus true p) (b, w ++ a) cs k = Some res.
Proof.
  intros Hw Hne Ha Hk. destruct w as [|c w]; [done|].
  simpl in Hw. apply andb_true_iff in Hw as [Hc Hw].
  unfold Plus. change (exec (Seq ?r1 ?r2) ?x ?cs ?k)
    with (exec r1 x cs (λ y cs', exec r2 y cs' k)).
  change ((c :: w) ++ a) with (c :: (w ++ a)).
  rewrite exec_Cls_eq by done. apply exec_Star_max; [done|done|].
  simpl in Hk. by rewrite <- app_assoc in Hk.
Qed.

Lemma exec_Plus_inv g p b a cs k res :
  exec (Plus g p) (b, a) cs k = Some res →
  ∃ w a', a = w ++ a' ∧ w ≠ [] ∧ forallb p w = true
          ∧ k (rev w ++ b, a') cs = Some res.
Proof.
  unfold Plus. change (exec (Seq ?r1 ?r2) ?x ?cs ?k)
    with (exec r1 x cs (λ y cs', exec r2 y cs' k)).
  intros H. apply exec_Cls_inv in H as (c & a1 & -> & Hc & H).
  apply exec_Star_inv in H as (w & a' & -> & Hw & H).
  exists (c :: w), a'. simpl. rewrite Hc, Hw. repeat split; [done|].
  by rewrite <- app_assoc.
Qed.

Lemma forallb_not_chr c w : forallb (not_chr c) w = true ↔ c ∉ w.
Proof.
  induction w as [|x w IH]; simpl.
  - split; [intros _; apply not_elem_of_nil|done].
  - rewrite andb_true_iff, IH, not_elem_of_cons, not_chr_neq. 
    split; intros [? ?]; split; done.
Qed.

Lemma consumed_from_start w a : consumed ([], w ++ a) (rev w ++ [], a) = w.
Proof.
  unfold consumed. simpl. rewrite app_nil_r, Nat.sub_0_r.
  rewrite firstn_all. apply rev_involutive.
Qed.

(** The pattern of the first sentence matches exactly the texts whose
    first period comes after at least one character and before a
    whitespace character; group 1 is the text up to that period. *)
Lemma first_sentence_match w c rest :
  w ≠ [] → "." ∉ w → is_space c = true →
  ∃ y cs, re_match re_first_sentence (w ++ "." :: c :: rest) = Some (y, cs)
          ∧ get_group 1 cs = w ++ ["."].
Proof.
  intros Hne Hw Hc. unfold re_match, match_at, re_first_sentence.
  eexists _, _. split.
  - rewrite exec_cat_cons, exec_Group_eq, exec_cat_cons.
    apply exec_Plus_max; [by apply forallb_not_chr|done|by vm_compute|].
    rewrite exec_cat_cons, exec_Lit_eq, exec_cat_nil, exec_cat_cons.
    rewrite exec_Cls_eq by done. rewrite exec_cat_nil. reflexivity.
  - unfold get_group. simpl.
    pose proof (consumed_from_start (w ++ ["."]) (c :: rest)) as E.
    rewrite rev_app_distr, <- !app_assoc in E. simpl in E. exact E.
Qed.












(** * [is_stub_doc] *)

Lemma exec_Bol_inv b a cs k res :
  exec Bol (b, a) cs k = Some res → b = [] ∧ k (b, a) cs = Some res.
Proof. simpl. by destruct b. Qed.

Lemma exec_WordB_inv x cs k res :
  exec WordB x cs k = Some res → at_word_boundary x = true ∧ k x cs = Some res.
Proof. simpl. by destruct (at_word_boundary x). Qed.

Lemma exec_Opt_Lit_inv c b a cs k res :
  exec (Opt (Lit c)) (b, a) cs k = Some res →
  ∃ d a', a = d ++ a' ∧ (d = [] ∨ d = [c]) ∧ k (rev d ++ b, a') cs = Some res.
Proof.
  unfold Opt. intros H. apply exec_Alt_inv in H as [H|H].
  - apply exec_Lit_inv in H as (a' & -> & H). exists [c], a'. split; [done|]. split; [by right|done].
  - exists [], a. split; [done|]. split; [by left|done].
Qed.

(** What the pattern [^See\b.*?\bfor details\.?\s*] matches. *)
Lemma see_details_inv b a y cs :
  match_at re_see_details (b, a) = Some (y, cs) →
  b = [] ∧ ∃ mid d w,
    a = str "See" ++ mid ++ str "for details" ++ d ++ w ++ snd y
    ∧ forallb dot mid = true ∧ (d = [] ∨ d = ["."])
    ∧ forallb is_space w = true.
Proof.
  unfold match_at, re_see_details. intros H.
  rewrite exec_cat_cons in H. apply exec_Bol_inv in H as [-> H].
  rewrite exec_cat_cons in H.
  apply (exec_lits_inv (str "See")) in H as (a1 & -> & H).
  rewrite exec_cat_cons in H. apply exec_WordB_inv in H as [_ H].
  rewrite exec_cat_cons in H. apply exec_Star_inv in H as (mid & a2 & -> & Hmid & H).
  rewrite exec_cat_cons in H. apply exec_WordB_inv in H as [_ H].
  rewrite exec_cat_cons in H.
  apply (exec_lits_inv (str "for details")) in H as (a3 & -> & H).
  rewrite exec_cat_cons in H. apply exec_Opt_Lit_inv in H as (d & a4 & -> & Hd & H).
  rewrite exec_cat_cons in H. apply exec_Star_inv in H as (w & a5 & -> & Hw & H).
  rewrite exec_cat_nil in H. injection H as <- _.
  split; [done|]. by exists mid, d, w.
Qed.

(** The removal of one leading occurrence: what [re.sub] with [count=1]
    takes away is a prefix of the shape [See ... for details[.]] with the
    whitespace after it, or nothing. *)
Lemma see_details_removed t :
  ∃ m rest, t = m ++ rest ∧ re_sub_count re_see_details [] t 1 = rest
    ∧ (m = [] ∨ ∃ mid d w,
         m = str "See" ++ mid ++ str "for details" ++ d ++ w
         ∧ forallb dot mid = true ∧ (d = [] ∨ d = ["."])
         ∧ forallb is_space w = true).
Proof.
  unfold re_sub_count.
  destruct (match_at re_see_details ([], t)) as [[y cs]|] eqn:Hm.
  - pose proof Hm as Hinv. apply see_details_inv in Hinv as (_ & mid & d & w & Ht & Hmid & Hd & Hw).
    exists (str "See" ++ mid ++ str "for details" ++ d ++ w), (snd y).
    split; [by rewrite Ht, <- !app_assoc|]. split.
    + rewrite Ht. 
      replace (str "See" ++ mid ++ str "for details" ++ d ++ w ++ snd y)
        with ((str "See" ++ mid ++ str "for details" ++ d ++ w) ++ snd y)
        by (by rewrite <- !app_assoc).
      erewrite sub_loop_match; [|done|done| |done].
      * simpl. by rewrite sub_loop_done.
      * rewrite <- !app_assoc, <- Ht. exact Hm.
    + right. by exists mid, d, w.
  - exists [], t. split; [done|]. split; [|by left].
    rewrite <- (app_nil_r t) at 1. rewrite sub_loop_nomatch.
    + simpl. by rewrite app_nil_r.
    + intros u1 u2 -> Hne. rewrite !app_nil_r.
      destruct u1 as [|c u1]; [exact Hm|].
      destruct (match_at re_see_details (rev (c :: u1), u2)) as [[y cs]|] eqn:H;
        [|done].
      apply see_details_inv in H as [Hb _]. simpl in Hb.
      by destruct (rev u1).
Qed.

(** Two ways of cutting one text: a character that does not occur in the
    right part of the second cut lies in its left part. *)
Lemma cut_before {A} (c : A) L1 : ∀ R1 L2 R2,
  L1 ++ c :: R1 = L2 ++ R2 → c ∉ R2 →
  ∃ u, L2 = L1 ++ c :: u ∧ R1 = u ++ R2.
Proof.
  induction L1 as [|x L1 IH]; intros R1 L2 R2 E Hc.
  - destruct L2 as [|y L2]; simpl in E.
    + exfalso. apply Hc. rewrite <- E. left.
    + injection E as <- ->. by exists L2.
  - destruct L2 as [|y L2]; simpl in E.
    + exfalso. apply Hc. rewrite <- E. right. apply elem_of_app. right. left.
    + injection E as <- E. destruct (IH _ _ _ E Hc) as (u & -> & ->). by exists u.
Qed.

Lemma cut_shorter {A} (X : list A) : ∀ rest Y tail,
  X ++ rest = Y ++ tail → length X ≤ length Y → ∃ v, rest = v ++ tail.
Proof.
  induction X as [|x X IH]; intros rest Y tail E Hl.
  - exists Y. done.
  - destruct Y as [|y Y]; [simpl in Hl; lia|].
    injection E as _ E. apply (IH _ _ _ E). simpl in Hl. lia.
Qed.

Lemma lstrip_keeps_tail v tail :
  tail ≠ [] → no_space tail → length tail ≤ length (lstrip (v ++ tail)).
Proof.
  intros Hne Hns. induction v as [|c v IH]; simpl.
  - destruct tail as [|z tail]; [done|]. simpl.
    rewrite (Hns z) by left. done.
  - destruct (is_space c); [done|]. simpl. rewrite length_app. lia.
Qed.

Lemma strip_keeps_tail v tail :
  tail ≠ [] → no_space tail → length tail ≤ length (strip (v ++ tail)).
Proof.
  intros Hne Hns. unfold strip.
  destruct (exists_last Hne) as (tl & z & ->).
  rewrite app_assoc, rstrip_ends_nonspace.
  - rewrite <- app_assoc. by apply lstrip_keeps_tail.
  - apply Hns. apply elem_of_app. right. left.
Qed.

Lemma spaces_last w :
  w ≠ [] → forallb is_space w = true → ∃ w' s, w = w' ++ [s] ∧ is_space s = true.
Proof.
  intros Hne Hw. destruct (exists_last Hne) as (w' & s & ->).
  exists w', s. split; [done|]. rewrite forallb_app in Hw.
  apply andb_true_iff in Hw as [_ Hw]. simpl in Hw. by rewrite andb_true_r in Hw.
Qed.

(** However the clause is matched, a tail of non-whitespace characters
    after [for details.] survives the removal. *)
Lemma see_details_keeps_tail X tail :
  no_space tail →
  ∃ v, re_sub_count re_see_details [] (str "See " ++ X ++ str " for details." ++ tail) 1
       = v ++ tail.
Proof.
  intros Hns.
  destruct (see_details_removed (str "See " ++ X ++ str " for details." ++ tail))
    as (m & rest & Ht & -> & [->|(mid & d & w & -> & _ & Hd & Hw)]).
  - exists (str "See " ++ X ++ str " for details."). simpl in Ht. rewrite <- Ht.
    by rewrite <- !app_assoc.
  - set (S := str "details." ++ tail).
    assert (HS : no_space S).
    { intros c Hc. apply elem_of_app in Hc as [Hc|Hc]; [|by apply Hns].
      vm_compute in Hc. repeat (apply elem_of_cons in Hc as [->|Hc]; [by vm_compute|]).
      by apply elem_of_nil in Hc. }
    assert (E : (str "See" ++ mid ++ str "for") ++ " " :: (str "details" ++ d ++ w ++ rest)
                = (str "See " ++ X ++ str " for ") ++ S).
    { unfold S. rewrite <- !app_assoc. rewrite <- !app_assoc in Ht. simpl in *. 
      by rewrite <- Ht. }
    apply cut_before in E as (u & _ & E).
    2:{ intros Hin. apply HS in Hin. by vm_compute in Hin. }
    destruct w as [|s0 w0].
    + change (str "details" ++ d ++ [] ++ rest)
        with (str "details" ++ d ++ rest) in E.
      rewrite (app_assoc (str "details") d rest) in E.
      unfold S in E. rewrite (app_assoc u (str "details.") tail) in E.
      apply cut_shorter in E; [done|].
      rewrite !length_app. destruct Hd as [->| ->]; simpl; lia.
    + destruct (spaces_last (s0 :: w0)) as (w' & s & Ew & Hs); [done|done|].
      rewrite Ew in E.
      assert (E' : (str "details" ++ d ++ w') ++ s :: rest = u ++ S).
      { rewrite <- E. rewrite <- !app_assoc. done. }
      apply cut_before in E' as (u' & _ & ->).
      2:{ intros Hin. apply HS in Hin. congruence. }
      exists (u' ++ str "details."). unfold S. by rewrite <- app_assoc.
Qed.

(** * [enrich_stub_actions] *)

Lemma same_but_doc_refl am : same_but_doc am am.
Proof. intros nm. destruct (am !! nm); by constructor. Qed.

Lemma same_but_doc_trans am1 am2 am3 :
  same_but_doc am1 am2 → same_but_doc am2 am3 → same_but_doc am1 am3.
Proof.
  intros H1 H2 nm. specialize (H1 nm). specialize (H2 nm).
  destruct H1 as [a a' [? ?]|]; inversion H2 as [? a'' [? ?]|]; subst;
    constructor. split; congruence.
Qed.

Lemma same_but_doc_set_doc am nm a d :
  am !! nm = Some a → same_but_doc am (<[nm := set_doc a d]> am).
Proof.
  intros Ha nm'. destruct (decide (nm = nm')) as [<-|Hne].
  - rewrite lookup_insert_eq, Ha. by constructor.
  - rewrite lookup_insert_ne by done. destruct (am !! nm'); by constructor.
Qed.

Lemma enrich_launch_same src am : same_but_doc am (enrich_launch src am).
Proof.
  unfold enrich_launch. destruct (am !! str "launch") as [a|] eqn:Ha;
    [|apply same_but_doc_refl].
  destruct (is_stub_doc _); [|apply same_but_doc_refl].
  destruct (launch_options_spec src) as [spec|e]; [|apply same_but_doc_refl].
  destruct (parse_options_spec spec); [apply same_but_doc_refl|].
  by apply same_but_doc_set_doc.
Qed.

Lemma shortcut_step_same am item am' :
  shortcut_step am item = Ok am' → same_but_doc am am'.
Proof.
  unfold shortcut_step. destruct item as [nm mappings].
  destruct (am !! nm) as [a|] eqn:Ha.
  - destruct (is_stub_doc _).
    + destruct mappings as [|lt ms]; [done|].
      destruct (truthy lt && negb (is_stub_doc lt)); intros [= <-];
        [by apply same_but_doc_set_doc|apply same_but_doc_refl].
    + intros [= <-]. apply same_but_doc_refl.
  - intros [= <-]. apply same_but_doc_refl.
Qed.

Lemma enrich_shortcuts_same items : ∀ am am',
  enrich_shortcuts items am = Ok am' → same_but_doc am am'.
Proof.
  induction items as [|item items IH]; intros am am' H; simpl in H.
  - injection H as <-. apply same_but_doc_refl.
  - destruct (shortcut_step am item) as [am1|e] eqn:Hs; [|done].
    eapply same_but_doc_trans; [by eapply shortcut_step_same|by apply IH].
Qed.

Lemma rc_entry_same f nm a :
  name (rc_entry f nm a) = name a ∧ short (rc_entry f nm a) = short a.
Proof.
  unfold rc_entry. destruct (negb _); [done|]. by destruct (f (rc_name nm)).
Qed.

Lemma enrich_rc_same src am am' :
  enrich_rc src am = Ok am' → same_but_doc am am'.
Proof.
  unfold enrich_rc. destruct (rc_import src) as [f|[]]; intros [= <-];
    [|apply same_but_doc_refl].
  intros nm. rewrite map_lookup_imap. destruct (am !! nm) as [a|]; simpl;
    constructor. apply rc_entry_same.
Qed.

(** The pass changes [short] in its last loop only. *)
Lemma enrich_short src am am' nm a :
  enrich_stub_actions src am = Ok am' → am !! nm = Some a →
  ∃ a', am' !! nm = Some a' ∧ name a' = name a
        ∧ short a' = strip_see_short (short a).
Proof.
  unfold enrich_stub_actions. intros H Ha.
  destruct (enrich_shortcuts _ _) as [am2|] eqn:H2; [|done].
  destruct (enrich_rc src am2) as [am3|] eqn:H3; [|done].
  injection H as <-.
  assert (Hs : same_but_doc am am3).
  { eapply same_but_doc_trans; [apply enrich_launch_same|].
    eapply same_but_doc_trans; [by eapply enrich_shortcuts_same|by eapply enrich_rc_same]. }
  specialize (Hs nm). rewrite Ha in Hs. inversion Hs as [? a3 [Hn Hsh] E1 E3|]; subst.
  exists (strip_see a3). rewrite lookup_fmap, <- E3. simpl. by rewrite Hn, Hsh.
Qed.

Lemma enrich_keys src am am' nm :
  enrich_stub_actions src am = Ok am' → am !! nm = None → am' !! nm = None.
Proof.
  unfold enrich_stub_actions. intros H Ha.
  destruct (enrich_shortcuts _ _) as [am2|] eqn:H2; [|done].
  destruct (enrich_rc src am2) as [am3|] eqn:H3; [|done].
  injection H as <-.
  assert (Hs : same_but_doc am am3).
  { eapply same_but_doc_trans; [apply enrich_launch_same|].
    eapply same_but_doc_trans; [by eapply enrich_shortcuts_same|by eapply enrich_rc_same]. }
  specialize (Hs nm). rewrite Ha in Hs. inversion Hs as [|E1 E3].
  by rewrite lookup_fmap, <- E3.
Qed.


(** * The clean-up of [See] references in [short] *)

Lemma star_greedy_some {R} p (k : pos → option R) w : ∀ b a r,
  forallb p w = true → k (rev w ++ b, a) = Some r →
  ∃ r', star_greedy p k b (w ++ a) = Some r'.
Proof.
  induction w as [|c w IH]; intros b a r Hw Hk.
  - simpl in *. destruct a as [|c a]; simpl; [by eexists|].
    destruct (p c); [|by eexists].
    destruct (star_greedy p k (c :: b) a); by eexists.
  - simpl in Hw. apply andb_true_iff in Hw as [Hc Hw].
    simpl. rewrite Hc. simpl in Hk. rewrite <- app_assoc in Hk.
    destruct (IH (c :: b) a r Hw Hk) as [r' ->]. by eexists.
Qed.

Lemma exec_Plus_some p w b a cs k res :
  forallb p w = true → w ≠ [] → k (rev w ++ b, a) cs = Some res →
  ∃ res', exec (Plus true p) (b, w ++ a) cs k = Some res'.
Proof.
  intros Hw Hne Hk. destruct w as [|c w]; [done|].
  simpl in Hw. apply andb_true_iff in Hw as [Hc Hw].
  unfold Plus. change (exec (Seq ?r1 ?r2) ?x ?cs ?k)
    with (exec r1 x cs (λ y cs', exec r2 y cs' k)).
  change ((c :: w) ++ a) with (c :: (w ++ a)).
  rewrite exec_Cls_eq by done.
  apply (star_greedy_some p (λ y, k y cs) w (c :: b) a res); [done|].
  simpl in Hk. by rewrite <- app_assoc in Hk.
Qed.

Lemma exec_Eol_inv x cs k res :
  exec Eol x cs k = Some res → at_eol x = true ∧ k x cs = Some res.
Proof. simpl. by destruct (at_eol x). Qed.

Lemma exec_Opt_skip r x cs k res :
  exec r x cs k = None → k x cs = Some res → exec (Opt r) x cs k = Some res.
Proof. intros H1 H2. unfold Opt. simpl. by rewrite H1. Qed.

(** What the pattern [\.?\s*See\s+.+$] matches. *)
Lemma see_re_inv b a y cs :
  match_at see_re (b, a) = Some (y, cs) →
  ∃ d w ws X,
    a = d ++ w ++ str "See" ++ ws ++ X ++ snd y
    ∧ (d = [] ∨ d = ["."]) ∧ forallb is_space w = true
    ∧ ws ≠ [] ∧ forallb is_space ws = true
    ∧ X ≠ [] ∧ forallb dot X = true
    ∧ (snd y = [] ∨ snd y = [newline]).
Proof.
  unfold match_at, see_re. intros H.
  rewrite exec_cat_cons in H. apply exec_Opt_Lit_inv in H as (d & a1 & -> & Hd & H).
  rewrite exec_cat_cons in H. apply exec_Star_inv in H as (w & a2 & -> & Hw & H).
  rewrite exec_cat_cons in H.
  apply (exec_lits_inv (str "See")) in H as (a3 & -> & H).
  rewrite exec_cat_cons in H.
  apply exec_Plus_inv in H as (ws & a4 & -> & Hne & Hws & H).
  rewrite exec_cat_cons in H.
  apply exec_Plus_inv in H as (X & a5 & -> & HneX & HX & H).
  rewrite exec_cat_cons in H. apply exec_Eol_inv in H as [Heol H].
  rewrite exec_cat_nil in H. injection H as <- _.
  exists d, w, ws, X. repeat split; try done.
  unfold at_eol in Heol. simpl in *. destruct a5 as [|c [|c' a5]]; [by left| |done].
  right. by apply chr_eqb_eq in Heol as ->.
Qed.

(** The first position at which a pattern matches. *)
Lemma first_match r u : ∀ b v,
  (∃ res, match_at r (rev u ++ b, v) = Some res) →
  ∃ u1 u2 res, u = u1 ++ u2
    ∧ match_at r (rev u1 ++ b, u2 ++ v) = Some res
    ∧ ∀ u1' u2', u1 = u1' ++ u2' → u2' ≠ [] →
        match_at r (rev u1' ++ b, u2' ++ u2 ++ v) = None.
Proof.
  induction u as [|c u IH]; intros b v [res H].
  - exists [], [], res. repeat split; [done|]. intros [|? ?] u2' E Hne; by destruct u2'.
  - destruct (match_at r (b, (c :: u) ++ v)) as [res0|] eqn:H0.
    + exists [], (c :: u), res0. repeat split; [done|].
      intros [|? ?] u2' E Hne; by destruct u2'.
    + destruct (IH (c :: b) v) as (u1 & u2 & res1 & -> & Hm & Hno).
      { exists res. simpl in H. by rewrite <- app_assoc in H. }
      exists (c :: u1), u2, res1. repeat split.
      * simpl. by rewrite <- app_assoc.
      * intros u1' u2' E Hne. destruct u1' as [|c' u1'].
        -- simpl in *. subst u2'. simpl. rewrite <- app_assoc in H0. exact H0.
        -- injection E as <- ->. simpl. rewrite <- app_assoc. by apply Hno.
Qed.

Lemma last_not_newline (X : text) l :
  X ≠ [] → forallb dot X = true → l ++ X ≠ l ++ X ++ [newline] ∧
  ∀ m, l ++ X = m ++ [newline] → False.
Proof.
  intros Hne HX. split.
  - intros E. apply app_inv_head in E. apply (f_equal (@length _)) in E.
    rewrite length_app in E. simpl in E. lia.
  - intros m E. destruct (exists_last Hne) as (X0 & z & ->).
    rewrite app_assoc in E. apply app_inj_tail in E as [_ ->].
    rewrite forallb_app in HX. apply andb_true_iff in HX as [_ HX].
    by vm_compute in HX.
Qed.

Lemma see_prefix_inv (rest tl tl' : text) :
  rest ≠ [] → rest ++ str "See" ++ tl = str "See" ++ tl' →
  ∃ rest', rest = str "See" ++ rest'.
Proof.
  intros Hne E. destruct rest as [|c1 [|c2 [|c3 rest]]]; try done;
    simpl in E; try by (injection E; intros; subst; discriminate).
  injection E as -> -> -> _. by exists rest.
Qed.

Lemma see_clause_start (d w : text) :
  (d = [] ∨ d = ["."]) → forallb is_space w = true → "S" ∉ d ++ w.
Proof.
  intros Hd Hw Hin. apply elem_of_app in Hin as [Hin|Hin].
  - destruct Hd as [-> | ->]; [by apply elem_of_nil in Hin|].
    by apply list_elem_of_singleton in Hin.
  - rewrite forallb_forall in Hw. apply list_elem_of_In, Hw in Hin. by vm_compute in Hin.
Qed.

(** * Further lemmas *)

Lemma strip_length s : length (strip s) ≤ length s.
Proof.
  destruct (strip_split s) as (u & v & E). rewrite E at 2.
  rewrite !length_app. lia.
Qed.

Lemma strip_first_nonspace s c r : strip s = c :: r → is_space c = false.
Proof.
  unfold strip. intros E. pose proof (lstrip_head_ok (rstrip s)) as H.
  by rewrite E in H.
Qed.

Lemma rstrip_last_nonspace s r c : rstrip s = r ++ [c] → is_space c = false.
Proof.
  unfold rstrip. intros E. apply (f_equal (@rev _)) in E.
  rewrite rev_involutive, rev_app_distr in E. simpl in E.
  pose proof (lstrip_head_ok (rev s)) as H. by rewrite E in H.
Qed.

Lemma strip_last_nonspace s r c : strip s = r ++ [c] → is_space c = false.
Proof.
  unfold strip. intros E.
  destruct (lstrip_split (rstrip s)) as (u & Hu & _). rewrite E in Hu.
  rewrite app_assoc in Hu. by apply rstrip_last_nonspace in Hu.
Qed.

(** ** [is_stub_doc] *)

Lemma remove_see_details_length t : length (remove_see_details t) ≤ length t.
Proof.
  unfold remove_see_details.
  destruct (see_details_removed t) as (m & rest & E & -> & _).
  rewrite E, length_app. lia.
Qed.

Lemma remove_see_details_no_see t :
  startswith (str "See") t = false → remove_see_details t = t.
Proof.
  intros H. unfold remove_see_details.
  destruct (see_details_removed t)
    as (m & rest & E & -> & [->|(mid & d & w & -> & _)]); [done|].
  rewrite E in H. rewrite <- app_assoc in H.
  by rewrite (startswith_app (str "See")) in H.
Qed.

(** ** [enrich_stub_actions] *)

Lemma keeps_real_docs_refl am : keeps_real_docs am am.
Proof. by intros nm a. Qed.

Lemma keeps_real_docs_trans am1 am2 am3 :
  keeps_real_docs am1 am2 → keeps_real_docs am2 am3 → keeps_real_docs am1 am3.
Proof. intros H1 H2 nm a Ha Hs. apply H2; [|done]. by apply H1. Qed.

Lemma keeps_real_docs_set_doc am nm a d :
  am !! nm = Some a → is_stub_doc (Some (doc a)) = true →
  keeps_real_docs am (<[nm := set_doc a d]> am).
Proof.
  intros Ha Hs nm' a' Ha' Hs'. destruct (decide (nm = nm')) as [<-|Hne].
  - rewrite Ha in Ha'. injection Ha' as <-. congruence.
  - by rewrite lookup_insert_ne.
Qed.

Lemma enrich_launch_keeps src am : keeps_real_docs am (enrich_launch src am).
Proof.
  unfold enrich_launch. destruct (am !! str "launch") as [a|] eqn:Ha;
    [|apply keeps_real_docs_refl].
  destruct (is_stub_doc _) eqn:Hs; [|apply keeps_real_docs_refl].
  destruct (launch_options_spec src) as [spec|e]; [|apply keeps_real_docs_refl].
  destruct (parse_options_spec spec); [apply keeps_real_docs_refl|].
  by apply keeps_real_docs_set_doc.
Qed.

Lemma shortcut_step_keeps am item am' :
  shortcut_step am item = Ok am' → keeps_real_docs am am'.
Proof.
  unfold shortcut_step. destruct item as [nm mappings].
  destruct (am !! nm) as [a|] eqn:Ha.
  - destruct (is_stub_doc _) eqn:Hs.
    + destruct mappings as [|lt ms]; [done|].
      destruct (truthy lt && negb (is_stub_doc lt)); intros [= <-];
        [by apply keeps_real_docs_set_doc|apply keeps_real_docs_refl].
    + intros [= <-]. apply keeps_real_docs_refl.
  - intros [= <-]. apply keeps_real_docs_refl.
Qed.

Lemma enrich_shortcuts_keeps items : ∀ am am',
  enrich_shortcuts items am = Ok am' → keeps_real_docs am am'.
Proof.
  induction items as [|item items IH]; intros am am' H; simpl in H.
  - injection H as <-. apply keeps_real_docs_refl.
  - destruct (shortcut_step am item) as [am1|e] eqn:Hs; [|done].
    eapply keeps_real_docs_trans; [by eapply shortcut_step_keeps|by apply IH].
Qed.

Lemma enrich_rc_keeps src am am' :
  enrich_rc src am = Ok am' → keeps_real_docs am am'.
Proof.
  unfold enrich_rc. destruct (rc_import src) as [f|[]]; intros [= <-];
    [|apply keeps_real_docs_refl].
  intros nm a Ha Hs. rewrite map_lookup_imap, Ha. simpl.
  unfold rc_entry. by rewrite Hs.
Qed.

Lemma enrich_same src am am' :
  enrich_stub_actions src am = Ok am' →
  ∃ am3, am' = strip_see <$> am3 ∧ same_but_doc am am3 ∧ keeps_real_docs am am3.
Proof.
  unfold enrich_stub_actions. intros H.
  destruct (enrich_shortcuts _ _) as [am2|] eqn:H2; [|done].
  destruct (enrich_rc src am2) as [am3|] eqn:H3; [|done].
  injection H as <-. exists am3. split; [done|]. split.
  - eapply same_but_doc_trans; [apply enrich_launch_same|].
    eapply same_but_doc_trans; [by eapply enrich_shortcuts_same|by eapply enrich_rc_same].
  - eapply keeps_real_docs_trans; [apply enrich_launch_keeps|].
    eapply keeps_real_docs_trans; [by eapply enrich_shortcuts_keeps|by eapply enrich_rc_keeps].
Qed.

Lemma enrich_shortcuts_app items1 items2 am :
  enrich_shortcuts (items1 ++ items2) am
  = match enrich_shortcuts items1 am with
    | Ok am1 => enrich_shortcuts items2 am1
    | Raise e => Raise e
    end.
Proof.
  revert am. induction items1 as [|item items1 IH]; intros am; simpl; [done|].
  by destruct (shortcut_step am item).
Qed.

Lemma enrich_shortcuts_raises items : ∀ am e,
  enrich_shortcuts items am = Raise e → e = IndexError.
Proof.
  induction items as [|[nm ms] items IH]; intros am e H; simpl in H; [done|].
  destruct (am !! nm) as [a|]; [|by eapply IH].
  destruct (is_stub_doc _); [|by eapply IH].
  destruct ms as [|lt ms]; [by injection H|].
  destruct (truthy lt && negb (is_stub_doc lt)); by eapply IH.
Qed.

(** ** The clean-up of [See] references *)

Lemma see_start_inv d res :
  re_match re_see_start d = Some res →
  ∃ rest, d = str "See" ++ rest ∧ stops is_word rest.
Proof.
  unfold re_match, match_at, re_see_start. intros H.
  rewrite exec_cat_cons in H. apply exec_Bol_inv in H as [_ H].
  rewrite exec_cat_cons in H.
  apply (exec_lits_inv (str "See")) in H as (rest & -> & H).
  rewrite exec_cat_cons in H. apply exec_WordB_inv in H as [Hb _].
  exists rest. split; [done|]. unfold at_word_boundary in Hb. simpl in Hb.
  destruct rest as [|c rest]; [done|]. simpl. by destruct (is_word c).
Qed.

(** Either a pattern matches at no position of [u], or there is a first
    position where it does. *)
Lemma first_match_or_none r u : ∀ b v,
  (∀ u1 u2, u = u1 ++ u2 → u2 ≠ [] → match_at r (rev u1 ++ b, u2 ++ v) = None)
  ∨ ∃ u1 u2 res, u = u1 ++ u2 ∧ u2 ≠ []
      ∧ match_at r (rev u1 ++ b, u2 ++ v) = Some res
      ∧ ∀ u1' u2', u1 = u1' ++ u2' → u2' ≠ [] →
          match_at r (rev u1' ++ b, u2' ++ u2 ++ v) = None.
Proof.
  induction u as [|c u IH]; intros b v.
  - left. intros u1 u2 E Hne. by destruct u1, u2.
  - destruct (match_at r (b, (c :: u) ++ v)) as [res0|] eqn:H0.
    + right. exists [], (c :: u), res0. repeat split; [done|done|].
      intros [|? ?] u2' E Hne; by destruct u2'.
    + destruct (IH (c :: b) v) as [Hno|(u1 & u2 & res & -> & Hne & Hm & Hno)].
      * left. intros [|c' u1] u2 E Hne.
        -- simpl in E. subst u2. exact H0.
        -- injection E as <- ->. simpl. rewrite <- app_assoc. by apply Hno.
      * right. exists (c :: u1), u2, res. repeat split; [done| |].
        -- simpl. by rewrite <- app_assoc.
        -- intros u1' u2' E Hne'. destruct u1' as [|c' u1'].
           ++ simpl in *. subst u2'. simpl. rewrite <- app_assoc in H0. exact H0.
           ++ injection E as <- ->. simpl. rewrite <- app_assoc. by apply Hno.
Qed.

Lemma strip_app_spaces p w : forallb is_space w = true → strip (p ++ w) = strip p.
Proof.
  intros Hw. unfold strip, rstrip. rewrite rev_app_distr, lstrip_spaces; [done|].
  apply forallb_forall. intros x Hx. apply in_rev in Hx.
  rewrite forallb_forall in Hw. by apply Hw.
Qed.

Lemma see_re_needs b a : "S" ∉ a → match_at see_re (b, a) = None.
Proof. intros H. apply (needs_sound "S"); [by vm_compute|done]. Qed.

(** The clean-up of [short] only cuts the text off and trims it. *)
Lemma strip_see_short_cut s :
  ∃ p0 rest, s = p0 ++ rest ∧ strip_see_short s = strip p0
    ∧ (rest = [] ∨ ∃ clause tail, rest = clause ++ tail ∧ see_clause clause
                                  ∧ (tail = [] ∨ tail = [newline])).
Proof.
  unfold strip_see_short, re_sub, re_sub_count.
  destruct (first_match_or_none see_re s [] [])
    as [Hno|(u1 & u2 & [y cs] & -> & Hne & Hm & Hno)].
  - exists s, []. rewrite app_nil_r. split; [done|]. split; [|by left].
    f_equal. rewrite <- (app_nil_r s) at 1. rewrite sub_loop_nomatch by done.
    simpl. by rewrite app_nil_r.
  - rewrite (app_nil_r u2) in Hm. pose proof Hm as Hinv.
    apply see_re_inv in Hinv
      as (d & w & ws & X & E & Hd & Hw & Hnws & Hws & HnX & HX & Hy).
    exists u1, u2. split; [done|]. split.
    + rewrite sub_loop_nomatch
        by (intros u1' u2' E' Hne'; rewrite <- (app_nil_r u2); by apply Hno).
      rewrite E in Hm |- *.
      replace (d ++ w ++ str "See" ++ ws ++ X ++ y.2)
        with ((d ++ w ++ str "See" ++ ws ++ X) ++ y.2) in Hm |- *
        by (by rewrite <- !app_assoc).
      erewrite sub_loop_match; [|done|by destruct d, w|exact Hm|done].
      destruct Hy as [-> | ->].
      * simpl. by rewrite app_nil_r.
      * cbn [sub_loop may_replace Nat.eqb orb]. rewrite see_re_needs.
        -- simpl. by rewrite strip_app_spaces.
        -- by intros ?%list_elem_of_singleton.
    + right. exists (d ++ w ++ str "See" ++ ws ++ X), y.2.
      split; [by rewrite E, <- !app_assoc|]. split; [|done].
      by exists d, w, ws, X.
Qed.

Lemma strip_see_short_no_match s :
  contains (str "See") s = false → strip_see_short s = strip s.
Proof.
  intros H. unfold strip_see_short. f_equal. apply re_sub_nomatch.
  intros u v ->. destruct (match_at see_re (rev u, v)) as [[y cs]|] eqn:Hm; [|done].
  apply see_re_inv in Hm as (d & w & ws & X & E & _).
  apply contains_false_app in H as [_ H]. rewrite E in H.
  assert (Ht : contains (str "See") (d ++ w ++ str "See" ++ ws ++ X ++ y.2) = true).
  { apply contains_spec. exists (d ++ w), (ws ++ X ++ y.2). by rewrite <- !app_assoc. }
  congruence.
Qed.

(** ** Lines *)

Lemma elem_of_rev {A} (x : A) l : x ∈ rev l → x ∈ l.
Proof. intros H. apply list_elem_of_In, in_rev. by apply list_elem_of_In. Qed.

Lemma split_go_one_line p : ∀ cur,
  one_line p → split_go [newline] 0 cur p = [rev cur ++ p].
Proof.
  induction p as [|c p IH]; intros cur Hp.
  - simpl. by rewrite app_nil_r.
  - apply not_elem_of_cons in Hp as [Hc Hp].
    cbn [split_go startswith]. rewrite andb_true_r.
    rewrite (proj2 (chr_eqb_neq newline c)) by done.
    rewrite IH by done. simpl. by rewrite <- app_assoc.
Qed.

Lemma split_str_one_line p : one_line p → split_str [newline] p = [p].
Proof. apply (split_go_one_line p []). Qed.

Lemma split_join_lines ls :
  ls ≠ [] → Forall one_line ls → split_str [newline] (join [newline] ls) = ls.
Proof.
  intros Hne Hall. induction Hall as [|p ls Hp Hall IH]; [done|].
  destruct ls as [|q ls].
  - simpl. by apply split_str_one_line.
  - change (join [newline] (p :: q :: ls)) with (p ++ newline :: join [newline] (q :: ls)).
    rewrite split_str_newline_app, split_str_one_line by done.
    by rewrite IH.
Qed.

Lemma split_go_lines a : ∀ cur p,
  p ∈ split_go [newline] 0 cur a → one_line cur → one_line p.
Proof.
  induction a as [|c a IH]; intros cur p Hin Hcur.
  - simpl in Hin. apply list_elem_of_singleton in Hin as ->.
    intros H. apply Hcur. by apply elem_of_rev.
  - cbn [split_go startswith] in Hin. rewrite andb_true_r in Hin.
    destruct (chr_eqb newline c) eqn:Hc.
    + apply elem_of_cons in Hin as [->|Hin].
      * intros H. apply Hcur. by apply elem_of_rev.
      * simpl in Hin. apply (IH [] p Hin). by intros ?%elem_of_nil.
    + apply (IH (c :: cur) p Hin). apply chr_eqb_neq in Hc.
      intros [E|H]%elem_of_cons; [done|by apply Hcur].
Qed.

Lemma spec_lines_one_line spec : Forall one_line (spec_lines spec).
Proof.
  destruct spec as [s|]; [|constructor]. apply Forall_forall. intros p Hp.
  apply (split_go_lines s [] p Hp). by intros ?%elem_of_nil.
Qed.

Lemma join_elem sep parts c :
  c ∈ join sep parts → c ∈ sep ∨ ∃ p, p ∈ parts ∧ c ∈ p.
Proof.
  induction parts as [|p [|q parts] IH]; simpl.
  - by intros ?%elem_of_nil.
  - intros H. right. exists p. split; [left|done].
  - intros H. apply elem_of_app in H as [H|H].
    + right. exists p. split; [left|done].
    + apply elem_of_app in H as [H|H]; [by left|].
      destruct (IH H) as [?|(p' & Hp' & Hc)]; [by left|].
      right. exists p'. split; [by right|done].
Qed.

Lemma words_go_no_space a : ∀ cur w,
  w ∈ words_go cur a → no_space cur → no_space w.
Proof.
  induction a as [|c a IH]; intros cur w Hin Hcur.
  - simpl in Hin. destruct cur as [|x cur]; [by apply elem_of_nil in Hin|].
    apply list_elem_of_singleton in Hin as ->.
    intros y Hy. apply Hcur. by apply elem_of_rev.
  - simpl in Hin. destruct (is_space c) eqn:Hc.
    + destruct cur as [|x cur].
      * by apply (IH [] w Hin).
      * apply elem_of_cons in Hin as [->|Hin].
        -- intros y Hy. apply Hcur. by apply elem_of_rev.
        -- apply (IH [] w Hin). by intros ? ?%elem_of_nil.
    + apply (IH (c :: cur) w Hin).
      intros y [->|Hy]%elem_of_cons; [done|by apply Hcur].
Qed.

Lemma join_words_one_line sep s :
  one_line sep → one_line (join sep (split_ws s)).
Proof.
  intros Hsep Hin. apply join_elem in Hin as [Hin|(w & Hw & Hc)]; [done|].
  apply words_go_no_space in Hw; [|by intros ? ?%elem_of_nil].
  by specialize (Hw newline Hc).
Qed.

Lemma split_go_elem sep a : ∀ skip cur p c,
  p ∈ split_go sep skip cur a → c ∈ p → c ∈ cur ∨ c ∈ a.
Proof.
  induction a as [|x a IH]; intros skip cur p c Hin Hc.
  - simpl in Hin. apply list_elem_of_singleton in Hin as ->.
    left. by apply elem_of_rev.
  - cbn [split_go] in Hin. destruct skip as [|skip].
    + destruct (startswith sep (x :: a)).
      * apply elem_of_cons in Hin as [->|Hin].
        -- left. by apply elem_of_rev.
        -- destruct (IH _ _ _ _ Hin Hc) as [H|H]; [by apply elem_of_nil in H|].
           right. by right.
      * destruct (IH _ _ _ _ Hin Hc) as [H|H].
        -- apply elem_of_cons in H as [->|H]; [right; left|by left].
        -- right. by right.
    + destruct (IH _ _ _ _ Hin Hc) as [H|H]; [by left|right; by right].
Qed.

Lemma strip_elem c s : c ∈ strip s → c ∈ s.
Proof.
  destruct (strip_split s) as (u & v & E). intros H. rewrite E.
  rewrite !elem_of_app. right. by left.
Qed.

Lemma strip_one_line s : one_line s → one_line (strip s).
Proof. intros H Hin. by apply H, strip_elem. Qed.

Lemma trim_prefix p : ∃ tail, p = trim_to_first_sentence p ++ tail.
Proof.
  unfold trim_to_first_sentence. destruct (120 <? length p)%nat;
    [|exists []; by rewrite app_nil_r].
  destruct (re_match re_first_sentence p) as [[y cs]|] eqn:Hm;
    [|exists []; by rewrite app_nil_r].
  pose proof Hm as Hinv. unfold re_match, match_at, re_first_sentence in Hinv.
  rewrite exec_cat_cons, exec_Group_eq, exec_cat_cons in Hinv.
  apply exec_Plus_inv in Hinv as (w & a & -> & Hne & Hw & H).
  rewrite exec_cat_cons in H. apply exec_Lit_inv in H as (a1 & -> & H).
  rewrite exec_cat_nil, exec_cat_cons in H.
  apply exec_Cls_inv in H as (c & rest & -> & Hc & _).
  destruct (first_sentence_match w c rest Hne) as (y' & cs' & Hm' & Hg);
    [by apply forallb_not_chr|done|].
  rewrite Hm in Hm'. injection Hm' as <- <-. rewrite Hg.
  exists (c :: rest). by rewrite <- app_assoc.
Qed.

Lemma trim_one_line p : one_line p → one_line (trim_to_first_sentence p).
Proof.
  intros Hp Hin. destruct (trim_prefix p) as [tail E]. apply Hp. rewrite E.
  apply elem_of_app. by left.
Qed.

Lemma desc_one_line_one_line ls :
  one_line (trim_to_first_sentence (desc_one_line ls)).
Proof.
  apply trim_one_line. unfold desc_one_line. apply join_words_one_line.
  by vm_compute; intros ?%list_elem_of_singleton.
Qed.

Lemma one_line_app u v : one_line u → one_line v → one_line (u ++ v).
Proof. intros Hu Hv [H|H]%elem_of_app; [by apply Hu|by apply Hv]. Qed.

Lemma one_line_lit (t : text) : forallb dot t = true → one_line t.
Proof. intros H. by apply forallb_not_chr. Qed.

Lemma flush_flags_one_line st flags :
  one_line flags → (∀ k v, current_meta st !! k = Some v → one_line v) →
  one_line (flush_flags st flags).
Proof.
  intros Hf Hm. unfold flush_flags, meta_truthy.
  destruct (current_meta st !! str "choices") as [v|] eqn:Hv;
    cbn [truthy default from_option id].
  - destruct v as [|c v]; cbn [truthy default from_option id].
    + case_bool_decide; [|done]. apply one_line_app; [done|by apply one_line_lit].
    + apply one_line_app; [done|]. apply one_line_app; [by apply one_line_lit|].
      intros Hin. apply join_elem in Hin as [Hin|(p & Hp & Hc)].
      * by apply list_elem_of_singleton in Hin.
      * destruct (split_go_elem _ _ _ _ _ _ Hp Hc) as [H|H];
          [by apply elem_of_nil in H|].
        by apply (Hm _ _ Hv).
  - case_bool_decide; [|done]. apply one_line_app; [done|by apply one_line_lit].
Qed.

Lemma flush_desc_one_line st :
  (∀ k v, current_meta st !! k = Some v → one_line v) → one_line (flush_desc st).
Proof.
  intros Hm. unfold flush_desc, meta_truthy.
  destruct (current_meta st !! str "default") as [v|] eqn:Hv;
    cbn [truthy default from_option id].
  - destruct v as [|c v]; cbn [truthy default from_option id];
      [apply desc_one_line_one_line|].
    apply one_line_app; [apply desc_one_line_one_line|].
    apply one_line_app; [by apply one_line_lit|].
    apply one_line_app; [by apply (Hm _ _ Hv)|by apply one_line_lit].
  - apply desc_one_line_one_line.
Qed.

Lemma flush_lines_inv st : lines_inv st → lines_inv (flush st).
Proof.
  intros (He & Hf & Hm). destruct st as [e [f|] m d]; unfold flush; simpl in *;
    [|done].
  split; [|done]. apply Forall_app. split; [done|].
  constructor; [|constructor]. simpl. split.
  - apply flush_flags_one_line; [by apply Hf|done].
  - by apply flush_desc_one_line.
Qed.

Lemma step_lines_inv st l : one_line l → lines_inv st → lines_inv (step st l).
Proof.
  intros Hl Hst. unfold step. case_bool_decide; [done|].
  destruct (is_flag_line l).
  { destruct (flush_lines_inv st Hst) as (He & _ & _).
    split; [done|]. split.
    - intros f [= <-]. apply join_words_one_line.
      intros [E|Hin]%elem_of_cons; [done|].
      by apply list_elem_of_singleton in Hin.
    - intros k v. cbn [current_meta]. by rewrite lookup_empty. }
  destruct Hst as (He & Hf & Hm).
  destruct (bool_decide (current_flags st ≠ None) && is_meta_line l).
  - destruct (partition_chr "=" (strip l)) as [[key m] val] eqn:Hp.
    split; [done|]. split; [done|]. cbn [current_meta]. intros k v.
    destruct (decide (key = k)) as [<-|Hne].
    + rewrite lookup_insert_eq. intros [= <-].
      apply partition_chr_spec in Hp as [[E _]|(_ & _ & ->)];
        [|by intros ?%elem_of_nil].
      intros Hin. apply (strip_one_line l Hl). rewrite E.
      apply elem_of_app. right. by right.
    + rewrite lookup_insert_ne by done. apply Hm.
  - by case_bool_decide.
Qed.

Lemma foldl_step_lines_inv ls : ∀ st,
  Forall one_line ls → lines_inv st → lines_inv (foldl step st ls).
Proof.
  induction ls as [|l ls IH]; intros st Hls Hst; [done|].
  apply Forall_cons in Hls as [Hl Hls]. simpl.
  apply IH; [done|]. by apply step_lines_inv.
Qed.

Lemma entry_lines_one_line e :
  one_line (fst e) → one_line (snd e) → Forall one_line (entry_lines e).
Proof.
  intros H1 H2. unfold entry_lines. constructor.
  - apply one_line_app; [by apply one_line_lit|done].
  - destruct (truthy _); constructor; [|constructor].
    apply one_line_app; [by apply one_line_lit|done].
Qed.

Lemma split_go_head a : ∀ cur,
  ∃ p B, split_go [newline] 0 cur a = (rev cur ++ p) :: B.
Proof.
  induction a as [|c a IH]; intros cur.
  - exists [], []. simpl. by rewrite app_nil_r.
  - cbn [split_go startswith]. rewrite andb_true_r.
    destruct (chr_eqb newline c).
    + exists [], (split_go [newline] (length [newline] - 1) [] a). by rewrite app_nil_r.
    + destruct (IH (c :: cur)) as (p & B & ->). exists (c :: p), B.
      simpl. by rewrite <- app_assoc.
Qed.

Lemma split_flag_first s :
  is_flag_line s = true →
  ∃ f B, split_str [newline] s = f :: B ∧ is_flag_line f = true.
Proof.
  intros H. apply startswith_inv in H as [s' ->].
  destruct (split_go_head s' ["-"; "-"]) as (p & B & E).
  exists (str "--" ++ p), B. split; [exact E|]. apply (startswith_app (str "--")).
Qed.

Lemma parse_lines_placeholder A l B :
  strip l = placeholder → parse_lines (A ++ l :: B) = parse_lines (A ++ B).
Proof.
  intros Hl. unfold parse_lines. rewrite !foldl_app. simpl.
  unfold step at 2. by rewrite bool_decide_eq_true_2.
Qed.

(** ** [extract_values]: what the values are *)

Lemma first_seen_elem x l : x ∈ first_seen l → x ∈ l.
Proof.
  revert x. induction l as [|y l IH]; intros x; simpl; [done|].
  intros [->|H]%elem_of_cons; [left|]. right.
  apply list_elem_of_filter in H as [_ H]. by apply IH.
Qed.

Lemma first_seen_NoDup l : NoDup (first_seen l).
Proof.
  induction l as [|y l IH]; simpl; constructor.
  - intros H. by apply list_elem_of_filter in H as [H _].
  - by apply NoDup_filter.
Qed.

Lemma consumed_after w b a a' : consumed (b, a) (rev w ++ b, a') = w.
Proof.
  unfold consumed. cbn [fst]. rewrite length_app, length_rev.
  replace (length w + length b - length b) with (length (rev w))
    by (rewrite length_rev; lia).
  rewrite take_app_length. apply rev_involutive.
Qed.

(** Every text that [re.findall] returns is group 1 of a match at some
    position of the subject. *)
Lemma findall_loop_elem r a : ∀ skip b x,
  x ∈ findall_loop r skip b a →
  ∃ u v y cs, a = u ++ v ∧ match_at r (rev u ++ b, v) = Some (y, cs)
              ∧ x = get_group 1 cs.
Proof.
  induction a as [|c a IH]; intros skip b x Hin; [by apply elem_of_nil in Hin|].
  assert (Hrec : ∀ skip', x ∈ findall_loop r skip' (c :: b) a →
            ∃ u v y cs, c :: a = u ++ v
              ∧ match_at r (rev u ++ b, v) = Some (y, cs) ∧ x = get_group 1 cs).
  { intros skip' H. apply IH in H as (u & v & y & cs & -> & Hm & Hx).
    exists (c :: u), v, y, cs. split; [done|]. split; [|done].
    simpl. by rewrite <- app_assoc. }
  cbn [findall_loop] in Hin. destruct skip as [|skip]; [|by eapply Hrec].
  destruct (match_at r (b, c :: a)) as [[y cs]|] eqn:Hm; [|by eapply Hrec].
  apply elem_of_cons in Hin as [->|Hin]; [|by eapply Hrec].
  by exists [], (c :: a), y, cs.
Qed.

Lemma code_token_inv b a y cs :
  match_at re_code_token (b, a) = Some (y, cs) →
  ∃ g, a = str ":code:`" ++ g ++ backtick :: snd y
       ∧ g ≠ [] ∧ (backtick ∉ g) ∧ get_group 1 cs = g.
Proof.
  unfold match_at, re_code_token. intros H.
  rewrite exec_cat_cons in H.
  apply (exec_lits_inv (str ":code:`")) in H as (a1 & -> & H).
  rewrite exec_cat_cons, exec_Group_eq in H.
  apply exec_Plus_inv in H as (g & a2 & -> & Hne & Hg & H).
  rewrite exec_cat_cons in H. apply exec_Lit_inv in H as (a3 & -> & H).
  rewrite exec_cat_nil in H. injection H as <- <-.
  exists g. split; [done|]. split; [done|]. split; [by apply forallb_not_chr|].
  unfold get_group. cbn [List.find fst snd Nat.eqb]. apply consumed_after.
Qed.

(** What [re.search] returns stands in the subject. *)
Lemma scan_sound r a : ∀ b x y cs,
  scan r b a = Some (x, (y, cs)) → ∃ u v, a = u ++ consumed x y ++ v.
Proof.
  induction a as [|c a IH]; intros b x y cs H; cbn [scan] in H.
  - destruct (match_at r (b, [])) as [[y' cs']|] eqn:Hm; [|done].
    injection H as <- <- <-. apply match_at_sound in Hm as (w & Ha & Hb).
    simpl in Ha, Hb. exists [], (snd y'). rewrite (surjective_pairing y'), Hb.
    simpl. by rewrite consumed_after.
  - destruct (match_at r (b, c :: a)) as [[y' cs']|] eqn:Hm.
    + injection H as <- <- <-. apply match_at_sound in Hm as (w & Ha & Hb).
      simpl in Ha, Hb. exists [], (snd y'). rewrite (surjective_pairing y'), Hb.
      simpl. by rewrite consumed_after.
    + apply IH in H as (u & v & ->). by exists (c :: u), v.
Qed.

Lemma re_search_sound r s m : re_search r s = Some m → ∃ u v, s = u ++ m ++ v.
Proof.
  unfold re_search. destruct (scan r [] s) as [[x [y cs]]|] eqn:H; [|done].
  intros [= <-]. by eapply scan_sound.
Qed.

(** The first piece of a split is a prefix of the text. *)
Lemma split_go_first sep a : ∀ cur,
  ∃ p rest, first_piece (split_go sep 0 cur a) = rev cur ++ p ∧ a = p ++ rest.
Proof.
  induction a as [|c a IH]; intros cur.
  - exists [], []. simpl. by rewrite app_nil_r.
  - cbn [split_go]. destruct (startswith sep (c :: a)).
    + exists [], (c :: a). simpl. by rewrite app_nil_r.
    + destruct (IH (c :: cur)) as (p & rest & -> & ->).
      exists (c :: p), rest. simpl. by rewrite <- app_assoc.
Qed.

Lemma first_paragraph_prefix t : ∃ rest, t = first_paragraph t ++ rest.
Proof.
  unfold first_paragraph, split_str.
  destruct (split_go_first two_newlines t []) as (p & rest & -> & ->).
  by exists rest.
Qed.

Lemma code_tokens_sound v sentence :
  v ∈ code_tokens sentence →
  v ≠ [] ∧ (backtick ∉ v)
  ∧ contains (str ":code:`" ++ v ++ [backtick]) sentence = true.
Proof.
  intros H. apply findall_loop_elem in H as (u & w & y & cs & E & Hm & ->).
  apply code_token_inv in Hm as (g & -> & Hne & Hg & ->).
  split; [done|]. split; [done|]. apply contains_spec.
  exists u, (snd y). rewrite E. by rewrite <- !app_assoc.
Qed.

(** ** The first paragraph *)

Lemma split_go_nosep sep p : ∀ cur tail,
  (∀ p1 p2, p = p1 ++ p2 → p2 ≠ [] → startswith sep (p2 ++ tail) = false) →
  split_go sep 0 cur (p ++ tail) = split_go sep 0 (rev p ++ cur) tail.
Proof.
  induction p as [|c p IH]; intros cur tail H; [done|].
  change ((c :: p) ++ tail) with (c :: (p ++ tail)). cbn [split_go].
  pose proof (H [] (c :: p) eq_refl ltac:(done)) as H0.
  change ((c :: p) ++ tail) with (c :: (p ++ tail)) in H0. rewrite H0.
  rewrite IH.
  - simpl. by rewrite <- app_assoc.
  - intros p1 p2 -> Hne. by apply (H (c :: p1) p2).
Qed.

Lemma two_newlines_inside p tail :
  contains two_newlines (p ++ [newline]) = false →
  (tail = [] ∨ ∃ rest, tail = two_newlines ++ rest) →
  ∀ p1 p2, p = p1 ++ p2 → p2 ≠ [] → startswith two_newlines (p2 ++ tail) = false.
Proof.
  intros Hc Htail p1 p2 -> Hne.
  destruct (startswith two_newlines (p2 ++ tail)) eqn:Hs; [|done].
  apply startswith_inv in Hs as [x Hx]. exfalso.
  assert (Ht : contains two_newlines ((p1 ++ p2) ++ [newline]) = true); [|congruence].
  apply contains_spec. destruct p2 as [|c1 [|c2 p2]]; [done| |].
  - destruct Htail as [->|[rest ->]]; [done|]. injection Hx as -> _.
    exists p1, []. by rewrite <- app_assoc.
  - injection Hx as -> -> _. exists p1, (p2 ++ [newline]).
    by rewrite <- !app_assoc.
Qed.

Lemma first_paragraph_cut p rest :
  contains two_newlines (p ++ [newline]) = false →
  first_paragraph (p ++ two_newlines ++ rest) = p ∧ first_paragraph p = p.
Proof.
  intros Hc. unfold first_paragraph, split_str. split.
  - rewrite split_go_nosep
      by (apply (two_newlines_inside p); [done|right; by exists rest]).
    simpl. by rewrite app_nil_r, rev_involutive.
  - rewrite <- (app_nil_r p) at 1.
    rewrite split_go_nosep by (apply (two_newlines_inside p); [done|by left]).
    simpl. by rewrite app_nil_r, rev_involutive.
Qed.

(** ** The sentences of a text *)

Lemma split_loop_elem r a : ∀ skip cur b x,
  (skip = 0 ∨ cur = []) → x ∈ split_loop r skip cur b a →
  (∃ a2 a3, a = a2 ++ a3 ∧ x = rev cur ++ a2 ∧ skip = 0)
  ∨ (∃ a1 a2 a3, a = a1 ++ a2 ++ a3 ∧ x = a2).
Proof.
  induction a as [|c a IH]; intros skip cur b x Hsk Hin.
  - simpl in Hin. apply list_elem_of_singleton in Hin as ->.
    destruct Hsk as [->| ->].
    + left. exists [], []. by rewrite (app_nil_r (rev cur)).
    + right. by exists [], [], [].
  - assert (Hfresh : ∀ m, x ∈ split_loop r m [] (c :: b) a →
              ∃ a1 a2 a3, c :: a = a1 ++ a2 ++ a3 ∧ x = a2).
    { intros m H. apply IH in H; [|by right].
      destruct H as [(a2 & a3 & -> & -> & _)|(a1 & a2 & a3 & -> & ->)].
      - by exists [c], a2, a3.
      - by exists (c :: a1), a2, a3. }
    assert (Hcont : x ∈ split_loop r 0 (c :: cur) (c :: b) a →
              (∃ a2 a3, c :: a = a2 ++ a3 ∧ x = rev cur ++ a2 ∧ 0 = 0)
              ∨ (∃ a1 a2 a3, c :: a = a1 ++ a2 ++ a3 ∧ x = a2)).
    { intros H. apply IH in H; [|by left].
      destruct H as [(a2 & a3 & -> & -> & _)|(a1 & a2 & a3 & -> & ->)].
      - left. exists (c :: a2), a3. simpl. by rewrite <- app_assoc.
      - right. by exists (c :: a1), a2, a3. }
    cbn [split_loop] in Hin. destruct skip as [|skip].
    + destruct (match_at r (b, c :: a)) as [[y cs]|]; [|by apply Hcont].
      destruct (length (c :: a) - length (snd y)) as [|m]; [by apply Hcont|].
      apply elem_of_cons in Hin as [->|Hin].
      * left. exists [], (c :: a). by rewrite app_nil_r.
      * right. by eapply Hfresh.
    + destruct Hsk as [?| ->]; [done|]. right. by eapply Hfresh.
Qed.

Lemma sentences_inside s x : x ∈ re_split re_sentence_break s → ∃ u v, s = u ++ x ++ v.
Proof.
  unfold re_split. intros H.
  apply split_loop_elem in H; [|by left].
  destruct H as [(a2 & a3 & -> & -> & _)|(a1 & a2 & a3 & -> & ->)].
  - by exists [], a3.
  - by exists a1, a3.
Qed.

(** ** One piece of markup in plain text *)

(** A pattern that matches at one place of the subject only is replaced
    there. *)
Lemma re_sub_one r tpl pre m post cs :
  m ≠ [] →
  (∀ b u v, pre ++ m ++ post = u ++ v → u ≠ pre → match_at r (b, v) = None) →
  (∀ b, ∃ y, match_at r (b, m ++ post) = Some (y, cs) ∧ snd y = post) →
  re_sub r tpl (pre ++ m ++ post) = pre ++ expand tpl cs ++ post.
Proof.
  intros Hm Hno Hyes. unfold re_sub, re_sub_count.
  rewrite sub_loop_nomatch.
  - destruct (Hyes (rev pre ++ [])) as (y & Hy & Hs).
    erewrite sub_loop_match; [|done|done|exact Hy|exact Hs].
    do 2 f_equal. rewrite <- (app_nil_r post) at 1.
    rewrite sub_loop_nomatch; [simpl; by rewrite app_nil_r|].
    intros q1 q2 -> Hne. rewrite (app_nil_r q2).
    apply (Hno _ (pre ++ m ++ q1)); [by rewrite <- !app_assoc|].
    intros E. rewrite <- (app_nil_r pre) in E at 2.
    apply app_inv_head in E. by destruct m.
  - intros p1 p2 -> Hne. apply (Hno _ p1); [by rewrite <- app_assoc|].
    intros E. rewrite <- (app_nil_r p1) in E at 1.
    apply app_inv_head in E. by subst p2.
Qed.

Lemma first_occurrence {A} (c : A) l1 : ∀ l2 k1 k2,
  l1 ++ c :: l2 = k1 ++ c :: k2 → c ∉ l1 → c ∉ k1 → l1 = k1 ∧ l2 = k2.
Proof.
  induction l1 as [|x l1 IH]; intros l2 k1 k2 E H1 H2.
  - destruct k1 as [|y k1]; simpl in E.
    + by injection E as ->.
    + injection E as <- _. exfalso. apply H2. left.
  - apply not_elem_of_cons in H1 as [Hx H1].
    destruct k1 as [|y k1]; simpl in E.
    + by injection E as -> _.
    + injection E as -> E. apply not_elem_of_cons in H2 as [_ H2].
      destruct (IH _ _ _ E H1 H2) as [-> ->]. done.
Qed.

Lemma last_occurrence {A} (c : A) l1 l2 k1 k2 :
  l1 ++ c :: l2 = k1 ++ c :: k2 → c ∉ l2 → c ∉ k2 → l1 = k1 ∧ l2 = k2.
Proof.
  intros E H1 H2. apply (f_equal (@rev _)) in E.
  rewrite !rev_app_distr in E. simpl in E. rewrite <- !app_assoc in E. simpl in E.
  apply first_occurrence in E as [E1 E2].
  - apply (f_equal (@rev _)) in E1, E2. rewrite !rev_involutive in E1, E2. done.
  - intros H. by apply H1, elem_of_rev.
  - intros H. by apply H2, elem_of_rev.
Qed.

(** Where [:R:`G`] can stand in a text with one role and no other
    backtick. *)
Lemma role_align pre role body post u R G tail :
  pre ++ ":" :: role ++ ":" :: backtick :: body ++ backtick :: post
  = u ++ ":" :: R ++ ":" :: backtick :: G ++ backtick :: tail →
  backtick ∉ pre → backtick ∉ role → backtick ∉ body → backtick ∉ post →
  backtick ∉ R → backtick ∉ G → ":" ∉ role → ":" ∉ R →
  u = pre ∧ R = role ∧ G = body ∧ tail = post.
Proof.
  intros E Hpre Hrole Hbody Hpost HR HG Hcr HcR.
  assert (E' : (pre ++ ":" :: role ++ [":"]) ++ backtick :: body ++ backtick :: post
               = u ++ (":" :: R ++ [":"]) ++ backtick :: G ++ backtick :: tail).
  { rewrite <- !app_assoc. simpl. rewrite <- !app_assoc. exact E. }
  assert (HB1 : backtick ∉ pre ++ ":" :: role ++ [":"]).
  { rewrite !elem_of_app, !elem_of_cons, !elem_of_app, list_elem_of_singleton.
    intros [?|[?|[?|?]]]; done. }
  assert (HV1 : backtick ∉ ":" :: R ++ [":"]).
  { rewrite !elem_of_cons, !elem_of_app, list_elem_of_singleton.
    intros [?|[?|?]]; done. }
  apply app_eq_app in E' as [l [[E1 E2]|[E1 E2]]].
  - apply first_occurrence in E2 as [E2 E3]; [|done|].
    + apply first_occurrence in E3 as [-> ->]; [|done|done].
      subst l.
      change (":" :: role ++ [":"]) with ((":" :: role) ++ [":"]) in E1.
      change (":" :: R ++ [":"]) with ((":" :: R) ++ [":"]) in E1.
      rewrite !app_assoc in E1. apply app_inj_tail in E1 as [E1 _].
      apply last_occurrence in E1 as [-> ->]; done.
    + intros H. apply HB1. rewrite E1. apply elem_of_app. by right.
  - (* the position lies behind the first backtick *)
    exfalso. destruct l as [|c l].
    + simpl in E2. by injection E2.
    + injection E2 as <- E2.
      assert (E3 : body ++ backtick :: post
                   = (l ++ ":" :: R ++ [":"]) ++ backtick :: G ++ backtick :: tail)
        by (by rewrite <- app_assoc).
      apply split_at_unique in E3 as [_ E3]; [|done|done].
      apply Hpost. rewrite E3. apply elem_of_app. right. left.
Qed.

Lemma code_role_inv b a y cs :
  match_at re_code_role (b, a) = Some (y, cs) →
  ∃ R G, a = ":" :: R ++ ":" :: backtick :: G ++ backtick :: snd y
         ∧ (R = str "code" ∨ R = str "literal") ∧ (backtick ∉ G).
Proof.
  unfold match_at, re_code_role. intros H.
  rewrite exec_cat_cons in H. apply exec_Lit_inv in H as (a1 & -> & H).
  rewrite exec_cat_cons in H.
  assert (HR : ∃ R a2, a1 = R ++ a2 ∧ (R = str "code" ∨ R = str "literal")
             ∧ exec (cat [Lit ":"; Lit backtick;
                          Group 1 (Star true (not_chr backtick)); Lit backtick])
                    (rev R ++ ":" :: b, a2) [] accept = Some (y, cs)).
  { apply exec_Alt_inv in H as [H|H].
    - apply (exec_lits_inv (str "code")) in H as (a2 & -> & H).
      exists (str "code"), a2. split; [done|]. split; [by left|done].
    - apply (exec_lits_inv (str "literal")) in H as (a2 & -> & H).
      exists (str "literal"), a2. split; [done|]. split; [by right|done]. }
  destruct HR as (R & a2 & -> & HR & H').
  rewrite exec_cat_cons in H'. apply exec_Lit_inv in H' as (a3 & -> & H').
  rewrite exec_cat_cons in H'. apply exec_Lit_inv in H' as (a4 & -> & H').
  rewrite exec_cat_cons, exec_Group_eq in H'.
  apply exec_Star_inv in H' as (G & a5 & -> & HG & H').
  rewrite exec_cat_cons in H'. apply exec_Lit_inv in H' as (a6 & -> & H').
  rewrite exec_cat_nil in H'. injection H' as <- _.
  exists R, G. split; [done|]. split; [done|]. by apply forallb_not_chr.
Qed.

Lemma inline_role_inv b a y cs :
  match_at re_inline_role (b, a) = Some (y, cs) →
  ∃ R G, a = ":" :: R ++ ":" :: backtick :: G ++ backtick :: snd y
         ∧ R ≠ [] ∧ forallb is_lower R = true ∧ (backtick ∉ G).
Proof.
  unfold match_at, re_inline_role. intros H.
  rewrite exec_cat_cons in H. apply exec_Lit_inv in H as (a1 & -> & H).
  rewrite exec_cat_cons in H.
  apply exec_Plus_inv in H as (R & a2 & -> & HneR & HR & H).
  rewrite exec_cat_cons in H. apply exec_Lit_inv in H as (a3 & -> & H).
  rewrite exec_cat_cons in H. apply exec_Lit_inv in H as (a4 & -> & H).
  rewrite exec_cat_cons in H.
  apply exec_Opt_Lit_inv in H as (d & a5 & -> & Hd & H).
  rewrite exec_cat_cons, exec_Group_eq in H.
  apply exec_Star_inv in H as (G & a6 & -> & HG & H).
  rewrite exec_cat_cons in H. apply exec_Lit_inv in H as (a7 & -> & H).
  rewrite exec_cat_nil in H. injection H as <- _.
  exists R, (d ++ G). split; [by rewrite <- app_assoc|]. split; [done|].
  split; [done|]. apply forallb_not_chr in HG.
  intros [Hin|Hin]%elem_of_app; [|done].
  destruct Hd as [-> | ->]; [by apply elem_of_nil in Hin|].
  by apply list_elem_of_singleton in Hin.
Qed.

Lemma stops_backtick post : stops (not_chr backtick) (backtick :: post).
Proof. by vm_compute. Qed.

Lemma exec_group_run b G post cs :
  backtick ∉ G →
  exec (cat [Group 1 (Star true (not_chr backtick)); Lit backtick])
       (b, G ++ backtick :: post) cs accept
  = Some ((backtick :: rev G ++ b, post), (1, G) :: cs).
Proof.
  intros HG. rewrite exec_cat_cons, exec_Group_eq.
  apply exec_Star_max; [by apply forallb_not_chr|apply stops_backtick|].
  rewrite exec_cat_cons, exec_Lit_eq, exec_cat_nil. unfold accept.
  by rewrite consumed_after.
Qed.

Lemma code_role_match b R G post :
  (R = str "code" ∨ R = str "literal") → backtick ∉ G →
  ∃ y, match_at re_code_role (b, ":" :: R ++ ":" :: backtick :: G ++ backtick :: post)
       = Some (y, [(1, G)]) ∧ snd y = post.
Proof.
  intros HR HG. unfold match_at, re_code_role.
  exists (backtick :: rev G ++ backtick :: ":" :: rev R ++ ":" :: b, post).
  split; [|done].
  rewrite exec_cat_cons, exec_Lit_eq, exec_cat_cons.
  assert (Hk : exec (cat [Lit ":"; Lit backtick;
                          Group 1 (Star true (not_chr backtick)); Lit backtick])
                 (rev R ++ ":" :: b, ":" :: backtick :: G ++ backtick :: post)
                 [] accept
               = Some ((backtick :: rev G ++ backtick :: ":" :: rev R ++ ":" :: b, post),
                       [(1, G)])).
  { rewrite exec_cat_cons, exec_Lit_eq, exec_cat_cons, exec_Lit_eq.
    by apply exec_group_run. }
  destruct HR as [-> | ->].
  - cbn [exec]. rewrite (exec_Lits_eq "code"). by rewrite Hk.
  - cbn [exec]. replace (exec (Lits "code") _ _ _) with (@None mres) by done.
    rewrite (exec_Lits_eq "literal"). exact Hk.
Qed.

Lemma exec_Lit_fail c b a cs k :
  stops (is_chr c) a → exec (Lit c) (b, a) cs k = None.
Proof. destruct a as [|x a]; simpl; [done|]. by intros ->. Qed.

Lemma inline_role_match b R body post :
  R ≠ [] → forallb is_lower R = true → backtick ∉ body →
  ∃ y, match_at re_inline_role (b, ":" :: R ++ ":" :: backtick :: body ++ backtick :: post)
       = Some (y, [(1, without_tilde body)]) ∧ snd y = post.
Proof.
  intros Hne HR HG. unfold match_at, re_inline_role.
  assert (Hopt : ∀ b', ∃ y,
            exec (cat [Opt (Lit "~"); Group 1 (Star true (not_chr backtick)); Lit backtick])
                 (b', body ++ backtick :: post) [] accept
            = Some (y, [(1, without_tilde body)]) ∧ snd y = post).
  { intros b'. rewrite exec_cat_cons.
    destruct body as [|c body].
    { eexists (_, post). split; [|done]. apply exec_Opt_skip.
      - apply exec_Lit_fail. by vm_compute.
      - by rewrite exec_group_run. }
    destruct (decide (c = "~")) as [->|Hc].
    - eexists (_, post). split; [|done]. unfold Opt. cbn [exec].
      change (exec (Cls (is_chr "~")) ?x ?cs ?k) with (exec (Lit "~") x cs k).
      change (("~" :: body) ++ backtick :: post)
        with ("~" :: (body ++ backtick :: post)).
      rewrite exec_Lit_eq, exec_group_run; [done|].
      by apply not_elem_of_cons in HG as [_ HG].
    - eexists (_, post). split; [|done]. apply exec_Opt_skip.
      + apply exec_Lit_fail. simpl. by apply chr_eqb_neq.
      + rewrite exec_group_run by done. do 3 f_equal.
        unfold without_tilde.
        destruct c as [[] [] [] [] [] [] [] []]; done. }
  destruct (Hopt (backtick :: ":" :: rev R ++ ":" :: b)) as (y & Hy & Hs).
  exists y. split; [|done].
  rewrite exec_cat_cons, exec_Lit_eq, exec_cat_cons.
  apply exec_Plus_max; [done|done|by vm_compute|].
  rewrite exec_cat_cons, exec_Lit_eq, exec_cat_cons, exec_Lit_eq. exact Hy.
Qed.

Lemma apply_rules_plain_sub rules a :
  rules ⊆ rst_rules → is_plain a = true → apply_rules rules a = a.
Proof.
  intros Hsub Ha. apply apply_rules_nomatch. intros r tpl u v Hin ->.
  apply is_plain_app in Ha as [_ Hv]. eapply rst_rule_nomatch; [|done].
  by apply Hsub.
Qed.

Lemma lower_not_mark c :
  is_lower c = true → c ≠ backtick ∧ c ≠ ":" ∧ c ≠ "<".
Proof. intros H. repeat split; intros ->; by vm_compute in H. Qed.

Lemma lower_no_mark role :
  forallb is_lower role = true →
  (backtick ∉ role) ∧ (":" ∉ role) ∧ ("<" ∉ role).
Proof.
  intros H. rewrite forallb_forall in H.
  repeat split; intros Hin; apply list_elem_of_In, H, lower_not_mark in Hin;
    by destruct Hin as (? & ? & ?).
Qed.

Lemma without_tilde_elem c body : c ∈ without_tilde body → c ∈ body.
Proof.
  destruct body as [|x body]; [done|]. unfold without_tilde.
  destruct (decide (x = "~")) as [->|Hx]; [by right|].
  by destruct x as [[] [] [] [] [] [] [] []].
Qed.

Lemma without_tilde_cases body :
  body = without_tilde body ∨ body = "~" :: without_tilde body.
Proof.
  destruct body as [|x body]; [by left|].
  destruct (decide (x = "~")) as [->|Hx]; [by right|]. left.
  by destruct x as [[] [] [] [] [] [] [] []].
Qed.

Lemma role_display_cases role body :
  body = role_display role body ∨ body = "~" :: role_display role body.
Proof.
  unfold role_display. case_bool_decide; [by left|apply without_tilde_cases].
Qed.

Lemma re_sub_plain r tpl a :
  (r, tpl) ∈ rst_rules → is_plain a = true → re_sub r tpl a = a.
Proof.
  intros Hin Ha. apply re_sub_nomatch. intros u v ->.
  apply is_plain_app in Ha as [_ Hv]. by eapply rst_rule_nomatch.
Qed.

Lemma code_or_literal R :
  R = str "code" ∨ R = str "literal" → (backtick ∉ R) ∧ (":" ∉ R).
Proof.
  intros [-> | ->]; split; apply forallb_not_chr; by vm_compute.
Qed.

(** The rules before rule 10 need a backtick, a [<] or a [::]. *)
Lemma rst_rule_nomatch_head r tpl b v :
  (r, tpl) ∈ take 9 rst_rules →
  backtick ∉ v → "<" ∉ v → contains (str "::") v = false →
  match_at r (b, v) = None.
Proof.
  intros Hin Hb Hl Hc. simpl in Hin.
  repeat (apply elem_of_cons in Hin as [Hin|Hin]; [injection Hin as -> _|]);
    [..|by apply elem_of_nil in Hin].
  - apply (needs_sound backtick); [by vm_compute|done].
  - apply (needs_sound backtick); [by vm_compute|done].
  - apply (needs_sound backtick); [by vm_compute|done].
  - by apply re_target_needs.
  - apply (needs_sound backtick); [by vm_compute|done].
  - apply (needs_sound backtick); [by vm_compute|done].
  - destruct (match_at re_note (b, v)) as [res|] eqn:H; [|done].
    apply (exec_lits_inv (str ".. note::")) in H as (a' & -> & _).
    pose proof (double_colon_after (str ".. note::") [] a' ltac:(by vm_compute)) as Hd.
    simpl app in Hd, Hc. congruence.
  - destruct (match_at re_versionadded (b, v)) as [res|] eqn:H; [|done].
    unfold match_at, re_versionadded in H. cbn [cat foldr exec] in H.
    apply (exec_lits_inv (str ".. versionadded:: ")) in H as (a' & -> & _).
    pose proof (double_colon_after (str ".. versionadded:: ") [] a' ltac:(by vm_compute)) as Hd.
    simpl app in Hd, Hc. congruence.
  - destruct (match_at re_code_block (b, v)) as [res|] eqn:H; [|done].
    unfold match_at, re_code_block in H. cbn [cat foldr exec] in H.
    apply (exec_lits_inv (str ".. code-block::")) in H as (a' & -> & _).
    pose proof (double_colon_after (str ".. code-block::") [] a' ltac:(by vm_compute)) as Hd.
    simpl app in Hd, Hc. congruence.
Qed.

Lemma word_not_mark c :
  is_word c = true → c ≠ backtick ∧ c ≠ "<" ∧ c ≠ "|" ∧ c ≠ ":".
Proof. intros H. repeat split; intros ->; by vm_compute in H. Qed.

Lemma word_no_mark w :
  forallb is_word w = true →
  (backtick ∉ w) ∧ ("<" ∉ w) ∧ ("|" ∉ w) ∧ (":" ∉ w).
Proof.
  intros H. rewrite forallb_forall in H.
  repeat split; intros Hin; apply list_elem_of_In, H, word_not_mark in Hin;
    by destruct Hin as (? & ? & ? & ?).
Qed.

Lemma subst_inv b a y cs :
  match_at re_subst (b, a) = Some (y, cs) →
  ∃ W, a = "|" :: W ++ "|" :: snd y ∧ W ≠ [] ∧ forallb is_word W = true.
Proof.
  unfold match_at, re_subst. intros H.
  rewrite exec_cat_cons in H. apply exec_Lit_inv in H as (a1 & -> & H).
  rewrite exec_cat_cons, exec_Group_eq in H.
  apply exec_Plus_inv in H as (W & a2 & -> & Hne & HW & H).
  rewrite exec_cat_cons in H. apply exec_Lit_inv in H as (a3 & -> & H).
  rewrite exec_cat_nil in H. injection H as <- _. by exists W.
Qed.

Lemma subst_match b W post :
  W ≠ [] → forallb is_word W = true →
  ∃ y, match_at re_subst (b, "|" :: W ++ "|" :: post) = Some (y, [(1, W)])
       ∧ snd y = post.
Proof.
  intros Hne HW. unfold match_at, re_subst. eexists (_, post). split; [|done].
  rewrite exec_cat_cons, exec_Lit_eq, exec_cat_cons, exec_Group_eq.
  apply exec_Plus_max; [done|done|by vm_compute|].
  rewrite exec_cat_cons, exec_Lit_eq, exec_cat_nil. unfold accept.
  by rewrite consumed_after.
Qed.

(** Where [|W|] can stand in a text with one substitution and no other
    bar. *)
Lemma subst_align pre w post u W tail :
  pre ++ "|" :: w ++ "|" :: post = u ++ "|" :: W ++ "|" :: tail →
  "|" ∉ pre → "|" ∉ w → "|" ∉ post → "|" ∉ W →
  u = pre ∧ W = w ∧ tail = post.
Proof.
  intros E Hpre Hw Hpost HW.
  apply app_eq_app in E as [l [[E1 E2]|[E1 E2]]].
  - destruct l as [|c l].
    + rewrite app_nil_r in E1. subst u. simpl in E2. injection E2 as E2.
      apply first_occurrence in E2 as [-> ->]; done.
    + injection E2 as <- _. exfalso. apply Hpre. rewrite E1.
      apply elem_of_app. right. left.
  - destruct l as [|c l].
    + rewrite app_nil_r in E1. subst u. simpl in E2. injection E2 as E2.
      symmetry in E2. apply first_occurrence in E2 as [-> ->]; done.
    + injection E2 as <- E2. exfalso.
      apply split_at_unique in E2 as [_ E2]; [|done|done].
      apply Hpost. rewrite E2. apply elem_of_app. right. left.
Qed.

Lemma no_colon_no_dcolon w : ":" ∉ w → contains (str "::") w = false.
Proof.
  intros H. destruct (contains (str "::") w) eqn:Hc; [|done].
  apply contains_spec in Hc as (u & v & ->). exfalso. apply H.
  apply elem_of_app. right. left.
Qed.

(** * Trigger sentences, marked pieces and sentences *)

(** ** Case-insensitive literals *)

Lemma same_letterb_spec x c : same_letterb x c = true ↔ same_letter x c.
Proof.
  unfold same_letterb, same_letter.
  rewrite orb_true_iff, andb_true_iff, chr_eqb_eq, N.eqb_eq. done.
Qed.

Lemma ci_table :
  forallb (λ c, forallb (λ x, implb (chr_eqb (to_lower c) c)
                                (Bool.eqb (is_chr_ci c x) (same_letterb x c)))
                        all_chars) all_chars = true.
Proof. by vm_compute. Qed.

Lemma is_chr_ci_spec c x :
  to_lower c = c → (is_chr_ci c x = true ↔ same_letter x c).
Proof.
  intros Hc. rewrite <- same_letterb_spec.
  pose proof ci_table as H. rewrite forallb_forall in H.
  specialize (H c ltac:(apply list_elem_of_In, all_chars_complete)).
  rewrite forallb_forall in H.
  specialize (H x ltac:(apply list_elem_of_In, all_chars_complete)).
  rewrite Hc, chr_eqb_refl in H. simpl in H. apply Bool.eqb_prop in H.
  by rewrite H.
Qed.

Lemma exec_ci_inv w : ∀ b a cs k res,
  exec (cat (map (λ c, Cls (is_chr_ci c)) w)) (b, a) cs k = Some res →
  ∃ W a', a = W ++ a' ∧ Forall2 (λ x c, is_chr_ci c x = true) W w
          ∧ k (rev W ++ b, a') cs = Some res.
Proof.
  induction w as [|c w IH]; intros b a cs k res H.
  - exists [], a. by repeat split.
  - change (cat (map _ (c :: w)))
      with (cat (Cls (is_chr_ci c) :: map (λ c, Cls (is_chr_ci c)) w)) in H.
    rewrite exec_cat_cons in H.
    apply exec_Cls_inv in H as (x & a1 & -> & Hx & H).
    apply IH in H as (W & a' & -> & HW & H).
    exists (x :: W), a'. split; [done|]. split; [by constructor|].
    simpl. by rewrite <- app_assoc.
Qed.

Lemma exec_ci_eq w : ∀ W b a cs k,
  Forall2 (λ x c, is_chr_ci c x = true) W w →
  exec (cat (map (λ c, Cls (is_chr_ci c)) w)) (b, W ++ a) cs k
  = k (rev W ++ b, a) cs.
Proof.
  induction w as [|c w IH]; intros W b a cs k HW.
  - by apply Forall2_nil_inv_r in HW as ->.
  - apply Forall2_cons_inv_r in HW as (x & W' & Hx & HW & ->).
    change (cat (map _ (c :: w)))
      with (cat (Cls (is_chr_ci c) :: map (λ c, Cls (is_chr_ci c)) w)).
    rewrite exec_cat_cons. change ((x :: W') ++ a) with (x :: (W' ++ a)).
    rewrite exec_Cls_eq by done. rewrite IH by done.
    simpl. by rewrite <- app_assoc.
Qed.

Lemma phrase_lower p c : p ∈ trigger_phrases → c ∈ str p → to_lower c = c.
Proof.
  intros Hp Hc.
  assert (H : forallb (λ p, forallb (λ c, chr_eqb (to_lower c) c) (str p))
                trigger_phrases = true) by (by vm_compute).
  rewrite forallb_forall in H. specialize (H p ltac:(by apply list_elem_of_In)).
  rewrite forallb_forall in H. specialize (H c ltac:(by apply list_elem_of_In)).
  by apply chr_eqb_eq.
Qed.

Lemma reads_ci p W :
  p ∈ trigger_phrases →
  (Forall2 (λ x c, is_chr_ci c x = true) W (str p) ↔ reads W p).
Proof.
  intros Hp. unfold reads.
  assert (Hall : Forall (λ c, to_lower c = c) (str p)).
  { apply Forall_forall. intros c. by apply phrase_lower. }
  revert W. induction Hall as [|c w Hc Hall IH]; intros W.
  - split; intros H; apply Forall2_nil_inv_r in H as ->; constructor.
  - split; intros H; apply Forall2_cons_inv_r in H as (x & W' & Hx & HW & ->);
      constructor; try (by apply IH); by apply (is_chr_ci_spec c x).
Qed.

Lemma reads_no_period p W : p ∈ trigger_phrases → reads W p → "." ∉ W.
Proof.
  intros Hp HW Hin.
  assert (H : forallb (λ p, forallb (λ c, negb (same_letterb "." c)) (str p))
                trigger_phrases = true) by (by vm_compute).
  rewrite forallb_forall in H. specialize (H p ltac:(by apply list_elem_of_In)).
  rewrite forallb_forall in H.
  apply list_elem_of_lookup in Hin as [i Hi].
  destruct (Forall2_lookup_l _ _ _ _ _ HW Hi) as (c & Hc & Hs).
  specialize (H c ltac:(eapply list_elem_of_In, list_elem_of_lookup_2; exact Hc)).
  apply same_letterb_spec in Hs. by rewrite Hs in H.
Qed.

(** ** Alternatives *)

Lemma exec_alts_inv rs : ∀ x cs k res,
  exec (alts rs) x cs k = Some res → rs ≠ [] →
  ∃ r, r ∈ rs ∧ exec r x cs k = Some res.
Proof.
  induction rs as [|r rs IH]; intros x cs k res H Hne; [done|].
  destruct rs as [|r' rs].
  - exists r. split; [left|done].
  - change (alts (r :: r' :: rs)) with (Alt r (alts (r' :: rs))) in H.
    apply exec_Alt_inv in H as [H|H].
    + exists r. split; [left|done].
    + destruct (IH _ _ _ _ H ltac:(done)) as (r0 & Hin & H0).
      exists r0. split; [by right|done].
Qed.

Lemma exec_alts_some rs : ∀ r x cs k res,
  r ∈ rs → exec r x cs k = Some res → ∃ res', exec (alts rs) x cs k = Some res'.
Proof.
  induction rs as [|r0 rs IH]; intros r x cs k res Hin H.
  - by apply elem_of_nil in Hin.
  - destruct rs as [|r' rs].
    + apply list_elem_of_singleton in Hin as ->. by exists res.
    + change (alts (r0 :: r' :: rs)) with (Alt r0 (alts (r' :: rs))).
      cbn [exec]. destruct (exec r0 x cs k) as [res0|] eqn:H0; [by eexists|].
      apply elem_of_cons in Hin as [->|Hin]; [congruence|].
      by eapply IH.
Qed.

(** ** The trigger sentence *)

Lemma re_trigger_eq :
  re_trigger = cat [Star true (not_chr "."); alts (map LitsCI trigger_phrases);
                    Star true (not_chr "."); Lit "."].
Proof. done. Qed.

Lemma trigger_inv b a y cs :
  match_at re_trigger (b, a) = Some (y, cs) →
  ∃ R1 W R2 p, a = R1 ++ W ++ R2 ++ "." :: snd y
    ∧ ("." ∉ R1) ∧ ("." ∉ R2) ∧ p ∈ trigger_phrases ∧ reads W p.
Proof.
  rewrite re_trigger_eq. unfold match_at. intros H.
  rewrite exec_cat_cons in H. apply exec_Star_inv in H as (R1 & a1 & -> & HR1 & H).
  rewrite exec_cat_cons in H.
  apply exec_alts_inv in H as (r & Hr & H); [|done].
  apply list_elem_of_fmap in Hr as (p & -> & Hp).
  apply exec_ci_inv in H as (W & a2 & -> & HW & H).
  rewrite exec_cat_cons in H. apply exec_Star_inv in H as (R2 & a3 & -> & HR2 & H).
  rewrite exec_cat_cons in H. apply exec_Lit_inv in H as (a4 & -> & H).
  rewrite exec_cat_nil in H. injection H as <- _.
  exists R1, W, R2, p. split; [done|].
  split; [by apply forallb_not_chr|]. split; [by apply forallb_not_chr|].
  split; [done|]. by apply reads_ci.
Qed.

Lemma trigger_match_exists b S B :
  "." ∉ S → has_trigger S →
  ∃ res, match_at re_trigger (b, S ++ "." :: B) = Some res.
Proof.
  intros HS (p & u & W & v & Hp & -> & HW).
  apply not_elem_of_app in HS as [Hu HS]. apply not_elem_of_app in HS as [_ Hv].
  rewrite re_trigger_eq. unfold match_at. rewrite exec_cat_cons.
  cbn [exec fst snd]. rewrite <- !app_assoc.
  assert (Hk : ∃ res,
            exec (cat [alts (map LitsCI trigger_phrases); Star true (not_chr "."); Lit "."])
                 (rev u ++ b, W ++ v ++ "." :: B) [] accept = Some res).
  { rewrite exec_cat_cons.
    eapply (exec_alts_some _ (LitsCI p)).
    - apply list_elem_of_fmap. by exists p.
    - unfold LitsCI. rewrite exec_ci_eq by (by apply reads_ci).
      rewrite exec_cat_cons.
      apply exec_Star_max; [by apply forallb_not_chr|by vm_compute|].
      rewrite exec_cat_cons, exec_Lit_eq, exec_cat_nil. reflexivity. }
  destruct Hk as [res Hk].
  eapply (star_greedy_some (not_chr ".") _ u b); [by apply forallb_not_chr|exact Hk].
Qed.

(** ** [re.search] *)

Lemma scan_nomatch r A : ∀ b rest,
  (∀ u1 u2, A = u1 ++ u2 → u2 ≠ [] →
     match_at r (rev u1 ++ b, u2 ++ rest) = None) →
  scan r b (A ++ rest) = scan r (rev A ++ b) rest.
Proof.
  induction A as [|c A IH]; intros b rest H; [done|].
  change ((c :: A) ++ rest) with (c :: (A ++ rest)). cbn [scan].
  pose proof (H [] (c :: A) eq_refl ltac:(done)) as H0.
  change ((c :: A) ++ rest) with (c :: (A ++ rest)) in H0. simpl in H0.
  rewrite H0, IH.
  - simpl. by rewrite <- app_assoc.
  - intros u1 u2 -> Hne. specialize (H (c :: u1) u2 eq_refl Hne).
    simpl in H. by rewrite <- app_assoc in H.
Qed.

Lemma scan_none r P : ∀ b,
  (∀ u v, P = u ++ v → match_at r (rev u ++ b, v) = None) → scan r b P = None.
Proof.
  induction P as [|c P IH]; intros b H.
  - pose proof (H [] [] eq_refl) as H0. simpl in *. by rewrite H0.
  - pose proof (H [] (c :: P) eq_refl) as H0. simpl in H0.
    cbn [scan]. rewrite H0. apply IH.
    intros u v ->. specialize (H (c :: u) v eq_refl). simpl in H.
    by rewrite <- app_assoc in H.
Qed.

Lemma scan_here r b a y cs :
  match_at r (b, a) = Some (y, cs) → scan r b a = Some ((b, a), (y, cs)).
Proof. intros H. destruct a; simpl; by rewrite H. Qed.

(** The first occurrence of a character. *)
Lemma first_split {A} `{EqDecision A} (c : A) l :
  c ∈ l → ∃ l1 l2, l = l1 ++ c :: l2 ∧ c ∉ l1.
Proof.
  induction l as [|x l IH]; intros Hin; [by apply elem_of_nil in Hin|].
  destruct (decide (x = c)) as [->|Hx].
  - exists [], l. split; [done|]. apply not_elem_of_nil.
  - apply elem_of_cons in Hin as [->|Hin]; [done|].
    destruct (IH Hin) as (l1 & l2 & -> & Hl1). exists (x :: l1), l2.
    split; [done|]. apply not_elem_of_cons. split; [by apply not_eq_sym|done].
Qed.

Lemma trigger_sentence_inv b a y cs :
  match_at re_trigger (b, a) = Some (y, cs) →
  ∃ S, a = S ++ "." :: snd y ∧ ("." ∉ S) ∧ has_trigger S.
Proof.
  intros H. apply trigger_inv in H as (R1 & W & R2 & p & -> & H1 & H2 & Hp & HW).
  exists (R1 ++ W ++ R2). split; [by rewrite <- !app_assoc|]. split.
  - rewrite !not_elem_of_app. split; [done|]. split; [|done].
    by eapply reads_no_period.
  - by exists p, R1, W, R2.
Qed.

Lemma has_trigger_app u s v : has_trigger s → has_trigger (u ++ s ++ v).
Proof.
  intros (p & u1 & w & v1 & Hp & -> & Hw). exists p, (u ++ u1), w, (v1 ++ v).
  split; [done|]. split; [by rewrite <- !app_assoc|done].
Qed.

Lemma trigger_search A S B :
  sentence_start A → "." ∉ S → has_trigger S → ¬ has_trigger A →
  re_search re_trigger (A ++ S ++ "." :: B) = Some (S ++ ["."]).
Proof.
  intros HA HS Htr HnA. unfold re_search.
  rewrite scan_nomatch.
  - destruct (trigger_match_exists (rev A ++ []) S B HS Htr) as [[y cs] Hm].
    rewrite (scan_here _ _ _ _ _ Hm).
    pose proof Hm as Hinv.
    apply trigger_sentence_inv in Hinv as (S' & E & HS' & _).
    apply first_occurrence in E as [-> ->]; [|done|done].
    apply match_at_sound in Hm as (w & Ha & Hb). simpl in Ha, Hb.
    f_equal. rewrite (surjective_pairing y), Hb, consumed_after.
    change (S' ++ "." :: y.2) with (S' ++ ["."] ++ y.2) in Ha.
    rewrite app_assoc in Ha. by apply app_inv_tail in Ha.
  - intros u1 u2 -> Hne.
    destruct (match_at re_trigger _) as [[y cs]|] eqn:Hm; [|done]. exfalso.
    apply trigger_sentence_inv in Hm as (S' & E & HS' & Htr').
    destruct HA as [HA|[A' HA]]; [by destruct u1, u2|].
    (* [u2] ends with a period: its first period ends [S'] *)
    assert (Hu2 : ∃ u2', u2 = u2' ++ ["."]).
    { destruct u2 as [|c u2] using rev_ind; [done|]. exists u2.
      rewrite app_assoc in HA. by apply app_inj_tail in HA as [_ ->]. }
    destruct Hu2 as [u2' ->].
    destruct (first_split "." (u2' ++ ["."])) as (q & q' & Eq & Hq).
    { apply elem_of_app. right. left. }
    rewrite Eq in E. rewrite <- app_assoc in E. simpl in E.
    apply first_occurrence in E as [-> _]; [|done|done].
    apply HnA. rewrite Eq. by apply has_trigger_app.
Qed.

Lemma trigger_none P :
  (∀ A S B, P = A ++ S ++ "." :: B → "." ∉ S → ¬ has_trigger S) →
  re_search re_trigger P = None.
Proof.
  intros H. unfold re_search. rewrite scan_none; [done|].
  intros u v ->. destruct (match_at re_trigger _) as [[y cs]|] eqn:Hm; [|done].
  exfalso. apply trigger_sentence_inv in Hm as (S & -> & HS & Htr).
  by apply (H u S (snd y)).
Qed.

(** ** The first paragraph *)

Lemma first_paragraph_whole P :
  contains two_newlines P = false → first_paragraph P = P.
Proof.
  intros Hc. unfold first_paragraph, split_str.
  rewrite <- (app_nil_r P) at 1. rewrite split_go_nosep.
  - simpl. by rewrite app_nil_r, rev_involutive.
  - intros p1 p2 -> Hne. rewrite app_nil_r.
    destruct (startswith two_newlines p2) eqn:Hs; [|done].
    apply startswith_inv in Hs as [x ->].
    assert (contains two_newlines (p1 ++ two_newlines ++ x) = true); [|congruence].
    apply contains_spec. by exists p1, x.
Qed.

Lemma no_blank_line t : contains two_newlines t = false ↔ ¬ has_blank_line t.
Proof.
  unfold has_blank_line. rewrite <- (contains_spec two_newlines t).
  by destruct (contains _ _).
Qed.

Lemma is_first_paragraph_spec s P :
  is_first_paragraph s P → first_paragraph s = P.
Proof.
  intros [[-> Hc]|(rest & -> & Hc)]; apply no_blank_line in Hc.
  - by apply first_paragraph_whole.
  - by apply first_paragraph_cut.
Qed.

(** ** Marked pieces *)

Lemma piece_inv open p b a y cs :
  match_at (piece_re open p) (b, a) = Some (y, cs) →
  ∃ g, a = str open ++ g ++ backtick :: snd y
       ∧ g ≠ [] ∧ forallb p g = true ∧ get_group 1 cs = g.
Proof.
  unfold match_at, piece_re. intros H.
  rewrite exec_cat_cons in H.
  apply (exec_lits_inv (str open)) in H as (a1 & -> & H).
  rewrite exec_cat_cons, exec_Group_eq in H.
  apply exec_Plus_inv in H as (g & a2 & -> & Hne & Hg & H).
  rewrite exec_cat_cons in H. apply exec_Lit_inv in H as (a3 & -> & H).
  rewrite exec_cat_nil in H. injection H as <- <-.
  exists g. split; [done|]. split; [done|]. split; [done|].
  unfold get_group. cbn [List.find fst snd Nat.eqb]. apply consumed_after.
Qed.

Lemma piece_match open p b g rest :
  p backtick = false → g ≠ [] → forallb p g = true →
  match_at (piece_re open p) (b, str open ++ g ++ backtick :: rest)
  = Some ((backtick :: rev g ++ rev (str open) ++ b, rest), [(1, g)]).
Proof.
  intros Hp Hne Hg. unfold match_at, piece_re.
  rewrite exec_cat_cons, exec_Lits_eq, exec_cat_cons, exec_Group_eq.
  apply exec_Plus_max; [done|done|done|].
  rewrite exec_cat_cons, exec_Lit_eq, exec_cat_nil. unfold accept.
  by rewrite consumed_after.
Qed.

Lemma piece_at_match open p b x :
  p backtick = false →
  (piece_at (str open) p x ↔ ∃ res, match_at (piece_re open p) (b, x) = Some res).
Proof.
  intros Hp. split.
  - intros (g & rest & -> & Hne & Hg). eexists. by apply piece_match.
  - intros [[y cs] H]. apply piece_inv in H as (g & -> & Hne & Hg & _).
    by exists g, (snd y).
Qed.

Lemma findall_skip r w : ∀ b a,
  findall_loop r (length w) b (w ++ a) = findall_loop r 0 (rev w ++ b) a.
Proof.
  induction w as [|c w IH]; intros b a; simpl.
  - by destruct a.
  - rewrite IH. by rewrite <- app_assoc.
Qed.

Lemma findall_nomatch r u : ∀ b a,
  (∀ u1 u2, u = u1 ++ u2 → u2 ≠ [] →
     match_at r (rev u1 ++ b, u2 ++ a) = None) →
  findall_loop r 0 b (u ++ a) = findall_loop r 0 (rev u ++ b) a.
Proof.
  induction u as [|c u IH]; intros b a H; [done|].
  change ((c :: u) ++ a) with (c :: (u ++ a)). cbn [findall_loop].
  pose proof (H [] (c :: u) eq_refl ltac:(done)) as H0.
  change ((c :: u) ++ a) with (c :: (u ++ a)) in H0. simpl in H0.
  rewrite H0, IH.
  - simpl. by rewrite <- app_assoc.
  - intros u1 u2 -> Hne. specialize (H (c :: u1) u2 eq_refl Hne).
    simpl in H. by rewrite <- app_assoc in H.
Qed.

Lemma findall_match r b m a y cs :
  m ≠ [] → match_at r (b, m ++ a) = Some (y, cs) → snd y = a →
  findall_loop r 0 b (m ++ a) = get_group 1 cs :: findall_loop r 0 (rev m ++ b) a.
Proof.
  intros Hm H Hy. destruct m as [|c m]; [done|].
  change ((c :: m) ++ a) with (c :: (m ++ a)) in *.
  cbn [findall_loop]. rewrite H, Hy. f_equal.
  replace (length (c :: m ++ a) - length a - 1) with (length m)
    by (simpl; rewrite length_app; lia).
  rewrite findall_skip. simpl. by rewrite <- app_assoc.
Qed.

Lemma piece_split (open g rest : text) :
  open ++ g ++ backtick :: rest = (open ++ g ++ [backtick]) ++ rest.
Proof. by rewrite <- !app_assoc. Qed.

Lemma piece_ne (open g : text) : open ++ g ++ [backtick] ≠ [].
Proof. by destruct open, g. Qed.

(** [re.findall] returns the marked pieces. *)
Lemma marked_findall open p s l :
  p backtick = false → marked (str open) p s l →
  ∀ b, findall_loop (piece_re open p) 0 b s = l.
Proof.
  intros Hp Hm. induction Hm as [s Hno|u g v l Hne Hg Hno Hm IH]; intros b.
  - rewrite <- (app_nil_r s) at 1. rewrite findall_nomatch; [done|].
    intros u1 u2 -> _. rewrite app_nil_r.
    destruct (match_at _ _) as [res|] eqn:H; [|done]. exfalso.
    apply (Hno u1 u2 eq_refl). apply (piece_at_match open p (rev u1 ++ b)); [done|].
    by exists res.
  - rewrite findall_nomatch.
    + rewrite piece_split.
      erewrite findall_match;
        [|apply piece_ne
         |rewrite <- piece_split; by apply piece_match|done].
      simpl. by rewrite IH.
    + intros u1 u2 -> Hne2.
      destruct (match_at _ _) as [res|] eqn:H; [|done]. exfalso.
      apply (Hno u1 u2 eq_refl Hne2).
      apply (piece_at_match open p (rev u1 ++ b)); [done|]. by exists res.
Qed.

(** Every text has its list of marked pieces. *)
Lemma marked_total open p :
  p backtick = false →
  ∀ n s b, length s ≤ n → marked (str open) p s (findall_loop (piece_re open p) 0 b s).
Proof.
  intros Hp. induction n as [|n IH]; intros s b Hn.
  - destruct s; [|simpl in Hn; lia]. simpl. constructor.
    intros u v E (g & rest & -> & _).
    apply (f_equal length) in E. rewrite !length_app in E. simpl in E. lia.
  - destruct (first_match_or_none (piece_re open p) s b [])
      as [Hno|(u1 & u2 & [y cs] & -> & Hne & Hm & Hno)].
    + rewrite <- (app_nil_r s) at 2. rewrite findall_nomatch by done.
      simpl. constructor. intros u v -> Hpiece.
      apply (piece_at_match open p (rev u ++ b)) in Hpiece as [res Hres]; [|done].
      destruct v as [|c v].
      * destruct res as [y0 cs0]. apply piece_inv in Hres as (g & E & _).
        apply (f_equal length) in E. rewrite !length_app in E. simpl in E. lia.
      * specialize (Hno u (c :: v) eq_refl ltac:(done)).
        rewrite app_nil_r in Hno. congruence.
    + rewrite (app_nil_r u2) in Hm. pose proof Hm as Hinv.
      apply piece_inv in Hinv as (g & -> & Hneg & Hg & Hgr).
      rewrite findall_nomatch.
      2:{ intros u1' u2' E Hne'. specialize (Hno u1' u2' E Hne').
          by rewrite app_nil_r in Hno. }
      rewrite piece_split. rewrite piece_split in Hm.
      erewrite findall_match; [|apply piece_ne|exact Hm|done].
      rewrite Hgr, <- piece_split. constructor; [done|done| |].
      * intros u1' u2' E Hne' Hpiece.
        apply (piece_at_match open p (rev u1' ++ b)) in Hpiece as [res Hres];
          [|done].
        specialize (Hno u1' u2' E Hne'). rewrite app_nil_r in Hno. congruence.
      * apply IH. rewrite !length_app in Hn. simpl in Hn. lia.
Qed.

(** ** The cases of [extract_values] *)

Lemma reads_nonempty w p : p ∈ trigger_phrases → reads w p → w ≠ [].
Proof.
  intros Hp Hw ->. apply Forall2_nil_inv_l in Hw.
  unfold trigger_phrases in Hp. rewrite !elem_of_cons in Hp.
  destruct Hp as [->|[->|[->|[->|[->|Hp]]]]]; try done.
  by apply elem_of_nil in Hp.
Qed.

(** Every paragraph has a first trigger sentence or none at all. *)
Lemma trigger_cases P :
  no_trigger_sentence P ∨ (∃ A S B, trigger_sentence P A S B).
Proof.
  destruct (first_match_or_none re_trigger P [] [])
    as [Hno|(u1 & u2 & [y cs] & -> & Hne & Hm & Hno)].
  - left. intros A S B -> HS Htr.
    destruct (trigger_match_exists (rev A) S B HS Htr) as [res Hm].
    specialize (Hno A (S ++ "." :: B) eq_refl ltac:(by destruct S)).
    rewrite !app_nil_r in Hno. congruence.
  - right. rewrite !app_nil_r in Hm.
    apply trigger_sentence_inv in Hm as (S & -> & HS & Htr).
    exists u1, S, (snd y). split; [done|].
    assert (Hearly : ∀ A' S' B', u1 ++ S ++ "." :: snd y = A' ++ S' ++ "." :: B' →
              "." ∉ S' → has_trigger S' → length u1 ≤ length A').
    { intros A' S' B' E HS' Htr'.
      destruct (decide (length u1 ≤ length A')) as [|Hlt]; [done|]. exfalso.
      assert (∃ u2', u1 = A' ++ u2' ∧ u2' ≠ []) as (u2' & -> & Hne').
      { exists (drop (length A') u1). split.
        - rewrite <- (take_drop (length A') u1) at 1. f_equal.
          apply (f_equal (take (length A'))) in E.
          rewrite take_app_le in E by lia. by rewrite take_app_length in E.
        - intros E0. apply (f_equal length) in E0. rewrite length_drop in E0.
          simpl in E0. lia. }
      specialize (Hno A' u2' eq_refl Hne'). rewrite !app_nil_r in Hno.
      rewrite <- app_assoc in E. apply app_inv_head in E. rewrite E in Hno.
      destruct (trigger_match_exists (rev A') S' B' HS' Htr') as [res Hm].
      congruence. }
    split; [|split; [done|split; [done|]]].
    + destruct u1 as [|c u1 _] using rev_ind; [by left|]. right.
      destruct (decide (c = ".")) as [->|Hc]; [by exists u1|]. exfalso.
      specialize (Hearly u1 (c :: S) (snd y)).
      rewrite length_app in Hearly. simpl in Hearly.
      assert (length u1 + 1 ≤ length u1); [|lia]. apply Hearly.
      * by rewrite <- app_assoc.
      * apply not_elem_of_cons. split; [by apply not_eq_sym|done].
      * by apply (has_trigger_app [c] S []) in Htr; rewrite app_nil_r in Htr.
    + intros (p & u & w & v & Hp & -> & Hw).
      destruct (first_split "." (v ++ S ++ ["."])) as (q & q' & Eq & Hq).
      { rewrite !elem_of_app. right. right. left. }
      specialize (Hearly u (w ++ q) (q' ++ snd y)).
      pose proof (reads_nonempty _ _ Hp Hw) as Hwne.
      assert (length (u ++ w ++ v) ≤ length u) as Hlen.
      { apply Hearly.
        - rewrite <- !app_assoc. f_equal. f_equal.
          change (S ++ "." :: snd y) with (S ++ ["."] ++ snd y).
          rewrite (app_assoc S), (app_assoc v), Eq. by rewrite <- app_assoc.
        - rewrite not_elem_of_app. split; [|done]. by eapply reads_no_period.
        - exists p, [], w, q. by split.
      }
      rewrite !length_app in Hlen. destruct w; [done|]. simpl in Hlen. lia.
Qed.

Lemma first_paragraph_exists s : ∃ P, is_first_paragraph s P.
Proof.
  assert (H : contains two_newlines s = false
          ∨ (∃ P rest, s = P ++ two_newlines ++ rest
                       ∧ contains two_newlines (P ++ [newline]) = false)).
  { induction s as [|c s IH]; [by left|].
    destruct (startswith two_newlines (c :: s)) eqn:Hs.
    - right. apply startswith_inv in Hs as [rest ->]. by exists [], rest.
    - destruct IH as [Hc|(P & rest & -> & Hc)].
      + left. simpl. simpl in Hs. rewrite Hs. exact Hc.
      + right. exists (c :: P), rest. split; [done|].
        change ((c :: P) ++ [newline]) with (c :: (P ++ [newline])).
        cbn [contains]. rewrite Hc.
        destruct P as [|x P]; simpl in Hs |- *.
        * by rewrite Hs.
        * by rewrite Hs. }
  destruct H as [Hc|(P & rest & -> & Hc)]; apply no_blank_line in Hc.
  - exists s. by left.
  - exists P. right. by exists rest.
Qed.

Lemma code_tokens_marked s l :
  marked (str ":code:`") (λ c, negb (chr_eqb c backtick)) s l → code_tokens s = l.
Proof. intros H. by apply (marked_findall ":code:`" (not_chr backtick)). Qed.

Lemma opt_refs_marked s l :
  marked (str ":opt:`") is_word s l → opt_refs s = l.
Proof. intros H. by apply (marked_findall ":opt:`" is_word). Qed.

Lemma extract_values_sentence opt_name s P A S B :
  s ≠ [] → is_first_paragraph s P → trigger_sentence P A S B →
  extract_values opt_name (Some s) =
    if existsb (λ o, negb (bool_decide (o = opt_name))) (opt_refs (S ++ ["."]))
    then []
    else if (2 <=? length (first_seen (code_tokens (S ++ ["."]))))%nat
            && forallb (λ v, (length v <? 30)%nat) (first_seen (code_tokens (S ++ ["."])))
         then first_seen (code_tokens (S ++ ["."])) else [].
Proof.
  intros Hs HP (-> & HA & HS & Htr & HnA). unfold extract_values.
  destruct s as [|c s]; [done|]. cbn [truthy negb default from_option id].
  change (first_piece (split_str two_newlines (c :: s))) with (first_paragraph (c :: s)).
  rewrite (is_first_paragraph_spec _ _ HP), trigger_search by done.
  cbv zeta. by rewrite fromkeys_first_seen.
Qed.

(** ** Sentences *)

Lemma any_of_terminal c : any_of ".!?" c = true ↔ terminal c.
Proof.
  unfold any_of, terminal. simpl. rewrite !orb_true_iff, !chr_eqb_eq.
  split; [intros [?|[?|[?|?]]]|intros [?|[?|?]]]; auto; done.
Qed.

Lemma sentence_break_inv b a y cs :
  match_at re_sentence_break (b, a) = Some (y, cs) →
  ∃ c b' d a', b = c :: b' ∧ terminal c ∧ a = d :: a' ∧ is_space d = true.
Proof.
  unfold match_at, re_sentence_break. rewrite exec_cat_cons. intros H.
  cbn [exec fst] in H. destruct b as [|c b']; [done|].
  destruct (any_of ".!?" c) eqn:Hc; [|done]. apply any_of_terminal in Hc.
  rewrite exec_cat_cons in H.
  apply exec_Plus_inv in H as (w & a' & -> & Hne & Hw & _).
  destruct w as [|d w]; [done|]. simpl in Hw. apply andb_true_iff in Hw as [Hd _].
  by exists c, b', d, (w ++ a').
Qed.

Lemma sentence_break_match b c ws v :
  terminal c → ws ≠ [] → forallb is_space ws = true → stops is_space v →
  match_at re_sentence_break (c :: b, ws ++ v) = Some ((rev ws ++ c :: b, v), []).
Proof.
  intros Hc Hne Hws Hv. unfold match_at, re_sentence_break.
  rewrite exec_cat_cons. cbn [exec fst].
  apply any_of_terminal in Hc. rewrite Hc.
  rewrite exec_cat_cons. by apply exec_Plus_max.
Qed.

Lemma space_run a :
  ∃ ws v, a = ws ++ v ∧ forallb is_space ws = true ∧ stops is_space v.
Proof.
  destruct (lstrip_split a) as (u & E & Hu). exists u, (lstrip a).
  split; [done|]. split; [done|].
  pose proof (lstrip_head_ok a) as H. by destruct (lstrip a).
Qed.

(** A break stands at every terminal punctuation mark that whitespace
    follows. *)
Lemma sentence_break_here b c d a :
  terminal c → is_space d = true →
  ∃ res, match_at re_sentence_break (c :: b, d :: a) = Some res.
Proof.
  intros Hc Hd. destruct (space_run a) as (ws & v & -> & Hws & Hv).
  eexists. apply (sentence_break_match b c (d :: ws) v); [done|done| |done].
  simpl. by rewrite Hd.
Qed.

Lemma split_skip r w : ∀ cur b a,
  split_loop r (length w) cur b (w ++ a) = split_loop r 0 cur (rev w ++ b) a.
Proof.
  induction w as [|c w IH]; intros cur b a; simpl.
  - by destruct a.
  - rewrite IH. by rewrite <- app_assoc.
Qed.

Lemma split_nomatch r u : ∀ cur b a,
  (∀ u1 u2, u = u1 ++ u2 → u2 ≠ [] →
     match_at r (rev u1 ++ b, u2 ++ a) = None) →
  split_loop r 0 cur b (u ++ a) = split_loop r 0 (rev u ++ cur) (rev u ++ b) a.
Proof.
  induction u as [|c u IH]; intros cur b a H; [done|].
  change ((c :: u) ++ a) with (c :: (u ++ a)). cbn [split_loop].
  pose proof (H [] (c :: u) eq_refl ltac:(done)) as H0.
  change ((c :: u) ++ a) with (c :: (u ++ a)) in H0. simpl in H0.
  rewrite H0, IH.
  - simpl. by rewrite <- !app_assoc.
  - intros u1 u2 -> Hne. specialize (H (c :: u1) u2 eq_refl Hne).
    simpl in H. by rewrite <- app_assoc in H.
Qed.

Lemma split_match r cur b m a y cs :
  m ≠ [] → match_at r (b, m ++ a) = Some (y, cs) → snd y = a →
  split_loop r 0 cur b (m ++ a) = rev cur :: split_loop r 0 [] (rev m ++ b) a.
Proof.
  intros Hm H Hy. destruct m as [|c m]; [done|].
  change ((c :: m) ++ a) with (c :: (m ++ a)) in *.
  cbn [split_loop]. rewrite H, Hy.
  replace (length (c :: m ++ a) - length a) with (S (length m))
    by (simpl; rewrite length_app; lia).
  f_equal. rewrite split_skip. simpl. by rewrite <- app_assoc.
Qed.

(** No break stands inside a text without one, read after a character
    that is not terminal punctuation. *)
Lemma no_break_nomatch u b a :
  no_break (u ++ take 1 a) → (∀ c b', b = c :: b' → ¬ terminal c) →
  ∀ u1 u2, u = u1 ++ u2 → u2 ≠ [] →
    match_at re_sentence_break (rev u1 ++ b, u2 ++ a) = None.
Proof.
  intros Hnb Hb u1 u2 -> Hne.
  destruct (match_at _ _) as [[y cs]|] eqn:Hm; [|done]. exfalso.
  apply sentence_break_inv in Hm as (c & b' & d & a' & Eb & Hc & Ea & Hd).
  destruct u1 as [|x u1 _] using rev_ind.
  - simpl in Eb. by apply (Hb c b').
  - rewrite rev_app_distr in Eb. simpl in Eb. injection Eb as -> _.
    destruct u2 as [|d' u2]; [done|]. simpl in Ea. injection Ea as -> _.
    specialize (Hnb u1 c d (u2 ++ take 1 a)).
    rewrite Hnb in Hd; [done| |done]. by rewrite <- !app_assoc.
Qed.

Lemma split_sentences_split s l :
  split_sentences s l →
  ∀ b, (∀ c b', b = c :: b' → ¬ terminal c) →
  split_loop re_sentence_break 0 [] b s = l.
Proof.
  induction 1 as [s Hnb|u c ws v l Hnb Hc Hne Hws Hv Hsp IH]; intros b Hb.
  - rewrite <- (app_nil_r s) at 1. rewrite split_nomatch.
    + simpl. by rewrite app_nil_r, rev_involutive.
    + apply no_break_nomatch; [|done]. by rewrite app_nil_r.
  - change (u ++ c :: ws ++ v) with (u ++ [c] ++ ws ++ v).
    rewrite app_assoc, split_nomatch.
    + rewrite app_nil_r, rev_app_distr. simpl.
      erewrite split_match; [|done|by apply sentence_break_match|done].
      simpl. rewrite rev_involutive. f_equal. apply IH.
      intros x b' E Hx. destruct ws as [|w ws _] using rev_ind; [done|].
      rewrite rev_app_distr in E. simpl in E. injection E as -> _.
      rewrite forallb_app in Hws. apply andb_true_iff in Hws as [_ Hw].
      simpl in Hw. rewrite andb_true_r in Hw.
      destruct Hx as [-> | [-> | ->]]; by vm_compute in Hw.
    + intros u1 u2 E Hne2.
      destruct (match_at _ _) as [[y cs]|] eqn:Hm; [|done]. exfalso.
      apply sentence_break_inv in Hm as (c' & b' & d & a' & Eb & Hc' & Ea & Hd).
      destruct u1 as [|x u1 _] using rev_ind.
      * simpl in Eb. by apply (Hb c' b').
      * rewrite rev_app_distr in Eb. simpl in Eb. injection Eb as -> _.
        destruct u2 as [|d' u2]; [done|]. simpl in Ea. injection Ea as -> _.
        destruct u2 as [|e u2].
        -- (* the break would stand before the last character, which is
              terminal punctuation and no whitespace *)
           rewrite <- app_assoc in E.
           change (u1 ++ [c'] ++ [d]) with (u1 ++ [c'; d]) in E.
           change [c'; d] with ([c'] ++ [d]) in E. rewrite app_assoc in E.
           apply app_inj_tail in E as [_ ->].
           destruct Hc as [-> | [-> | ->]]; by vm_compute in Hd.
        -- specialize (Hnb (u1) c' d (e :: u2)).
           rewrite Hnb in Hd; [done| |done]. rewrite E. by rewrite <- !app_assoc.
Qed.

Lemma re_split_sentences s l :
  split_sentences s l → re_split re_sentence_break s = l.
Proof. intros H. by apply split_sentences_split. Qed.

(** Every text has its list of sentences. *)
Lemma split_sentences_total : ∀ n s, length s ≤ n → ∃ l, split_sentences s l.
Proof.
  induction n as [|n IH]; intros s Hn.
  - destruct s; [|simpl in Hn; lia]. exists [[]]. constructor.
    intros u c d v E. by destruct u.
  - destruct (first_match_or_none re_sentence_break s [] [])
      as [Hno|(u1 & u2 & [y cs] & -> & Hne & Hm & Hno)].
    + exists [s]. constructor. intros u c d v -> Hc.
      destruct (is_space d) eqn:Hd; [|done]. exfalso.
      destruct (sentence_break_here (rev u) c d v Hc Hd) as [res Hres].
      specialize (Hno (u ++ [c]) (d :: v)).
      rewrite rev_app_distr, !app_nil_r in Hno. simpl in Hno.
      rewrite Hno in Hres; [done| |done]. by rewrite <- app_assoc.
    + rewrite !app_nil_r in Hm. pose proof Hm as Hinv.
      apply sentence_break_inv in Hinv as (c & b' & d & a' & Eb & Hc & -> & Hd).
      destruct u1 as [|x u _] using rev_ind; [done|].
      rewrite rev_app_distr in Eb. simpl in Eb. injection Eb as -> _.
      destruct (space_run a') as (ws & v & -> & Hws & Hv).
      destruct (IH v) as [l Hl].
      { rewrite !length_app in Hn. simpl in Hn. rewrite length_app in Hn. lia. }
      exists ((u ++ [c]) :: l). rewrite <- app_assoc.
      apply (sentences_cons u c (d :: ws) v l); [|done|done| |done|done].
      * intros x c' d' z E Hc'. destruct (is_space d') eqn:Hd'; [|done]. exfalso.
        destruct (sentence_break_here (rev x) c' d' (z ++ d :: ws ++ v) Hc' Hd')
          as [res Hres].
        specialize (Hno (x ++ [c']) (d' :: z)).
        rewrite rev_app_distr, !app_nil_r in Hno. simpl in Hno.
        rewrite Hno in Hres; [done| |done]. rewrite E. by rewrite <- app_assoc.
      * simpl. by rewrite Hd.
Qed.

(** ** Checks on closed texts *)

Lemma piece_at_starts open p x : piece_at open p x → startswith open x = true.
Proof. intros (g & rest & -> & _). apply startswith_app. Qed.

Lemma starts_nowhere_sound open p u rest :
  starts_nowhere open u rest = true →
  ∀ u1 u2, u = u1 ++ u2 → u2 ≠ [] → ¬ piece_at open p (u2 ++ rest).
Proof.
  intros H u1. revert u H. induction u1 as [|c u1 IH]; intros u H u2 -> Hne Hp.
  - apply piece_at_starts in Hp. destruct u2 as [|d u2]; [done|].
    simpl in H, Hp. apply andb_true_iff in H as [H _]. by rewrite Hp in H.
  - simpl in H. apply andb_true_iff in H as [_ H]. by apply (IH _ H u2).
Qed.

Lemma marked_none open p s : contains open s = false → marked open p s [].
Proof.
  intros Hc. constructor. intros u v -> (g & rest & -> & _).
  assert (contains open (u ++ open ++ g ++ backtick :: rest) = true); [|congruence].
  apply contains_spec. by exists u, (g ++ backtick :: rest).
Qed.

Lemma marked_next open p u g v l :
  starts_nowhere open u (open ++ g ++ backtick :: v) = true →
  g ≠ [] → forallb p g = true → marked open p v l →
  marked open p (u ++ open ++ g ++ backtick :: v) (g :: l).
Proof.
  intros Hu Hne Hg Hv. constructor; [done|done| |done].
  by apply starts_nowhere_sound.
Qed.

Lemma no_breakb_sound s : no_breakb s = true → no_break s.
Proof.
  intros H u. revert s H. induction u as [|x u IH]; intros s H c d v -> Hc.
  - simpl in H. apply andb_true_iff in H as [H _].
    destruct (is_space d); [|done]. rewrite andb_true_r in H.
    unfold terminalb in H. destruct Hc as [-> | [-> | ->]]; by vm_compute in H.
  - assert (H' : no_breakb (u ++ c :: d :: v) = true).
    { change ((x :: u) ++ c :: d :: v) with (x :: (u ++ c :: d :: v)) in H.
      cbn [no_breakb] in H. destruct (u ++ c :: d :: v) eqn:E; [by destruct u|].
      by apply andb_true_iff in H as [_ H]. }
    by apply (IH _ H' c d v).
Qed.

Lemma has_trigger_nil : ¬ has_trigger [].
Proof.
  intros (p & u & w & v & Hp & E & Hw).
  apply (reads_nonempty _ _ Hp Hw). destruct u; [|done]. by destruct w.
Qed.

Lemma reads_self (p : string) :
  forallb (λ c, same_letterb c c) (str p) = true → reads (str p) p.
Proof.
  unfold reads. induction (str p) as [|c l IH]; [constructor|].
  simpl. intros H. apply andb_true_iff in H as [_ H]. constructor; [by left|auto].
Qed.

(** * The leading [See ... for details] clause *)

Lemma star_lazy_first {R} p (k : pos → option R) mid r : ∀ b a,
  forallb p mid = true →
  (∀ m1 m2, mid = m1 ++ m2 → m2 ≠ [] → k (rev m1 ++ b, m2 ++ a) = None) →
  k (rev mid ++ b, a) = Some r →
  star_lazy p k b (mid ++ a) = Some r.
Proof.
  induction mid as [|c mid IH]; intros b a Hp Hk Hr.
  - simpl in *. destruct a as [|x a]; simpl; by rewrite Hr.
  - simpl in Hp. apply andb_true_iff in Hp as [Hc Hp].
    change ((c :: mid) ++ a) with (c :: (mid ++ a)). cbn [star_lazy].
    pose proof (Hk [] (c :: mid) eq_refl ltac:(done)) as H0. simpl in H0.
    rewrite H0, Hc. apply IH; [done| |].
    + intros m1 m2 -> Hne. specialize (Hk (c :: m1) m2 eq_refl Hne).
      simpl in Hk. by rewrite <- app_assoc in Hk.
    + simpl in Hr. by rewrite <- app_assoc in Hr.
Qed.

Lemma exec_Lits_fail s b a cs k :
  startswith (str s) a = false → exec (Lits s) (b, a) cs k = None.
Proof.
  unfold Lits. generalize (str s). intros w. revert b a.
  induction w as [|c w IH]; intros b a H; [done|].
  change (cat (map Lit (c :: w))) with (cat (Lit c :: map Lit w)).
  rewrite exec_cat_cons. destruct a as [|x a]; [done|]. simpl in H.
  destruct (chr_eqb c x) eqn:Hx.
  - apply chr_eqb_eq in Hx as <-. rewrite exec_Lit_eq. by apply IH.
  - apply exec_Lit_fail. simpl. unfold is_chr. apply chr_eqb_neq.
    apply chr_eqb_neq in Hx. by apply not_eq_sym.
Qed.

Lemma startswith_prefix w a b :
  length w ≤ length a → startswith w (a ++ b) = startswith w a.
Proof.
  revert a. induction w as [|c w IH]; intros a Hl; [done|].
  destruct a as [|x a]; [simpl in Hl; lia|]. simpl.
  rewrite IH; [done|]. simpl in Hl. lia.
Qed.

Lemma exec_WordB_eq x cs k :
  at_word_boundary x = true → exec WordB x cs k = k x cs.
Proof. simpl. by intros ->. Qed.

Lemma exec_WordB_fail x cs k :
  at_word_boundary x = false → exec WordB x cs k = None.
Proof. simpl. by intros ->. Qed.

Lemma details_tail_match b d w rest cs :
  clause_end d w rest →
  exec (cat [Opt (Lit "."); Star true is_space]) (b, d ++ w ++ rest) cs accept
  = Some ((rev w ++ rev d ++ b, rest), cs).
Proof.
  intros ([-> |[-> Hd]] & Hw & Hrest).
  - rewrite exec_cat_cons. unfold Opt. cbn [exec app].
    change (exec (Cls (is_chr ".")) ?x ?c ?k) with (exec (Lit ".") x c k).
    rewrite exec_Lit_eq, exec_cat_cons.
    rewrite (exec_Star_max is_space w _ rest cs _ ((rev w ++ "." :: b, rest), cs));
      [done|done|done|]. by rewrite exec_cat_nil.
  - rewrite exec_cat_cons. simpl app.
    apply exec_Opt_skip; [by apply exec_Lit_fail|].
    rewrite exec_cat_cons. apply exec_Star_max; [done|done|].
    by rewrite exec_cat_nil.
Qed.

Lemma see_details_match mid d w rest :
  details_gap mid → first_details mid → clause_end d w rest →
  ∃ y, match_at re_see_details ([], str "See" ++ mid ++ for_details ++ d ++ w ++ rest)
       = Some (y, []) ∧ snd y = rest.
Proof.
  intros (Hnl & (c0 & m0 & Hhd & Hc0) & (ml & cl & Hlast & Hcl)) Hmin Hend.
  eexists (_, rest). split; [|done].
  unfold match_at, re_see_details.
  rewrite exec_cat_cons. cbn [exec fst]. rewrite exec_cat_cons, exec_Lits_eq.
  rewrite exec_cat_cons, exec_WordB_eq.
  2:{ rewrite Hhd; unfold at_word_boundary; cbn [fst snd app].
      rewrite Hc0. reflexivity. }
  rewrite exec_cat_cons. cbn [exec fst snd].
  apply star_lazy_first.
  - by apply forallb_not_chr.
  - intros m1 m2 E Hne. rewrite exec_cat_cons.
    destruct m2 as [|c2 m2]; [done|].
    destruct (is_word c2) eqn:Hc2.
    + (* a word character follows: is there a boundary? *)
      destruct m1 as [|c1 m1] using rev_ind.
      { simpl in E. rewrite Hhd in E. injection E as -> _. congruence. }
      clear IHm1. destruct (is_word c1) eqn:Hc1.
      * apply exec_WordB_fail. unfold at_word_boundary. rewrite rev_app_distr.
        simpl. by rewrite Hc1, Hc2.
      * rewrite exec_WordB_eq
          by (unfold at_word_boundary; rewrite rev_app_distr; simpl;
              by rewrite Hc1, Hc2).
        rewrite exec_cat_cons. apply exec_Lits_fail.
        rewrite <- app_assoc in E. simpl in E.
        rewrite (app_assoc (c2 :: m2)), startswith_prefix
          by (rewrite length_app; unfold for_details; simpl; lia).
        match goal with |- ?l = false => destruct l eqn:Hs; [|done] end.
        apply startswith_inv in Hs as [x Hx].
        by destruct (Hmin m1 c1 (c2 :: m2) x).
    + destruct (exec WordB _ _ _) eqn:Hw; [|done].
      apply exec_WordB_inv in Hw as [_ Hw]. rewrite exec_cat_cons in Hw.
      apply (exec_lits_inv (str "for details")) in Hw as (a' & Ha & _).
      simpl in Ha. injection Ha as -> _. by vm_compute in Hc2.
  - rewrite exec_cat_cons, exec_WordB_eq.
    2:{ unfold at_word_boundary. rewrite Hlast, rev_app_distr. simpl.
        by rewrite Hcl. }
    rewrite exec_cat_cons, (exec_Lits_eq "for details").
    by rewrite details_tail_match.
Qed.

Lemma remove_see_details_clause mid d w rest :
  details_gap mid → first_details mid → clause_end d w rest →
  remove_see_details (str "See" ++ mid ++ for_details ++ d ++ w ++ rest) = rest.
Proof.
  intros Hgap Hmin Hend.
  destruct (see_details_match mid d w rest Hgap Hmin Hend) as (y & Hy & Hs).
  unfold remove_see_details, re_sub_count.
  replace (str "See" ++ mid ++ for_details ++ d ++ w ++ rest)
    with ((str "See" ++ mid ++ for_details ++ d ++ w) ++ rest) in *
    by (by rewrite <- !app_assoc).
  erewrite sub_loop_match; [|done|done|exact Hy|exact Hs].
  simpl. by rewrite sub_loop_done.
Qed.

(** What the pattern matches, with the two word boundaries. *)
Lemma see_details_gap b a y cs :
  match_at re_see_details (b, a) = Some (y, cs) →
  b = [] ∧ ∃ mid tail, a = str "See" ++ mid ++ for_details ++ tail ∧ details_gap mid.
Proof.
  unfold match_at, re_see_details. intros H.
  rewrite exec_cat_cons in H. apply exec_Bol_inv in H as [-> H].
  rewrite exec_cat_cons in H.
  apply (exec_lits_inv (str "See")) in H as (a1 & -> & H).
  rewrite exec_cat_cons in H. apply exec_WordB_inv in H as [Hb1 H].
  rewrite exec_cat_cons in H. apply exec_Star_inv in H as (mid & a2 & -> & Hmid & H).
  rewrite exec_cat_cons in H. apply exec_WordB_inv in H as [Hb2 H].
  rewrite exec_cat_cons in H.
  apply (exec_lits_inv (str "for details")) in H as (a3 & -> & H).
  split; [done|]. exists mid, a3. split; [done|].
  unfold at_word_boundary in Hb1, Hb2. cbn [fst snd] in Hb1, Hb2.
  split; [by apply forallb_not_chr|].
  destruct mid as [|c0 m0]; [by vm_compute in Hb1|]. split.
  - exists c0, m0. split; [done|]. simpl in Hb1. by destruct (is_word c0).
  - destruct (exists_last (l := c0 :: m0) ltac:(done)) as (ml & cl & E).
    exists ml, cl. split; [done|]. rewrite E, rev_app_distr in Hb2.
    simpl in Hb2. by destruct (is_word cl).
Qed.

Lemma remove_see_details_none t :
  (∀ mid tail, t = str "See" ++ mid ++ for_details ++ tail → ¬ details_gap mid) →
  remove_see_details t = t.
Proof.
  intros Hno. unfold remove_see_details, re_sub_count.
  rewrite <- (app_nil_r t) at 1. rewrite sub_loop_nomatch.
  - simpl. by rewrite app_nil_r.
  - intros u1 u2 -> Hne. rewrite !app_nil_r.
    destruct (match_at re_see_details (rev u1, u2)) as [[y cs]|] eqn:H; [|done].
    apply see_details_gap in H as (Hb & mid & tail & -> & Hgap). exfalso.
    assert (u1 = []) as -> by (destruct u1 as [|c u1] using rev_ind; [done|];
                               rewrite rev_app_distr in Hb; done).
    by apply (Hno mid tail).
Qed.

(** * The trailing [See X] clause *)

Lemma cut_period_app u : cut_period (u ++ ["."]) = u.
Proof. unfold cut_period. rewrite rev_app_distr. simpl. apply rev_involutive. Qed.

Lemma cut_period_keep u :
  (∀ u', u ≠ u' ++ ["."]) → cut_period u = u.
Proof.
  intros H. unfold cut_period. destruct (rev u) as [|c r] eqn:E; [done|].
  destruct (decide (c = ".")) as [->|Hc].
  - exfalso. apply (H (rev r)). apply (f_equal (@rev _)) in E.
    rewrite rev_involutive in E. by rewrite E.
  - by destruct c as [[] [] [] [] [] [] [] []].
Qed.

Lemma rstrip_app_spaces p w : forallb is_space w = true → rstrip (p ++ w) = rstrip p.
Proof.
  intros Hw. unfold rstrip. rewrite rev_app_distr, lstrip_spaces; [done|].
  apply forallb_forall. intros x Hx. apply in_rev in Hx.
  rewrite forallb_forall in Hw. by apply Hw.
Qed.

Lemma rstrip_keep u :
  (∀ u' c, u = u' ++ [c] → is_space c = false) → rstrip u = u.
Proof.
  intros H. destruct u as [|x u] using rev_ind; [done|].
  apply rstrip_ends_nonspace. by apply (H u x).
Qed.

Lemma exec_Alt_some_l r1 r2 x cs k res :
  exec r1 x cs k = Some res → exec (Alt r1 r2) x cs k = Some res.
Proof. simpl. by intros ->. Qed.

Lemma exec_Alt_some_r r1 r2 x cs k res :
  exec r2 x cs k = Some res → ∃ res', exec (Alt r1 r2) x cs k = Some res'.
Proof. simpl. intros H. destruct (exec r1 x cs k); by eexists. Qed.

(** The pattern matches where a clause starts: an optional period,
    whitespace, [See], whitespace and text that runs to the end of the
    field. *)
Lemma see_re_match_clause b d w ws X tail :
  (d = [] ∨ d = ["."]) → forallb is_space w = true →
  ws ≠ [] → forallb is_space ws = true → X ≠ [] → forallb dot X = true →
  field_end tail →
  ∃ res, match_at see_re (b, d ++ w ++ str "See" ++ ws ++ X ++ tail) = Some res.
Proof.
  intros Hd Hw Hne Hws HneX HX Htail. unfold match_at, see_re.
  assert (Hin : ∀ b', ∃ res,
            exec (cat [Lits "See"; Plus true is_space; Plus true dot; Eol])
                 (b', str "See" ++ ws ++ X ++ tail) [] accept = Some res).
  { intros b'. rewrite exec_cat_cons, exec_Lits_eq, exec_cat_cons.
    eapply (exec_Plus_some is_space ws); [done|done|].
    rewrite exec_cat_cons.
    apply exec_Plus_max; [done|done|by destruct Htail as [-> | ->]|].
    rewrite exec_cat_cons. cbn [exec]. unfold at_eol. cbn [snd].
    destruct Htail as [-> | ->]; by rewrite ?chr_eqb_refl, exec_cat_nil. }
  assert (Hk : ∀ b', ∃ res,
            exec (cat [Star true is_space; Lits "See"; Plus true is_space;
                       Plus true dot; Eol])
                 (b', w ++ str "See" ++ ws ++ X ++ tail) [] accept = Some res).
  { intros b'. rewrite exec_cat_cons. destruct (Hin (rev w ++ b')) as [res Hres].
    cbn [exec fst snd].
    by eapply (star_greedy_some is_space _ w b'). }
  rewrite exec_cat_cons. destruct Hd as [-> | ->].
  - destruct (Hk b) as [res Hres]. unfold Opt. eapply exec_Alt_some_r.
    cbn [exec app]. exact Hres.
  - destruct (Hk ("." :: b)) as [res Hres]. exists res. unfold Opt.
    apply exec_Alt_some_l. cbn [app]. rewrite exec_Lit_eq. exact Hres.
Qed.

Lemma field_end_align (X X' l l' tail tail' : text) :
  X ≠ [] → forallb dot X = true → X' ≠ [] → forallb dot X' = true →
  field_end tail → field_end tail' →
  l ++ X ++ tail = l' ++ X' ++ tail' → tail = tail'.
Proof.
  intros HneX HX HneX' HX' [-> | ->] [-> | ->] E; try done; exfalso.
  - rewrite app_nil_r in E.
    apply (proj2 (last_not_newline X l HneX HX) ((l' ++ X'))).
    by rewrite <- app_assoc.
  - rewrite app_nil_r in E. symmetry in E.
    apply (proj2 (last_not_newline X' l' HneX' HX') ((l ++ X))).
    by rewrite <- app_assoc.
Qed.

Lemma strip_see_short_exact pre t :
  see_tail t →
  (∀ q r, pre = q ++ r → r ≠ [] → ¬ see_tail (r ++ t)) →
  strip_see_short (pre ++ t) = strip (cut_period (rstrip pre)).
Proof.
  intros (ws & X & tail & -> & Hne & Hws & HneX & HX & Htail) Hc.
  destruct (first_match see_re pre [] (str "See" ++ ws ++ X ++ tail))
    as (u1 & u2 & [y cs] & -> & Hm & Hno).
  { rewrite app_nil_r.
    apply (see_re_match_clause (rev pre) [] [] ws X tail); [by left|done..]. }
  pose proof Hm as Hinv.
  apply see_re_inv in Hinv
    as (d & w & ws' & X' & E & Hd & Hw & Hne' & Hws' & HneX' & HX' & Hy).
  (* the clause that is matched is the one at [See] *)
  assert (Hu2 : u2 = d ++ w ∧ ws ++ X ++ tail = ws' ++ X' ++ snd y).
  { assert (E' : u2 ++ str "See" ++ ws ++ X ++ tail
                 = (d ++ w) ++ str "See" ++ ws' ++ X' ++ snd y)
      by (by rewrite <- app_assoc).
    apply app_eq_app in E' as [l [[-> E2]|[E1 E2]]].
    - destruct l as [|c l].
      { rewrite app_nil_r. split; [done|]. simpl in E2.
        by apply (app_inv_head (str "See")) in E2. }
      exfalso. apply (Hc (u1 ++ d ++ w) (c :: l)); [by rewrite <- !app_assoc|done|].
      exists ws', X', (snd y). split; [by symmetry|done].
    - destruct l as [|c l].
      { rewrite app_nil_r in E1. split; [done|]. simpl in E2.
        by apply (app_inv_head (str "See")) in E2. }
      exfalso. injection E2 as Hs _. subst c.
      apply (see_clause_start d w Hd Hw). rewrite E1, elem_of_app. right. by left. }
  destruct Hu2 as [-> Etail].
  assert (Hy' : field_end (snd y)) by done.
  assert (Ey : tail = snd y).
  { apply (field_end_align X X' ws ws'); done. }
  (* what [re.sub] returns *)
  assert (Hsub : strip_see_short ((u1 ++ d ++ w) ++ str "See" ++ ws ++ X ++ tail)
                 = strip u1).
  { unfold strip_see_short, re_sub, re_sub_count.
    rewrite <- app_assoc. rewrite sub_loop_nomatch by exact Hno.
    rewrite Ey in Hm |- *.
    replace ((d ++ w) ++ str "See" ++ ws ++ X ++ snd y)
      with (((d ++ w) ++ str "See" ++ ws ++ X) ++ snd y) in Hm |- *
      by (by rewrite <- !app_assoc).
    erewrite sub_loop_match; [|done| |exact Hm|done].
    2:{ intros E0. apply app_eq_nil in E0 as [_ E0]. done. }
    destruct Hy as [-> | ->].
    - simpl. by rewrite app_nil_r.
    - cbn [sub_loop may_replace Nat.eqb orb]. rewrite see_re_needs.
      + simpl. by rewrite strip_app_spaces.
      + by intros ?%list_elem_of_singleton. }
  rewrite Hsub. f_equal.
  (* the cut is at the leftmost place *)
  destruct Hd as [-> | ->].
  - simpl app. rewrite rstrip_app_spaces by done.
    assert (Hlast : ∀ u' c, u1 = u' ++ [c] → is_space c = false ∧ c ≠ ".").
    { intros u' c ->.
      pose proof (Hno u' [c] eq_refl ltac:(done)) as Hn. cbn [app] in Hn.
      split.
      - destruct (is_space c) eqn:Hsp; [|done]. exfalso.
        destruct (see_re_match_clause (rev u' ++ []) [] (c :: w) ws X tail)
          as [res Hres]; [by left|by simpl; rewrite Hsp|done..|].
        cbn [app] in Hres. congruence.
      - intros ->.
        destruct (see_re_match_clause (rev u' ++ []) ["."] w ws X tail)
          as [res Hres]; [by right|done..|].
        cbn [app] in Hres. congruence. }
    rewrite rstrip_keep by (intros u' c E0; by apply (Hlast u' c)).
    rewrite cut_period_keep; [done|].
    intros u' E0. by destruct (Hlast u' "." E0).
  - replace (u1 ++ ["."] ++ w) with ((u1 ++ ["."]) ++ w)
      by (by rewrite <- app_assoc).
    rewrite rstrip_app_spaces by done.
    by rewrite rstrip_ends_nonspace, cut_period_app.
Qed.

(** No reference starts inside a text that does not hold [See]. *)
Lemma see_tail_first pre t :
  contains (str "See") pre = false → see_tail t →
  ∀ q r, pre = q ++ r → r ≠ [] → ¬ see_tail (r ++ t).
Proof.
  intros Hc (ws & X & tail & -> & _) q r -> Hne (ws' & X' & tail' & E & _).
  destruct (see_prefix_inv r (ws ++ X ++ tail) (ws' ++ X' ++ tail') Hne E)
    as [r' ->].
  assert (contains (str "See") (q ++ str "See" ++ r') = true); [|congruence].
  apply contains_spec. by exists q, r'.
Qed.

(** * Records that the enrichment passes leave alone *)




(** * The cases of [test_generate.py], evaluated on the embedding *)

Example strip_rst_plain_text_unchanged :
  strip_rst (Some (str "hello world")) = str "hello world".
Proof. by vm_compute. Qed.

Example strip_rst_role_content :
  strip_rst (Some (str ":opt:`font_size`")) = str "font_size".
Proof. by vm_compute. Qed.

Example strip_rst_role_tilde_prefix :
  strip_rst (Some (str ":ref:`~some.module`")) = str "some.module".
Proof. by vm_compute. Qed.

Example strip_rst_literal_role :
  strip_rst (Some (str ":literal:`foo <bar>`")) = str "foo".
Proof. by vm_compute. Qed.

Example strip_rst_cross_reference_with_target :
  strip_rst (Some (str ":doc:`some doc <path/to/doc>`")) = str "some doc".
Proof. by vm_compute. Qed.

Example strip_rst_double_backtick_code :
  strip_rst (Some (str "use ``vim.cmd``")) = str "use vim.cmd".
Proof. by vm_compute. Qed.

Example strip_rst_ref_underscore :
  strip_rst (Some (str "see `my reference`_")) = str "see my reference".
Proof. by vm_compute. Qed.

Example strip_rst_note_directive :
  strip_rst (Some (str ".. note:: be careful")) = str "Note: be careful".
Proof. by vm_compute. Qed.

Example strip_rst_versionadded :
  strip_rst (Some (str ".. versionadded:: 0.30")) = str "(added in 0.30)".
Proof. by vm_compute. Qed.

Example strip_rst_code_block_removed :
  strip_rst (Some (str ".. code-block:: python" ++ [newline] ++ str "  x = 1")) = str "x = 1".
Proof. by vm_compute. Qed.

Example strip_rst_substitution_ref :
  strip_rst (Some (str "the |kitty| terminal")) = str "the kitty terminal".
Proof. by vm_compute. Qed.

Example strip_rst_literal_block_marker :
  strip_rst (Some (str "tasks::")) = str "tasks:".
Proof. by vm_compute. Qed.

Example strip_rst_angle_bracket_target_stripped :
  strip_rst (Some (str "some text <action-copy_to_clipboard>")) = str "some text".
Proof. by vm_compute. Qed.

Example strip_rst_url_preserved :
  strip_rst (Some (str "see <https://example.com>")) = str "see <https://example.com>".
Proof. by vm_compute. Qed.

Example strip_rst_combined_markup :
  strip_rst (Some (str ":opt:`url_style` can be :code:`curly` or :code:`straight`.")) = str "url_style can be curly or straight.".
Proof. by vm_compute. Qed.

Example strip_rst_upper_case_target_kept :
  strip_rst (Some (str "x <A>")) = str "x <A>".
Proof. by vm_compute. Qed.

Example extract_values_basic_extraction :
  extract_values (str "align") (Some (str "This can be :code:`left`, :code:`center`, or :code:`right`.")) = [str "left"; str "center"; str "right"].
Proof. by vm_compute. Qed.

Example extract_values_one_of :
  extract_values (str "opt") (Some (str "Must be one of :code:`yes`, :code:`no`.")) = [str "yes"; str "no"].
Proof. by vm_compute. Qed.

Example extract_values_no_trigger_phrase :
  extract_values (str "opt") (Some (str "The :code:`value` is used for something.")) = [].
Proof. by vm_compute. Qed.

Example extract_values_single_value_skipped :
  extract_values (str "opt") (Some (str "Can be :code:`only_one`.")) = [].
Proof. by vm_compute. Qed.

Example extract_values_cross_reference_skipped :
  extract_values (str "url_color") (Some (str "This can be :code:`curly` or :code:`straight`, see :opt:`url_style`.")) = [].
Proof. by vm_compute. Qed.

Example extract_values_same_opt_reference_allowed :
  extract_values (str "myopt") (Some (str "This can be :code:`a` or :code:`b`. See :opt:`myopt`.")) = [str "a"; str "b"].
Proof. by vm_compute. Qed.

Example extract_values_empty_input :
  extract_values (str "opt") (Some []) = [] ∧ extract_values (str "opt") None = [].
Proof. split; by vm_compute. Qed.

Example extract_values_first_paragraph_only :
  extract_values (str "opt") (Some ((str "This can be :code:`a` or :code:`b`." ++ [newline] ++ [newline] ++ str "Another paragraph :code:`c` :code:`d`."))) = [str "a"; str "b"].
Proof. by vm_compute. Qed.

Example extract_values_long_values_skipped :
  extract_values (str "opt") (Some (str "Can be :code:`xxxxxxxxxxxxxxxxxxxxxxxxxxxxxxx` or :code:`xxxxxxxxxxxxxxxxxxxxxxxxxxxxxxx2`.")) = [].
Proof. by vm_compute. Qed.

Example extract_values_deduplication :
  extract_values (str "opt") (Some (str "Can be :code:`a`, :code:`b`, or :code:`a`.")) = [str "a"; str "b"].
Proof. by vm_compute. Qed.

Example none_basic_detection :
  none_is_special_value (str "opt") (Some (str "Set to :code:`none` to disable.")) = true.
Proof. by vm_compute. Qed.

Example none_no_none_mention :
  none_is_special_value (str "opt") (Some (str "Set to :code:`yes` to enable.")) = false.
Proof. by vm_compute. Qed.

Example none_different_opt_reference :
  none_is_special_value (str "opt") (Some (str "The :opt:`other_opt` can be :code:`none`.")) = false.
Proof. by vm_compute. Qed.

Example none_same_opt_reference :
  none_is_special_value (str "opt") (Some (str "The :opt:`opt` can be :code:`none`.")) = true.
Proof. by vm_compute. Qed.

Example none_multiple_sentences :
  none_is_special_value (str "opt") (Some (str "First sentence. Set to :code:`none` to disable. Last sentence.")) = true.
Proof. by vm_compute. Qed.

Example is_stub_doc_stub :
  is_stub_doc (Some (str "See launch for details.")) = true.
Proof. by vm_compute. Qed.

Example is_stub_doc_stub_with_content :
  is_stub_doc (Some (str "See launch for details. x")) = true.
Proof. by vm_compute. Qed.

Example is_stub_doc_real_content :
  is_stub_doc (Some (str "See launch for details. This is a long explanation of what the action does.")) = false.
Proof. by vm_compute. Qed.

Example is_stub_doc_no_see_prefix :
  is_stub_doc (Some (str "This is normal documentation text.")) = false.
Proof. by vm_compute. Qed.

Example parse_basic_flag :
  parse_options_spec (Some ((str "--type" ++ [newline] ++ str "type=choices" ++ [newline] ++ str "choices=window,tab,os_window" ++ [newline] ++ str "The type of thing."))) = [(str "--type=window|tab|os_window", str "The type of thing.")].
Proof. by vm_compute. Qed.

Example parse_multiple_flags :
  parse_options_spec (Some ((str "--title" ++ [newline] ++ str "The window title." ++ [newline] ++ str "--type" ++ [newline] ++ str "type=choices" ++ [newline] ++ str "choices=window,tab" ++ [newline] ++ str "The type."))) = [(str "--title", str "The window title."); (str "--type=window|tab", str "The type.")].
Proof. by vm_compute. Qed.

Example parse_flag_with_default :
  parse_options_spec (Some ((str "--color" ++ [newline] ++ str "default=red" ++ [newline] ++ str "The colour to use."))) = [(str "--color", str "The colour to use. (default: red)")].
Proof. by vm_compute. Qed.

Example parse_list_type :
  parse_options_spec (Some ((str "--env" ++ [newline] ++ str "type=list" ++ [newline] ++ str "Environment variables."))) = [(str "--env (repeatable)", str "Environment variables.")].
Proof. by vm_compute. Qed.

Example parse_placeholder_skipped :
  parse_options_spec (Some ((str "#placeholder_for_formatting#" ++ [newline] ++ str "--title" ++ [newline] ++ str "The title."))) = [(str "--title", str "The title.")].
Proof. by vm_compute. Qed.

Example parse_synonym_flags :
  parse_options_spec (Some ((str "--cwd --directory" ++ [newline] ++ str "The working directory."))) = [(str "--cwd, --directory", str "The working directory.")].
Proof. by vm_compute. Qed.

Example parse_default_without_description :
  parse_options_spec (Some ((str "--color" ++ [newline] ++ str "default=red"))) = [(str "--color", str " (default: red)")].
Proof. by vm_compute. Qed.

Example strip_see_short_trailing_reference :
  strip_see_short (str "Foo. See bar.") = str "Foo".
Proof. by vm_compute. Qed.

Example strip_see_short_wrapped_reference :
  strip_see_short ((str "Foo. See the" ++ [newline] ++ str "docs")) = (str "Foo. See the" ++ [newline] ++ str "docs").
Proof. by vm_compute. Qed.


(** * The specified properties *)

(** C3, as stated, fails: the target [Target] does not start with
    [http://] or [https://], yet it is left in place, because its first
    character is not one of [a-z], [@], [/]. *)
Lemma strip_rst_target_counterexample :
  is_url (str "Target") = false
  ∧ strip_rst (Some (str "see <Target>")) = str "see <Target>".
Proof. split; by vm_compute. Qed.

(** C3 (amended): after plain text, a trailing [<target>] whose first
    character is in [a-z@/], whose other characters are word characters or
    one of [. @+=/:-], and which does not start with [http://] or
    [https://], is deleted together with the whitespace before it (line
    breaks included, and with what [strip] trims); a plain target that
    starts with [http://] or [https://] stays as it is, only leading
    whitespace of the whole text being trimmed. *)
Theorem strip_rst_trailing_target (pre ws : text) :
  is_plain pre = true → forallb is_space ws = true →
  (∀ h t, target_head h = true → forallb target_char t = true →
          is_url (h :: t) = false →
          strip_rst (Some (pre ++ ws ++ "<" :: h :: t ++ [">"])) = strip pre)
  ∧ (∀ url, is_plain url = true → is_url url = true →
            strip_rst (Some (pre ++ ws ++ "<" :: url ++ [">"]))
            = lstrip (pre ++ ws ++ "<" :: url ++ [">"])).
Proof.
  intros Hpre Hws. split.
  - intros h t. by apply strip_rst_target.
  - intros url. by apply strip_rst_url.
Qed.

Lemma strip_rst_trailing_target_witness :
  (∀ h t, target_head h = true → forallb target_char t = true →
          is_url (h :: t) = false →
          strip_rst (Some (str "some text" ++ [" "; newline] ++ "<" :: h :: t ++ [">"]))
          = strip (str "some text"))
  ∧ (∀ url, is_plain url = true → is_url url = true →
            strip_rst (Some (str "some text" ++ [" "; newline] ++ "<" :: url ++ [">"]))
            = lstrip (str "some text" ++ [" "; newline] ++ "<" :: url ++ [">"])).
Proof.
  apply (strip_rst_trailing_target (str "some text") [" "; newline]);
    vm_compute; reflexivity.
Defined.

(** C7, as stated, fails: plain text with whitespace at an end is not a
    fixed point, since the result is trimmed. *)
Lemma strip_rst_padded_counterexample :
  is_plain (str " a") = true
  ∧ strip_rst (Some (str " a")) ≠ str " a".
Proof. split; by vm_compute. Qed.

(** C7 (amended): on text free of the marks of the dialect (no backtick,
    [<], [|] or [::]) [strip_rst] is idempotent and returns the text with
    the whitespace at its ends removed; text that has none there is a
    fixed point. *)
Theorem strip_rst_plain_fixed_point (t : text) :
  is_plain t = true →
  strip_rst (Some (strip_rst (Some t))) = strip_rst (Some t)
  ∧ strip_rst (Some t) = strip t
  ∧ (is_trimmed t = true → strip_rst (Some t) = t).
Proof.
  intros Ht. rewrite (strip_rst_of_plain t) by done.
  rewrite (strip_rst_of_plain (strip t)) by (by apply is_plain_strip).
  repeat split.
  - apply strip_idem.
  - intros H. by apply bool_decide_eq_true in H.
Qed.

Lemma strip_rst_plain_fixed_point_witness :
  strip_rst (Some (strip_rst (Some (str "hello world")))) = strip_rst (Some (str "hello world"))
  ∧ strip_rst (Some (str "hello world")) = strip (str "hello world")
  ∧ (is_trimmed (str "hello world") = true →
     strip_rst (Some (str "hello world")) = str "hello world").
Proof.
  apply (strip_rst_plain_fixed_point (str "hello world")). vm_compute. reflexivity.
Defined.

(** C1: [extract_values] is empty on absent and on empty text.  On any
    other text it looks at the first paragraph (the text before the first
    blank line) and there at the first sentence that holds a trigger
    phrase: the text [S] without a period, standing at the start or after
    a period, that holds one of the phrases in any case of its letters,
    together with the period that ends it.  When the paragraph has no
    such sentence the result is empty.  Else let [refs] be the option
    cross-references and [toks] the verbatim-code tokens of the sentence,
    from left to right: the result is [toks], deduplicated in first-seen
    order, when every reference is the queried option, the deduplicated
    tokens are at least two and each is shorter than 30 characters; it is
    empty when a reference names another option, when the deduplicated
    tokens are fewer than two, and when one of them has 30 characters or
    more.  Every text has a first paragraph, every paragraph has such a
    sentence or none, and every sentence has its references and
    tokens. *)
Theorem extract_values_spec (opt_name : text) :
  extract_values opt_name None = []
  ∧ extract_values opt_name (Some []) = []
  ∧ (∀ s P, s ≠ [] → is_first_paragraph s P →
       (no_trigger_sentence P → extract_values opt_name (Some s) = [])
       ∧ (∀ A S B refs toks,
            trigger_sentence P A S B →
            marked (str ":opt:`") is_word (S ++ ["."]) refs →
            marked (str ":code:`") (λ c, negb (chr_eqb c backtick)) (S ++ ["."]) toks →
            (Forall (λ o, o = opt_name) refs → 2 ≤ length (first_seen toks) →
             Forall (λ v, length v < 30) (first_seen toks) →
             extract_values opt_name (Some s) = first_seen toks)
            ∧ (¬ Forall (λ o, o = opt_name) refs → extract_values opt_name (Some s) = [])
            ∧ (length (first_seen toks) < 2 → extract_values opt_name (Some s) = [])
            ∧ (¬ Forall (λ v, length v < 30) (first_seen toks) →
               extract_values opt_name (Some s) = [])))
  ∧ (∀ s, ∃ P, is_first_paragraph s P)
  ∧ (∀ P, no_trigger_sentence P ∨ (∃ A S B, trigger_sentence P A S B))
  ∧ (∀ s, ∃ refs toks,
       marked (str ":opt:`") is_word s refs
       ∧ marked (str ":code:`") (λ c, negb (chr_eqb c backtick)) s toks).
Proof.
  split; [done|]. split; [done|]. split; [|split; [|split]].
  - intros s P Hs HP. split.
    + intros Hno. unfold extract_values.
      destruct s as [|c s]; [done|]. cbn [truthy negb default from_option id].
      change (first_piece (split_str two_newlines (c :: s)))
        with (first_paragraph (c :: s)).
      by rewrite (is_first_paragraph_spec _ _ HP), trigger_none.
    + intros A S B refs toks HT Hrefs Htoks.
      rewrite (extract_values_sentence opt_name s P A S B) by done.
      rewrite (opt_refs_marked _ _ Hrefs), (code_tokens_marked _ _ Htoks).
      destruct (existsb _ refs) eqn:Hex.
      * assert (¬ Forall (λ o, o = opt_name) refs) as Hn.
        { intros HF. apply existsb_negb_Forall in HF. congruence. }
        split; [done|]. split; [done|]. split; done.
      * apply existsb_negb_Forall in Hex.
        destruct (2 <=? length (first_seen toks))%nat eqn:H2.
        -- apply Nat.leb_le in H2.
           destruct (forallb _ (first_seen toks)) eqn:H30; cbn [andb].
           ++ apply forallb_short_Forall in H30.
              split; [done|]. split; [done|]. split; [lia|done].
           ++ assert (¬ Forall (λ v, length v < 30) (first_seen toks)) as Hn.
              { intros HF. apply forallb_short_Forall in HF. congruence. }
              split; [done|]. split; [done|]. split; done.
        -- apply Nat.leb_gt in H2. cbn [andb].
           split; [lia|]. split; [done|]. split; done.
  - apply first_paragraph_exists.
  - apply trigger_cases.
  - intros s. exists (opt_refs s), (code_tokens s). split.
    + apply (marked_total ":opt:`" is_word eq_refl (length s)). lia.
    + apply (marked_total ":code:`" (not_chr backtick) eq_refl (length s)). lia.
Qed.

(** The tokens of a sentence that names the queried option. *)
Lemma extract_values_spec_witness :
  extract_values (str "shape")
    (Some (str "The :opt:`shape` can be :code:`block` or :code:`beam`. More."
           ++ [newline; newline] ++ str "Second paragraph."))
  = [str "block"; str "beam"].
Proof.
  destruct (extract_values_spec (str "shape")) as (_ & _ & H & _).
  destruct (H (str "The :opt:`shape` can be :code:`block` or :code:`beam`. More."
               ++ [newline; newline] ++ str "Second paragraph.")
              (str "The :opt:`shape` can be :code:`block` or :code:`beam`. More."))
    as [_ H2].
  - done.
  - right. exists (str "Second paragraph."). split; [done|].
    by apply no_blank_line.
  - destruct (H2 [] (str "The :opt:`shape` can be :code:`block` or :code:`beam`")
                (str " More.") [str "shape"] [str "block"; str "beam"])
      as [H3 _].
    + split; [done|]. split; [by left|]. split.
      * apply (bool_decide_unpack _). by vm_compute.
      * split; [|apply has_trigger_nil].
        exists "can be"%string, (str "The :opt:`shape` "), (str "can be"),
          (str " :code:`block` or :code:`beam`").
        split; [by apply (bool_decide_unpack _); vm_compute|].
        split; [done|]. by apply reads_self.
    + apply (marked_next (str ":opt:`") is_word (str "The ") (str "shape")
               (str " can be :code:`block` or :code:`beam`.") []); [done..|].
      by apply marked_none.
    + apply (marked_next (str ":code:`") _ (str "The :opt:`shape` can be ")
               (str "block") (str " or :code:`beam`.") [str "beam"]); [done..|].
      apply (marked_next (str ":code:`") _ (str " or ") (str "beam") (str ".") []);
        [done..|].
      by apply marked_none.
    + apply H3.
      * by repeat constructor.
      * simpl. lia.
      * repeat constructor; simpl; lia.
Defined.

(** C2: [none_is_special_value] is false on absent text, and on a text
    with the sentences [l] it is true exactly when some sentence of [l]
    holds the verbatim-code token [none] and every option cross-reference
    of that sentence is the queried option, which also holds when the
    sentence has no cross-reference.  The sentences are the pieces of the
    text between the breaks: a break is the whole run of whitespace that
    follows a period, an exclamation mark or a question mark.  Every text
    has its sentences and every sentence its cross-references. *)
Theorem none_is_special_value_spec (opt_name : text) :
  none_is_special_value opt_name None = false
  ∧ (∀ s l, split_sentences s l →
       (none_is_special_value opt_name (Some s) = true ↔
        ∃ sent refs, sent ∈ l ∧ mentions_none sent
                     ∧ marked (str ":opt:`") is_word sent refs
                     ∧ Forall (λ o, o = opt_name) refs))
  ∧ (∀ s, ∃ l, split_sentences s l)
  ∧ (∀ sent, ∃ refs, marked (str ":opt:`") is_word sent refs).
Proof.
  split; [done|]. split; [|split].
  - intros s l Hl. destruct s as [|c s].
    { split; [done|]. intros (sent & refs & Hin & (u & v & E) & _). exfalso.
      inversion Hl as [s0 _ E1 E2|u0 c0 ws v0 l0 _ _ _ _ _ _ E1 E2].
      - rewrite <- E2 in Hin. apply list_elem_of_singleton in Hin.
        rewrite Hin in E. by destruct u.
      - by destruct u0. }
    unfold none_is_special_value. cbn [truthy negb default from_option id].
    rewrite (re_split_sentences _ _ Hl), none_loop_spec. split.
    + intros (sent & Hin & Hc & Hf). exists sent, (opt_refs sent).
      split; [done|]. split; [by apply contains_spec|]. split; [|done].
      apply (marked_total ":opt:`" is_word eq_refl (length sent)). lia.
    + intros (sent & refs & Hin & Hc & Hm & Hf). exists sent.
      split; [done|]. split; [by apply contains_spec|].
      by rewrite (opt_refs_marked _ _ Hm).
  - intros s. by apply (split_sentences_total (length s)).
  - intros sent. exists (opt_refs sent).
    apply (marked_total ":opt:`" is_word eq_refl (length sent)). lia.
Qed.

(** The second sentence mentions [none] and names no option; the
    reference to another option stands in the first. *)
Lemma none_is_special_value_spec_witness :
  none_is_special_value (str "shape")
    (Some (str "Use :opt:`other`! Then :code:`none` works.")) = true.
Proof.
  destruct (none_is_special_value_spec (str "shape")) as (_ & H & _).
  apply (H (str "Use :opt:`other`! Then :code:`none` works.")
           [str "Use :opt:`other`!"; str "Then :code:`none` works."]).
  - apply (sentences_cons (str "Use :opt:`other`") "!" (str " ")
             (str "Then :code:`none` works.") [str "Then :code:`none` works."]).
    + by apply no_breakb_sound.
    + right. by left.
    + done.
    + done.
    + done.
    + constructor. by apply no_breakb_sound.
  - exists (str "Then :code:`none` works."), [].
    split; [right; left|]. split; [by exists (str "Then "), (str " works.")|].
    split; [by apply marked_none|constructor].
Defined.




(** C9, as stated, fails: a flag line with no description lines but with
    [default] metadata yields a description that is not empty. *)
Lemma parse_options_spec_no_desc_counterexample :
  no_desc_line (str "default=red")
  ∧ parse_options_spec (Some (str "--color" ++ [newline] ++ str "default=red"))
    = [(str "--color", str " (default: red)")].
Proof. split; [right|]; by vm_compute. Qed.

(** C9 (amended): a flag line followed, up to the next flag line or the
    end of input, only by lines that are skipped or read as metadata
    yields one entry; its description is the empty string when none of
    these lines is a [default=] line, and otherwise is empty or exactly
    [" (default: v)"] for a non-empty value [v]. *)
Theorem parse_options_spec_no_description
    (spec : option text) (A : list text) (f : text) (metas B : list text) :
  spec_lines spec = A ++ f :: metas ++ B →
  is_flag_line f = true → Forall no_desc_line metas →
  (B = [] ∨ ∃ f' B', B = f' :: B' ∧ is_flag_line f' = true) →
  ∃ sig desc,
    parse_options_spec spec = parse_lines A ++ (sig, desc) :: parse_lines B
    ∧ renders (sig, desc) (flag_names f)
    ∧ (desc = [] ∨ ∃ v, v ≠ [] ∧ desc = str " (default: " ++ v ++ str ")")
    ∧ (Forall (λ l, startswith (str "default=") (strip l) = false) metas →
       desc = []).
Proof.
  intros Hls Hf Hm HB. rewrite parse_options_spec_lines, Hls.
  rewrite parse_lines_app by done.
  destruct (parse_flag_no_desc f metas Hf Hm) as (sig & desc & Hp & Hr).
  exists sig, desc. split; [|done]. f_equal.
  destruct HB as [->|(f' & B' & -> & Hf')].
  - by rewrite app_nil_r, Hp.
  - change (f :: metas ++ f' :: B') with ((f :: metas) ++ f' :: B').
    rewrite parse_lines_app by done. by rewrite Hp.
Qed.

Lemma parse_options_spec_no_description_witness :
  ∃ sig desc,
    parse_options_spec (Some (str "--a" ++ [newline] ++ str "type=list"
                                ++ [newline] ++ str "--b"))
    = parse_lines [] ++ (sig, desc) :: parse_lines [str "--b"]
    ∧ renders (sig, desc) (flag_names (str "--a"))
    ∧ (desc = [] ∨ ∃ v, v ≠ [] ∧ desc = str " (default: " ++ v ++ str ")")
    ∧ (Forall (λ l, startswith (str "default=") (strip l) = false) [str "type=list"] →
       desc = []).
Proof.
  apply (parse_options_spec_no_description
           (Some (str "--a" ++ [newline] ++ str "type=list" ++ [newline] ++ str "--b"))
           [] (str "--a") [str "type=list"] [str "--b"]).
  - by vm_compute.
  - by vm_compute.
  - constructor; [|constructor]. right. by vm_compute.
  - right. exists (str "--b"), []. by vm_compute.
Defined.

(** C10: [parse_options_spec] returns exactly one entry per line that
    starts with [--], in the order of these lines, each entry carrying the
    synonym list of its line; lines before the first flag line add
    nothing. *)
Theorem parse_options_spec_entries (spec : option text) :
  Forall2 renders (parse_options_spec spec)
    (map flag_names (List.filter is_flag_line (spec_lines spec)))
  ∧ length (parse_options_spec spec)
    = length (List.filter is_flag_line (spec_lines spec))
  ∧ ∀ pre rest,
      spec = Some (pre ++ newline :: rest) →
      Forall (λ l, is_flag_line l = false) (split_str [newline] pre) →
      parse_options_spec spec = parse_options_spec (Some rest).
Proof.
  split; [|split].
  - rewrite parse_options_spec_lines. apply parse_lines_renders.
  - rewrite parse_options_spec_lines. apply parse_lines_length.
  - intros pre rest -> Hpre. rewrite !parse_options_spec_lines. simpl.
    rewrite split_str_newline_app. unfold parse_lines.
    by rewrite foldl_step_skip.
Qed.

(** C4: [is_stub_doc] is false on absent and on empty text.  A text that
    starts with the clause [See], a gap, [for details], an optional period
    and whitespace loses exactly that clause, taken up to the first
    [for details] that can end it, and is a stub exactly when the rest,
    trimmed, is shorter than 20 characters.  A text that does not start
    with such a clause loses nothing and is a stub exactly when it is,
    trimmed, shorter than 20 characters.  [See X for details.] is a stub,
    and it is no stub any more once 20 or more non-whitespace characters
    follow the clause. *)
Theorem is_stub_doc_spec :
  is_stub_doc None = false
  ∧ is_stub_doc (Some []) = false
  ∧ (∀ mid d w rest,
       details_gap mid → first_details mid → clause_end d w rest →
       remove_see_details (str "See" ++ mid ++ for_details ++ d ++ w ++ rest) = rest
       ∧ (is_stub_doc (Some (str "See" ++ mid ++ for_details ++ d ++ w ++ rest)) = true
          ↔ length (strip rest) < 20))
  ∧ (∀ t, t ≠ [] →
       (∀ mid tail, t = str "See" ++ mid ++ for_details ++ tail → ¬ details_gap mid) →
       remove_see_details t = t
       ∧ (is_stub_doc (Some t) = true ↔ length (strip t) < 20))
  ∧ is_stub_doc (Some (str "See X for details.")) = true
  ∧ (∀ X tail, no_space tail → 20 ≤ length tail →
       is_stub_doc (Some (str "See " ++ X ++ str " for details." ++ tail)) = false).
Proof.
  split; [done|]. split; [done|]. split; [|split; [|split]].
  - intros mid d w rest Hgap Hmin Hend.
    pose proof (remove_see_details_clause mid d w rest Hgap Hmin Hend) as E.
    split; [done|]. unfold is_stub_doc.
    change (truthy (Some (str "See" ++ ?x))) with true.
    cbn [negb default from_option id]. unfold remove_see_details in E. rewrite E.
    apply Nat.ltb_lt.
  - intros t Hne Hno. pose proof (remove_see_details_none t Hno) as E.
    split; [done|]. unfold is_stub_doc. destruct t as [|c t]; [done|].
    cbn [truthy negb default from_option id]. unfold remove_see_details in E.
    rewrite E. apply Nat.ltb_lt.
  - by vm_compute.
  - intros X tail Hns Hlen. unfold is_stub_doc.
    cbn [truthy negb default from_option id app str list_ascii_of_string].
    destruct (see_details_keeps_tail X tail Hns) as (v & Hv).
    cbn [app str list_ascii_of_string] in Hv. rewrite Hv.
    apply Nat.ltb_ge. etrans; [exact Hlen|]. apply strip_keeps_tail; [|done].
    destruct tail; [simpl in Hlen; lia|done].
Qed.

(** The clause is removed and the 34 characters after it are measured. *)
Lemma is_stub_doc_spec_witness :
  remove_see_details (str "See launch for details. Opens a window in the current tab.")
  = str "Opens a window in the current tab."
  ∧ (is_stub_doc (Some (str "See launch for details. Opens a window in the current tab."))
     = true
     ↔ length (strip (str "Opens a window in the current tab.")) < 20).
Proof.
  destruct is_stub_doc_spec as (_ & _ & H & _).
  apply (H (str " launch ") ["."] [" "] (str "Opens a window in the current tab.")).
  - split; [by apply (bool_decide_unpack _)|].
    split; [by exists " ", (str "launch ")|by exists (str " launch"), " "].
  - intros m1 c m2 x E Hne Hc. cbn in E.
    repeat (destruct m1 as [|? m1];
            [injection E as <- <-; first [done|by vm_compute in Hc|by vm_compute]
            |injection E as <- E]).
    by destruct m1.
  - split; [by left|done].
Defined.




(** C6, as stated, fails: a [See] reference that closes the field but
    runs over a line break is not removed, since [.+$] stays on the line
    where [See] stands and has to reach the end of the text. *)
Lemma enrich_short_multiline_counterexample :
  strip_see_short (str "Foo. See the" ++ [newline] ++ str "docs")
  = str "Foo. See the" ++ [newline] ++ str "docs".
Proof. by vm_compute. Qed.

(** C6 (amended): after a completed pass, a record whose [short] is a
    text [pre] followed by a reference that closes the field ([See],
    whitespace, and text without a line break that runs to the end of the
    field or to its final line break), where no such reference starts
    earlier inside [pre], has as its new [short] the text [pre] without
    its trailing whitespace, then without one trailing period, trimmed. *)
Theorem enrich_short_see_clause (src : sources) (am am' : gmap text action)
    (nm : text) (a : action) (pre t : text) :
  enrich_stub_actions src am = Ok am' → am !! nm = Some a →
  short a = pre ++ t → see_tail t →
  (∀ q r, pre = q ++ r → r ≠ [] → ¬ see_tail (r ++ t)) →
  ∃ a', am' !! nm = Some a' ∧ name a' = name a
        ∧ short a' = strip (cut_period (rstrip pre)).
Proof.
  intros Hrun Ha Hshort Ht Hfirst.
  destruct (enrich_short src am am' nm a Hrun Ha) as (a' & Ha' & Hn & Hs).
  exists a'. split; [done|]. split; [done|].
  rewrite Hs, Hshort. by apply strip_see_short_exact.
Qed.

Lemma enrich_short_see_clause_witness :
  ∃ a', (strip_see <$> ({[ str "quit" := Action (str "quit") (str "Quit kitty. See the docs.") [] ]}
           : gmap text action)) !! str "quit" = Some a'
        ∧ name a' = str "quit"
        ∧ short a' = str "Quit kitty".
Proof.
  apply (enrich_short_see_clause
           (Sources (Raise ImportError) [] (Raise ImportError))
           {[ str "quit" := Action (str "quit") (str "Quit kitty. See the docs.") [] ]}
           _ (str "quit")
           (Action (str "quit") (str "Quit kitty. See the docs.") [])
           (str "Quit kitty. ") (str "See the docs.")).
  - unfold enrich_stub_actions, enrich_launch. cbn [launch_options_spec shortcut_map].
    by rewrite lookup_singleton_ne.
  - by rewrite lookup_singleton_eq.
  - reflexivity.
  - exists [" "], (str "the docs."), []. repeat split; by try left.
  - apply see_tail_first; [reflexivity|].
    exists [" "], (str "the docs."), []. repeat split; by try left.
Defined.
(** * Further properties of the pipeline *)

(** What [strip_rst] returns has no whitespace at either end: trimming
    it again changes nothing, and neither its first nor its last
    character is whitespace. *)
Theorem strip_rst_trimmed (t : option text) :
  strip (strip_rst t) = strip_rst t
  ∧ (∀ c s, strip_rst t = c :: s → is_space c = false)
  ∧ (∀ s c, strip_rst t = s ++ [c] → is_space c = false).
Proof.
  unfold strip_rst. destruct (negb (truthy t)).
  - split; [done|]. split; [done|]. intros s c E. by destruct s.
  - split; [apply strip_idem|]. split.
    + intros c s. apply strip_first_nonspace.
    + intros s c. apply strip_last_nonspace.
Qed.

(** An interpreted-text role [:role:`body`] inside plain text is replaced
    by its body: rule 1 keeps the body of [:code:] and [:literal:] as it
    is, rule 3 drops one leading [~] of the body of any other role; the
    result is trimmed. *)
Theorem strip_rst_role (pre role body post : text) :
  role ≠ [] → forallb is_lower role = true →
  is_plain (pre ++ role_display role body ++ post) = true →
  strip_rst (Some (pre ++ ":" :: role ++ ":" :: backtick :: body ++ backtick :: post))
  = strip (pre ++ role_display role body ++ post).
Proof.
  intros Hne Hlow Hplain.
  pose proof Hplain as Hparts.
  apply is_plain_app in Hparts as [Hpre Hparts].
  apply is_plain_app in Hparts as [Hdisp Hpost].
  apply is_plain_spec in Hpre as (Hpre & Hpre' & _).
  apply is_plain_spec in Hpost as (Hpost & Hpost' & _).
  apply is_plain_spec in Hdisp as (Hdisp & Hdisp' & _).
  destruct (lower_no_mark role Hlow) as (Hr1 & Hr2 & Hr3).
  assert (Hbody : (backtick ∉ body) ∧ ("<" ∉ body)).
  { destruct (role_display_cases role body) as [E|E]; rewrite E;
      [done|]. split; by intros [?|?]%elem_of_cons. }
  destruct Hbody as [Hbody Hbody'].
  set (m := ":" :: role ++ ":" :: backtick :: body ++ [backtick]).
  assert (Em : ∀ post', ":" :: role ++ ":" :: backtick :: body ++ backtick :: post'
                        = m ++ post').
  { intros post'. unfold m. simpl. rewrite <- !app_assoc. simpl.
    by rewrite <- !app_assoc. }
  (* where a role pattern can match *)
  assert (Halign : ∀ u v R G tail,
            pre ++ m ++ post = u ++ v →
            v = ":" :: R ++ ":" :: backtick :: G ++ backtick :: tail →
            backtick ∉ R → ":" ∉ R → backtick ∉ G →
            u = pre ∧ R = role ∧ G = body ∧ tail = post).
  { intros u v R G tail E -> HR1 HR2 HG. rewrite <- Em in E.
    by apply (role_align pre role body post u R G tail). }
  unfold strip_rst. rewrite truthy_app_cons. cbn [negb default from_option id].
  f_equal.
  change rst_rules with ([(re_code_role, [TGroup 1])] ++ [(re_xref_role, [TGroup 1])]
                         ++ [(re_inline_role, [TGroup 1])] ++ drop 3 rst_rules).
  rewrite !apply_rules_app. unfold apply_rules at 2 3 4. cbn [foldl fst snd].
  rewrite !Em.
  unfold role_display in *. case_bool_decide as Hrole.
  - (* rule 1 takes the role *)
    rewrite (re_sub_one re_code_role [TGroup 1] pre m post [(1, body)]).
    + cbn [expand map concat get_group List.find fst snd Nat.eqb]. rewrite app_nil_r.
      rewrite (re_sub_plain re_xref_role) by (done || (right; left)).
      rewrite (re_sub_plain re_inline_role) by (done || (do 2 right; left)).
      apply apply_rules_plain_sub; [apply subseteq_drop|done].
    + done.
    + intros b u v E Hu. destruct (match_at re_code_role (b, v)) as [[y cs]|] eqn:Hm;
        [|done].
      apply code_role_inv in Hm as (R & G & Hv & HR & HG).
      destruct (code_or_literal R HR) as [HR1 HR2].
      by destruct (Halign u v R G (snd y) E Hv HR1 HR2 HG) as (-> & _).
    + intros b. rewrite <- Em. by apply code_role_match.
  - (* rule 3 takes the role *)
    rewrite (re_sub_nomatch re_code_role).
    2:{ intros u v E. destruct (match_at re_code_role (rev u, v)) as [[y cs]|] eqn:Hm;
          [|done].
        apply code_role_inv in Hm as (R & G & Hv & HR & HG).
        destruct (code_or_literal R HR) as [HR1 HR2].
        destruct (Halign u v R G (snd y) E Hv HR1 HR2 HG) as (_ & -> & _). done. }
    rewrite (re_sub_nomatch re_xref_role).
    2:{ intros u v E. apply (needs_sound "<"); [by vm_compute|].
        intros Hin. assert (Hin' : "<" ∈ pre ++ m ++ post)
          by (rewrite E; apply elem_of_app; by right).
        unfold m in Hin'.
        rewrite !elem_of_app, !elem_of_cons, !elem_of_app, !elem_of_cons,
          !elem_of_app, list_elem_of_singleton in Hin'.
        destruct Hin' as [?|[[?|[?|[?|[?|[?|?]]]]]|?]]; done. }
    rewrite (re_sub_one re_inline_role [TGroup 1] pre m post [(1, without_tilde body)]).
    + cbn [expand map concat get_group List.find fst snd Nat.eqb]. rewrite app_nil_r.
      apply apply_rules_plain_sub; [apply subseteq_drop|done].
    + done.
    + intros b u v E Hu. destruct (match_at re_inline_role (b, v)) as [[y cs]|] eqn:Hm;
        [|done].
      apply inline_role_inv in Hm as (R & G & Hv & HneR & HR & HG).
      destruct (lower_no_mark R HR) as (HR1 & HR2 & _).
      by destruct (Halign u v R G (snd y) E Hv HR1 HR2 HG) as (-> & _).
    + intros b. rewrite <- Em. by apply inline_role_match.
Qed.

Lemma strip_rst_role_witness :
  strip_rst (Some (str "Set " ++ ":" :: str "opt" ++ ":" :: backtick
                     :: str "~font_size" ++ backtick :: str " first. "))
  = strip (str "Set " ++ role_display (str "opt") (str "~font_size") ++ str " first. ").
Proof.
  apply (strip_rst_role (str "Set ") (str "opt") (str "~font_size") (str " first. "));
    [done|by vm_compute|by vm_compute].
Defined.

(** A substitution reference [|word|] inside plain text is replaced by
    the word (rule 10); the result is trimmed. *)
Theorem strip_rst_substitution (pre w post : text) :
  w ≠ [] → forallb is_word w = true → is_plain (pre ++ w ++ post) = true →
  strip_rst (Some (pre ++ "|" :: w ++ "|" :: post)) = strip (pre ++ w ++ post).
Proof.
  intros Hne Hw Hplain.
  pose proof Hplain as Hparts.
  apply is_plain_app in Hparts as [Hpre Hparts].
  apply is_plain_app in Hparts as [_ Hpost].
  apply is_plain_spec in Hpre as (Hpre1 & Hpre2 & Hpre3 & Hpre4).
  apply is_plain_spec in Hpost as (Hpost1 & Hpost2 & Hpost3 & Hpost4).
  destruct (word_no_mark w Hw) as (Hw1 & Hw2 & Hw3 & Hw4).
  set (m := "|" :: w ++ ["|"]).
  assert (Em : ∀ post', "|" :: w ++ "|" :: post' = m ++ post').
  { intros post'. unfold m. simpl. by rewrite <- app_assoc. }
  unfold strip_rst. rewrite truthy_app_cons. cbn [negb default from_option id].
  f_equal.
  change rst_rules with (take 9 rst_rules ++ [(re_subst, [TGroup 1])]
                         ++ [(re_literal_block, [TGroup 1; TLit (str ":")])]).
  rewrite !apply_rules_app. unfold apply_rules at 1 2. cbn [foldl fst snd].
  rewrite (apply_rules_nomatch (take 9 rst_rules)).
  2:{ intros r tpl u v Hin E.
      assert (Hv : ∀ c, c ∈ v → c ∈ pre ++ "|" :: w ++ "|" :: post)
        by (intros c Hc; rewrite E; apply elem_of_app; by right).
      assert (Hmem : ∀ c, c ≠ "|" → c ∈ v → c ∈ pre ∨ c ∈ w ∨ c ∈ post).
      { intros c Hc Hin'. apply Hv in Hin'.
        rewrite elem_of_app, elem_of_cons, elem_of_app, elem_of_cons in Hin'.
        tauto. }
      apply (rst_rule_nomatch_head r tpl); [done| | |].
      - intros H. by destruct (Hmem backtick ltac:(by vm_compute) H) as [?|[?|?]].
      - intros H. by destruct (Hmem "<" ltac:(by vm_compute) H) as [?|[?|?]].
      - assert (Hall : contains (str "::") (pre ++ "|" :: w ++ "|" :: post) = false).
        { apply no_dcolon_insert; [done|done|].
          apply no_dcolon_insert; [done|by apply no_colon_no_dcolon|done]. }
        rewrite E in Hall. by apply contains_false_app in Hall as [_ ?]. }
  rewrite Em.
  rewrite (re_sub_one re_subst [TGroup 1] pre m post [(1, w)]).
  - cbn [expand map concat get_group List.find fst snd Nat.eqb]. rewrite app_nil_r.
    apply re_sub_plain; [do 10 right; left|done].
  - done.
  - intros b u v E Hu. destruct (match_at re_subst (b, v)) as [[y cs]|] eqn:Hm;
      [|done].
    apply subst_inv in Hm as (W & -> & HneW & HW).
    destruct (word_no_mark W HW) as (_ & _ & HW3 & _).
    rewrite <- Em in E.
    by destruct (subst_align pre w post u W (snd y) E) as (-> & _).
  - intros b. rewrite <- Em. by apply subst_match.
Qed.

Lemma strip_rst_substitution_witness :
  strip_rst (Some (str "the " ++ "|" :: str "kitty" ++ "|" :: str " terminal"))
  = strip (str "the " ++ str "kitty" ++ str " terminal").
Proof.
  apply (strip_rst_substitution (str "the ") (str "kitty") (str " terminal"));
    [done|by vm_compute|by vm_compute].
Defined.

(** [extract_values] invents nothing: the list it returns is empty or
    holds at least two values, without repetition, each of 1 to 29
    characters; every value is free of backticks and stands in the text
    as [:code:`value`]. *)
Theorem extract_values_sound (opt_name : text) (t : option text) :
  (extract_values opt_name t = []
   ∨ (2 ≤ length (extract_values opt_name t)
      ∧ NoDup (extract_values opt_name t)
      ∧ Forall (λ v, 0 < length v < 30) (extract_values opt_name t)))
  ∧ ∀ v, v ∈ extract_values opt_name t →
      (backtick ∉ v)
      ∧ ∃ s, t = Some s ∧ contains (str ":code:`" ++ v ++ [backtick]) s = true.
Proof.
  unfold extract_values.
  destruct t as [[|c s]|]; cbn [truthy negb default from_option id];
    try (split; [by left|by intros v ?%elem_of_nil]).
  fold (first_paragraph (c :: s)).
  destruct (re_search re_trigger _) as [sent|] eqn:Hsent;
    [|split; [by left|by intros v ?%elem_of_nil]].
  rewrite fromkeys_first_seen. fold (code_tokens sent).
  destruct (existsb _ _); [split; [by left|by intros v ?%elem_of_nil]|].
  destruct (2 <=? _)%nat eqn:Hlen; cbn [andb];
    [|split; [by left|by intros v ?%elem_of_nil]].
  destruct (forallb _ _) eqn:Hsh; [|split; [by left|by intros v ?%elem_of_nil]].
  apply Nat.leb_le in Hlen. apply forallb_short_Forall in Hsh.
  assert (Hall : ∀ v, v ∈ first_seen (code_tokens sent) →
            v ≠ [] ∧ (backtick ∉ v)
            ∧ contains (str ":code:`" ++ v ++ [backtick]) (c :: s) = true).
  { intros v Hv. apply first_seen_elem, code_tokens_sound in Hv as (Hne & Hb & Hc).
    split; [done|]. split; [done|].
    apply contains_spec in Hc as (u1 & u2 & ->).
    apply re_search_sound in Hsent as (w1 & w2 & E).
    destruct (first_paragraph_prefix (c :: s)) as [rest Hp].
    apply contains_spec. exists (w1 ++ u1), (u2 ++ w2 ++ rest).
    rewrite Hp at 1. rewrite E. by rewrite <- !app_assoc. }
  split.
  - right. split; [done|]. split; [apply first_seen_NoDup|].
    apply Forall_forall. intros v Hv. split.
    + destruct (Hall v Hv) as (Hne & _). destruct v; [done|simpl; lia].
    + rewrite Forall_forall in Hsh. by apply Hsh.
  - intros v Hv. destruct (Hall v Hv) as (_ & Hb & Hc).
    split; [done|]. by exists (c :: s).
Qed.

(** [extract_values] reads the first paragraph only: what follows the
    first blank line has no effect on the result. *)
Theorem extract_values_first_paragraph (opt_name p rest : text) :
  contains two_newlines (p ++ [newline]) = false →
  extract_values opt_name (Some (p ++ two_newlines ++ rest))
  = extract_values opt_name (Some p).
Proof.
  intros Hc. destruct (first_paragraph_cut p rest Hc) as [H1 H2].
  unfold extract_values. unfold first_paragraph in H1, H2.
  destruct p as [|c p].
  - cbn [truthy negb default from_option id app two_newlines].
    change (newline :: newline :: rest) with ([] ++ two_newlines ++ rest).
    by rewrite H1.
  - cbn [truthy negb default from_option id app]. 
    change (c :: p ++ two_newlines ++ rest) with ((c :: p) ++ two_newlines ++ rest).
    by rewrite H1, H2.
Qed.

Lemma extract_values_first_paragraph_witness :
  extract_values (str "opt")
    (Some (str "Can be :code:`a` or :code:`b`." ++ two_newlines
             ++ str "Or :code:`c`."))
  = extract_values (str "opt") (Some (str "Can be :code:`a` or :code:`b`.")).
Proof.
  apply (extract_values_first_paragraph (str "opt")
           (str "Can be :code:`a` or :code:`b`.") (str "Or :code:`c`.")).
  by vm_compute.
Defined.

(** [none_is_special_value] answers [True] only for a text in which
    [:code:`none`] stands, and every sentence that its split of a text
    produces is a contiguous part of that text. *)
Theorem none_is_special_value_mention (opt_name : text) :
  (∀ t, none_is_special_value opt_name t = true →
        ∃ s, t = Some s ∧ mentions_none s)
  ∧ (∀ s sent, sent ∈ re_split re_sentence_break s → ∃ u v, s = u ++ sent ++ v).
Proof.
  split; [|apply sentences_inside].
  intros t. unfold none_is_special_value. destruct t as [[|c s]|]; [done| |done].
  cbn [truthy negb default from_option id]. intros H.
  apply none_loop_spec in H as (sent & Hin & Hc & _).
  exists (c :: s). split; [done|].
  apply sentences_inside in Hin as (u & v & ->).
  apply contains_spec in Hc as (u1 & u2 & ->).
  exists (u ++ u1), (u2 ++ v). by rewrite <- !app_assoc.
Qed.

Lemma none_is_special_value_mention_witness :
  (∃ s, Some (str "Set to :code:`none` to disable.") = Some s ∧ mentions_none s)
  ∧ ∃ u v, str "Off. Set to :code:`none` to disable."
           = u ++ str "Set to :code:`none` to disable." ++ v.
Proof.
  destruct (none_is_special_value_mention (str "opt")) as [H1 H2]. split.
  - apply H1. by vm_compute.
  - apply H2. vm_compute. right. left.
Defined.

(** Every text of 1 to 19 characters is a stub, whatever it says; the
    empty text is not. *)
Theorem is_stub_doc_short (t : text) :
  length t < 20 → (is_stub_doc (Some t) = true ↔ t ≠ []).
Proof.
  intros Hl. unfold is_stub_doc. destruct t as [|c t]; [done|].
  cbn [truthy negb default from_option id]. split; [done|]. intros _.
  apply Nat.ltb_lt.
  pose proof (strip_length (re_sub_count re_see_details [] (c :: t) 1)).
  pose proof (remove_see_details_length (c :: t)) as H2.
  unfold remove_see_details in H2. lia.
Qed.

Lemma is_stub_doc_short_witness :
  is_stub_doc (Some (str "Quit kitty")) = true ↔ str "Quit kitty" ≠ [].
Proof. apply (is_stub_doc_short (str "Quit kitty")). vm_compute. lia. Defined.

(** For a text that does not start with [See] nothing is removed: it is
    a stub exactly when it is shorter than 20 characters once trimmed. *)
Theorem is_stub_doc_without_see (t : text) :
  t ≠ [] → startswith (str "See") t = false →
  (is_stub_doc (Some t) = true ↔ length (strip t) < 20).
Proof.
  intros Hne Hs. unfold is_stub_doc. destruct t as [|c t]; [done|].
  cbn [truthy negb default from_option id].
  pose proof (remove_see_details_no_see (c :: t) Hs) as E.
  unfold remove_see_details in E. rewrite E. apply Nat.ltb_lt.
Qed.

Lemma is_stub_doc_without_see_witness :
  is_stub_doc (Some (str "  Close the window  ")) = true
  ↔ length (strip (str "  Close the window  ")) < 20.
Proof.
  apply (is_stub_doc_without_see (str "  Close the window  ")); [done|by vm_compute].
Defined.

(** Every entry of [parse_options_spec] is made of single lines: neither
    its signature nor its description holds a line break. *)
Theorem parse_options_spec_one_line (spec : option text) (e : text * text) :
  e ∈ parse_options_spec spec → (newline ∉ fst e) ∧ (newline ∉ snd e).
Proof.
  rewrite parse_options_spec_lines. unfold parse_lines. intros Hin.
  assert (Hinv : lines_inv (flush (foldl step init_state (spec_lines spec)))).
  { apply flush_lines_inv, foldl_step_lines_inv; [apply spec_lines_one_line|].
    split; [constructor|]. split; [done|]. intros k v. cbn [init_state current_meta].
    by rewrite lookup_empty. }
  destruct Hinv as (He & _). rewrite Forall_forall in He. by apply He.
Qed.

Lemma parse_options_spec_one_line_witness :
  (newline ∉ fst (str "--env (repeatable)", str "Environment variables."))
  ∧ (newline ∉ snd (str "--env (repeatable)", str "Environment variables.")).
Proof.
  apply (parse_options_spec_one_line
           (Some (str "--env" ++ [newline] ++ str "type=list" ++ [newline]
                    ++ str "Environment" ++ [newline] ++ str "variables."))).
  vm_compute. left.
Defined.

(** Parsing is compositional at a flag line: the entries of a spec
    followed by a line break and a spec that starts with [--] are the
    entries of the first followed by the entries of the second. *)
Theorem parse_options_spec_concat (spec1 spec2 : text) :
  is_flag_line spec2 = true →
  parse_options_spec (Some (spec1 ++ newline :: spec2))
  = parse_options_spec (Some spec1) ++ parse_options_spec (Some spec2).
Proof.
  intros Hf. rewrite !parse_options_spec_lines. cbn [spec_lines].
  rewrite split_str_newline_app.
  destruct (split_flag_first spec2 Hf) as (f & B & -> & Hf').
  by apply parse_lines_app.
Qed.

Lemma parse_options_spec_concat_witness :
  parse_options_spec
    (Some ((str "--title" ++ [newline] ++ str "The title.")
             ++ newline :: (str "--type" ++ [newline] ++ str "choices=window,tab")))
  = parse_options_spec (Some (str "--title" ++ [newline] ++ str "The title."))
    ++ parse_options_spec (Some (str "--type" ++ [newline] ++ str "choices=window,tab")).
Proof.
  apply (parse_options_spec_concat
           (str "--title" ++ [newline] ++ str "The title.")
           (str "--type" ++ [newline] ++ str "choices=window,tab")).
  by vm_compute.
Defined.

(** A line that, trimmed, is [#placeholder_for_formatting#] is skipped
    wherever it stands, as the first line, the last, the only one or
    between others: the result is the one of the spec without that
    line. *)
Theorem parse_options_spec_placeholder (A B : list text) (l : text) :
  Forall one_line (A ++ l :: B) → strip l = placeholder →
  parse_options_spec (Some (join [newline] (A ++ l :: B)))
  = parse_options_spec (Some (join [newline] (A ++ B))).
Proof.
  intros Hall Hp. rewrite !parse_options_spec_lines. cbn [spec_lines].
  rewrite split_join_lines; [|by destruct A|done].
  rewrite parse_lines_placeholder by done.
  destruct (A ++ B) as [|p ls] eqn:E; [done|].
  rewrite split_join_lines; [done|done|].
  rewrite <- E. apply Forall_app in Hall as [HA HB].
  apply Forall_app. split; [done|]. by apply Forall_cons in HB as [_ HB].
Qed.

Lemma parse_options_spec_placeholder_witness :
  parse_options_spec
    (Some (str "#placeholder_for_formatting#" ++ newline :: str "--title"
             ++ newline :: str "The title."))
  = parse_options_spec (Some (str "--title" ++ newline :: str "The title.")).
Proof.
  apply (parse_options_spec_placeholder []
           [str "--title"; str "The title."] (str "#placeholder_for_formatting#"));
    [|by vm_compute].
  repeat constructor; apply forallb_not_chr; by vm_compute.
Defined.

(** [format_flags_doc] returns the empty text for the empty list only;
    for entries made of single lines, the lines of its result are, entry
    by entry, the signature after two spaces and then, when it is not
    empty, the description after four. *)
Theorem format_flags_doc_lines (es : list (text * text)) :
  (format_flags_doc es = [] ↔ es = [])
  ∧ (es ≠ [] → Forall (λ e, (newline ∉ fst e) ∧ (newline ∉ snd e)) es →
     split_str [newline] (format_flags_doc es) = concat (map entry_lines es)).
Proof.
  split.
  - split; [|by intros ->]. destruct es as [|e es]; [done|].
    unfold format_flags_doc. cbn [map concat app].
    set (rest := _ ++ concat _). by destruct rest.
  - intros Hne Hall. unfold format_flags_doc.
    change (concat (map _ es)) with (concat (map entry_lines es)).
    apply split_join_lines.
    + destruct es as [|e es]; [done|]. simpl. discriminate.
    + apply Forall_concat, Forall_map. eapply Forall_impl; [exact Hall|].
      intros e [H1 H2]. by apply entry_lines_one_line.
Qed.

(** A completed pass neither adds nor removes a record, and leaves the
    [name] of every record as it was. *)
Theorem enrich_keeps_records (src : sources) (am am' : gmap text action) :
  enrich_stub_actions src am = Ok am' →
  dom am' = dom am
  ∧ ∀ nm a', am' !! nm = Some a' → ∃ a, am !! nm = Some a ∧ name a' = name a.
Proof.
  intros H. apply enrich_same in H as (am3 & -> & Hs & _). split.
  - apply set_eq. intros nm. rewrite !elem_of_dom, lookup_fmap.
    specialize (Hs nm). destruct Hs as [a a3 _|]; simpl.
    + split; by eexists.
    + done.
  - intros nm a'. rewrite lookup_fmap. specialize (Hs nm).
    destruct Hs as [a a3 [Hn _]|]; simpl; [|done].
    intros [= <-]. by exists a.
Qed.

Lemma enrich_keeps_records_witness :
  dom (strip_see <$> ({[ str "quit" := Action (str "quit") (str "Quit") [] ]}
                         : gmap text action))
  = dom ({[ str "quit" := Action (str "quit") (str "Quit") [] ]} : gmap text action)
  ∧ ∀ nm a',
      (strip_see <$> ({[ str "quit" := Action (str "quit") (str "Quit") [] ]}
                        : gmap text action)) !! nm = Some a' →
      ∃ a, ({[ str "quit" := Action (str "quit") (str "Quit") [] ]}
              : gmap text action) !! nm = Some a ∧ name a' = name a.
Proof.
  apply (enrich_keeps_records (Sources (Raise ImportError) [] (Raise ImportError))).
  unfold enrich_stub_actions, enrich_launch. cbn [launch_options_spec shortcut_map].
  by rewrite lookup_singleton_ne.
Defined.

(** The enrichment touches stubs only: after a completed pass a record
    whose [doc] was no stub is the record it was, up to the final
    clean-up of [See] references. *)
Theorem enrich_keeps_real_doc (src : sources) (am am' : gmap text action)
    (nm : text) (a : action) :
  enrich_stub_actions src am = Ok am' → am !! nm = Some a →
  is_stub_doc (Some (doc a)) = false →
  am' !! nm = Some (strip_see a).
Proof.
  intros H Ha Hd. apply enrich_same in H as (am3 & -> & _ & Hk).
  by rewrite lookup_fmap, (Hk nm a Ha Hd).
Qed.

Lemma enrich_keeps_real_doc_witness :
  (strip_see <$> ({[ str "quit" :=
       Action (str "quit") (str "Quit") (str "Quit kitty and close all windows.") ]}
     : gmap text action)) !! str "quit"
  = Some (strip_see
            (Action (str "quit") (str "Quit") (str "Quit kitty and close all windows."))).
Proof.
  apply (enrich_keeps_real_doc (Sources (Raise ImportError) [] (Raise ImportError))
           {[ str "quit" :=
                Action (str "quit") (str "Quit") (str "Quit kitty and close all windows.") ]}).
  - unfold enrich_stub_actions, enrich_launch. cbn [launch_options_spec shortcut_map].
    by rewrite lookup_singleton_ne.
  - by rewrite lookup_singleton_eq.
  - by vm_compute.
Defined.

(** [mappings[0]] is not guarded: when the loop over [shortcut_map]
    reaches a name of the map whose record is a stub and whose list of
    mappings is empty, the pass ends with [IndexError]. *)
Theorem enrich_index_error (src : sources) (am am1 : gmap text action)
    (done_items rest : list (text * list (option text))) (nm : text) (a : action) :
  shortcut_map src = done_items ++ (nm, []) :: rest →
  enrich_shortcuts done_items (enrich_launch src am) = Ok am1 →
  am1 !! nm = Some a → is_stub_doc (Some (doc a)) = true →
  enrich_stub_actions src am = Raise IndexError.
Proof.
  intros Hsm H1 Ha Hs. unfold enrich_stub_actions.
  rewrite Hsm, enrich_shortcuts_app, H1. simpl. by rewrite Ha, Hs.
Qed.

Lemma enrich_index_error_witness :
  enrich_stub_actions
    (Sources (Raise ImportError) [(str "quit", [])] (Raise ImportError))
    {[ str "quit" := Action (str "quit") (str "Quit") (str "See quit.") ]}
  = Raise IndexError.
Proof.
  apply (enrich_index_error
           (Sources (Raise ImportError) [(str "quit", [])] (Raise ImportError))
           {[ str "quit" := Action (str "quit") (str "Quit") (str "See quit.") ]}
           {[ str "quit" := Action (str "quit") (str "Quit") (str "See quit.") ]}
           [] [] (str "quit") (Action (str "quit") (str "Quit") (str "See quit."))).
  - done.
  - unfold enrich_launch. by rewrite lookup_singleton_ne.
  - by rewrite lookup_singleton_eq.
  - by vm_compute.
Defined.

(** The import of [command_for_name] is guarded for [ImportError] only:
    when it raises anything else the pass does not complete; it ends
    with that exception, unless the loop over [shortcut_map] has ended it
    before with [IndexError]. *)
Theorem enrich_import_failure (src : sources) (am : gmap text action) (e : exn) :
  rc_import src = Raise e → e ≠ ImportError →
  ∃ e', enrich_stub_actions src am = Raise e' ∧ (e' = e ∨ e' = IndexError).
Proof.
  intros Hrc He. unfold enrich_stub_actions.
  destruct (enrich_shortcuts _ _) as [am2|e2] eqn:H2.
  - unfold enrich_rc. rewrite Hrc. exists e. split; [by destruct e|by left].
  - exists e2. split; [done|]. right. by eapply enrich_shortcuts_raises.
Qed.

Lemma enrich_import_failure_witness :
  ∃ e', enrich_stub_actions (Sources (Ok None) [] (Raise OtherException)) ∅
        = Raise e'
        ∧ (e' = OtherException ∨ e' = IndexError).
Proof.
  apply (enrich_import_failure (Sources (Ok None) [] (Raise OtherException)) ∅
           OtherException); done.
Defined.

(** The clean-up of [short] only cuts and trims: its result is a prefix
    of the field, trimmed; what is cut off, if anything, is a [See]
    clause that runs to the end of the field or to a line break that ends
    it.  A field in which [See] does not stand is trimmed only. *)
Theorem strip_see_short_truncates (s : text) :
  (∃ p0 rest, s = p0 ++ rest ∧ strip_see_short s = strip p0
     ∧ (rest = [] ∨ ∃ clause tail, rest = clause ++ tail ∧ see_clause clause
                                   ∧ (tail = [] ∨ tail = [newline])))
  ∧ (contains (str "See") s = false → strip_see_short s = strip s).
Proof. split; [apply strip_see_short_cut|apply strip_see_short_no_match]. Qed.

(** The clean-up of [doc] leaves a text that does not start with the
    word [See] exactly as it is, without trimming it: a text that does
    not start with [See], and one in which a word character follows
    [See]. *)
Theorem strip_see_doc_unchanged (d : text) :
  (startswith (str "See") d = false
   ∨ ∃ c rest, d = str "See" ++ c :: rest ∧ is_word c = true) →
  strip_see_doc d = d.
Proof.
  intros H. unfold strip_see_doc.
  destruct (re_match re_see_start d) as [res|] eqn:Hm; [|by rewrite andb_false_r].
  apply see_start_inv in Hm as (rest & -> & Hst). exfalso.
  destruct H as [H|(c & rest' & E & Hc)].
  - by rewrite (startswith_app (str "See")) in H.
  - apply app_inv_head in E. subst rest. simpl in Hst. congruence.
Qed.

Lemma strip_see_doc_unchanged_witness :
  strip_see_doc (str "Seeds the generator. ") = str "Seeds the generator. ".
Proof.
  apply (strip_see_doc_unchanged (str "Seeds the generator. ")).
  right. exists "d", (str "s the generator. "). by vm_compute.
Defined.
